(** * cpuprofile-to-md: the profile normalizer and the analysis engine

    A shallow embedding of [src/parser.ts] and [src/analyzer.ts].

    Numbers.  Every number a [.cpuprofile] carries (node ids, line and
    column numbers, time deltas in microseconds, hit counts) is an integer,
    and on integers the arithmetic of the source (sums and differences) is
    exact: they are modelled in [Z].  The two places where the source
    divides are modelled separately: the guarded percentages in [Q], and the
    unguarded mean sample interval in [number], which keeps the values a
    division by zero produces.

    Containers.  A [Map<number, _>] that the source only reads with [get]
    and [has] is a [gmap Z _]; a [Set<number>] a [gset Z]; a [Map] whose
    iteration order the source observes is a list of bindings in insertion
    order. *)

From Stdlib Require Import ZArith QArith Qminmax Lia Lqa List String Ascii Sorted Permutation.
From stdpp Require Import base option list gmap strings fin_maps pretty sorting.

Local Open Scope Z_scope.

(** ** Raw types ([src/types.ts])

    One module per interface, so that the fields keep their names. *)

Module CallFrame.
Record t := mk {
  functionName : string;
  scriptId : string;
  url : string;
  lineNumber : Z;
  columnNumber : Z;
}.
End CallFrame.

(** [hitCount], [children] and [parent] are optional fields; [positionTicks]
    is never read by the engine and is left out. *)
Module Node.
Record t := mk {
  id : Z;
  callFrame : CallFrame.t;
  hitCount : option Z;
  children : option (list Z);
  parent : option Z;
}.
End Node.

Module Profile.
Record t := mk {
  startTime : Z;
  endTime : Z;
  nodes : list Node.t;
  samples : list Z;
  timeDeltas : list Z;
}.
End Profile.

Abbreviation V8CpuProfileCallFrame := CallFrame.t.
Abbreviation V8CpuProfileNode := Node.t.
Abbreviation V8CpuProfile := Profile.t.

(** ** Analysis result types ([src/types.ts]) *)

(** [callers] and [callees] are [Set<string>]: the elements in insertion
    order, without repetition. *)
Module FunctionStats.
Record t := mk {
  key : string;
  name : string;
  url : string;
  line : Z;
  column : Z;
  selfTime : Z;
  totalTime : Z;
  selfPercent : Q;
  totalPercent : Q;
  hitCount : Z;
  callers : list string;
  callees : list string;
}.
End FunctionStats.

Inductive HotspotType := native | app | unknown.

Module Hotspot.
Record t := mk {
  key : string;
  name : string;
  url : string;
  line : Z;
  column : Z;
  selfTime : Z;
  totalTime : Z;
  selfPercent : Q;
  totalPercent : Q;
  hitCount : Z;
  callers : list string;
  callees : list string;
  type : HotspotType;
}.
End Hotspot.

Module CallTreeNode.
Inductive t := mk {
  name : string;
  url : string;
  line : Z;
  selfTime : Z;
  totalTime : Z;
  selfPercent : Q;
  totalPercent : Q;
  children : list t;
}.
End CallTreeNode.

Module PathNode.
Record t := mk {
  name : string;
  selfPercent : Q;
  totalPercent : Q;
}.
End PathNode.

Module CriticalPath.
Record t := mk {
  path : list PathNode.t;
  cumulativePercent : Q;
}.
End CriticalPath.

(** A JavaScript number that a division produced. *)
Inductive number :=
  | Finite (q : Q)
  | NaN
  | PlusInfinity
  | MinusInfinity.

Module AnalysisResult.
Record t := mk {
  totalTime : Z;
  totalSamples : Z;
  sampleInterval : number;
  functionStats : list FunctionStats.t;
  callTree : CallTreeNode.t;
  hotspots : list Hotspot.t;
  criticalPaths : list CriticalPath.t;
  startTime : Z;
  endTime : Z;
}.
End AnalysisResult.

Module AnalyzeOptions.
Record t := mk {
  hotspotThreshold : option Q;
  maxHotspots : option Z;
  maxPaths : option Z;
}.
End AnalyzeOptions.

(** How a call of the source ends when it does not return a value.
    [TypeError] is the property read on [undefined] or [null], or the call
    of what is not a function; [RangeError] is the exhausted call stack of a
    recursion that does not end.  [InvalidJSON] is the error
    [Invalid JSON in profile: ...] (the specification's [InvalidEncoding])
    and [MissingField f] the error
    [Invalid profile: missing or invalid "f" array] (its
    [MalformedProfile]).  Two more mark where the model stops:
    [NotANumber] where [undefined] enters the arithmetic, and [IllTyped]
    where a value is not of the type its TypeScript declaration gives it. *)
Inductive failure :=
  | TypeError
  | RangeError
  | NotANumber
  | InvalidJSON
  | MissingField (field : string)
  | IllTyped.

Inductive outcome (A : Type) :=
  | Ok (a : A)
  | Fail (e : failure).
Arguments Ok {A} a.
Arguments Fail {A} e.

#[global] Instance outcome_ret : MRet outcome := fun A a => Ok a.

#[global] Instance outcome_fmap : FMap outcome := fun A B f x =>
  match x with
  | Ok a => Ok (f a)
  | Fail e => Fail e
  end.

#[global] Instance outcome_bind : MBind outcome := fun A B f x =>
  match x with
  | Ok a => f a
  | Fail e => Fail e
  end.

(** ** Library functions of JavaScript the engine uses *)

(** [Array.prototype.sort(cmp)]: the sort is stable, so for a consistent
    comparator the result is the one of a stable insertion sort.  The
    argument [le0 a b] is the test [cmp(a, b) <= 0]. *)
Section Sort.
Context {A : Type} (le0 : A -> A -> bool).

Fixpoint insertSorted (x : A) (l : list A) : list A :=
  match l with
  | [] => [x]
  | y :: ys => if le0 x y then x :: l else y :: insertSorted x ys
  end.

Definition jsSort (l : list A) : list A := foldr insertSorted [] l.
End Sort.

(** [arr.slice(0, end)]: a negative [end] counts from the end of the array. *)
Definition jsSlice0 {A} (stop : Z) (l : list A) : list A :=
  let len := Z.of_nat (length l) in
  let final := if stop <? 0 then Z.max (len + stop) 0 else Z.min stop len in
  take (Z.to_nat final) l.

(** [s.startsWith(pre)] and [s.includes(sub)] *)
Definition startsWith (s pre : string) : bool := String.prefix pre s.

Fixpoint includes (s sub : string) : bool :=
  String.prefix sub s ||
  match s with
  | EmptyString => false
  | String _ s' => includes s' sub
  end.

(** [a / b] on integers, where [b] is a length (so never [-0]). *)
Definition jsDiv (a b : Z) : number :=
  if b =? 0 then
    if a =? 0 then NaN else if 0 <? a then PlusInfinity else MinusInfinity
  else Finite (inject_Z a / inject_Z b)%Q.

(** [set.add(x)] on a [Set<string>] kept in insertion order. *)
Definition setAdd (x : string) (s : list string) : list string :=
  if decide (x ∈ s) then s else s ++ [x].

(** ** [analyzeProfile]: node map and self time *)

(** [m.get(k) || 0] on a map of integers. *)
Definition getOr0 (m : gmap Z Z) (k : Z) : Z := default 0 (m !! k).

(** [for (const node of profile.nodes) nodeMap.set(node.id, node)] *)
Definition buildNodeMap (ns : list Node.t) : gmap Z Node.t :=
  fold_left (fun m node => <[Node.id node := node]> m) ns ∅.

(** The sample loop (lines 38-44).  The state is the pair
    [(selfTimeMap, hitCountMap)].  [timeDeltas[i]] past the end of the array
    is [undefined] in the source and turns the sum into [NaN]; the integer
    model stops there. *)
Definition sampleStep (nodeId timeDelta : Z) (st : gmap Z Z * gmap Z Z)
  : gmap Z Z * gmap Z Z :=
  (<[nodeId := getOr0 st.1 nodeId + timeDelta]> st.1,
   <[nodeId := getOr0 st.2 nodeId + 1]> st.2).

Fixpoint sampleLoop (ss : list Z) (i : nat) (deltas : list Z)
    (st : gmap Z Z * gmap Z Z) : outcome (gmap Z Z * gmap Z Z) :=
  match ss with
  | [] => Ok st
  | nodeId :: rest =>
      match deltas !! i with
      | Some timeDelta => sampleLoop rest (S i) deltas (sampleStep nodeId timeDelta st)
      | None => Fail NotANumber
      end
  end.

Definition computeSelfTime (p : Profile.t) : outcome (gmap Z Z * gmap Z Z) :=
  sampleLoop (Profile.samples p) 0 (Profile.timeDeltas p) (∅, ∅).

(** [profile.timeDeltas.reduce((sum, delta) => sum + delta, 0)] *)
Definition sumDeltas (deltas : list Z) : Z :=
  fold_left (fun sum delta => sum + delta) deltas 0.

Definition profileTotalTime (p : Profile.t) : Z := sumDeltas (Profile.timeDeltas p).

(** [sumTotals m ids]: the sum of [m.get(id) || 0] over the list [ids]. *)
Definition sumTotals (m : gmap Z Z) (ids : list Z) : Z :=
  foldr (fun c acc => getOr0 m c + acc) 0 ids.

(** The self time of all nodes of the table, added up. *)
Definition sumSelfTime (selfTimeMap : gmap Z Z) (ns : list Node.t) : Z :=
  sumTotals selfTimeMap (Node.id <$> ns).

(** ** [computeTotalTime]

    The state of the traversal: the [visited] set and the [totalTimeMap]
    under construction.  [stores] is not a variable of the source: it logs,
    most recent first, the node ids of the [totalTimeMap.set] calls that were
    executed, so that "computed at most once" can be stated. *)
Module TotalTime.
Record state := mk {
  visited : gset Z;
  totalTimeMap : gmap Z Z;
  stores : list Z;
}.
Definition init : state := mk ∅ ∅ [].
Definition visit (nodeId : Z) (st : state) : state :=
  mk ({[nodeId]} ∪ visited st) (totalTimeMap st) (stores st).
Definition store (nodeId total : Z) (st : state) : state :=
  mk (visited st) (<[nodeId := total]> (totalTimeMap st)) (nodeId :: stores st).
End TotalTime.

Section ComputeTotalTime.
Context (nodeMap : gmap Z Node.t) (selfTimeMap : gmap Z Z).

(** [for (const childId of node.children) total += rec(childId)] *)
Fixpoint sumChildren (rec : Z -> TotalTime.state -> option (Z * TotalTime.state))
    (cs : list Z) (total : Z) (st : TotalTime.state)
  : option (Z * TotalTime.state) :=
  match cs with
  | [] => Some (total, st)
  | childId :: rest =>
      match rec childId st with
      | Some (t, st') => sumChildren rec rest (total + t) st'
      | None => None
      end
  end.

(** The inner function [computeNodeTotalTime]; [fuel] bounds the depth of
    the recursion and [None] is its exhaustion. *)
Fixpoint computeNodeTotalTime (fuel : nat) (nodeId : Z) (st : TotalTime.state)
  : option (Z * TotalTime.state) :=
  match fuel with
  | O => None
  | S fuel' =>
      if decide (nodeId ∈ TotalTime.visited st) then
        Some (getOr0 (TotalTime.totalTimeMap st) nodeId, st)
      else
        let st1 := TotalTime.visit nodeId st in
        match nodeMap !! nodeId with
        | None => Some (0, st1)
        | Some node =>
            let total := getOr0 selfTimeMap nodeId in
            match sumChildren (computeNodeTotalTime fuel')
                    (default [] (Node.children node)) total st1 with
            | Some (total', st2) => Some (total', TotalTime.store nodeId total' st2)
            | None => None
            end
        end
  end.

(** [for (const node of nodes) computeNodeTotalTime(node.id)] *)
Fixpoint totalTimeLoop (fuel : nat) (ns : list Node.t) (st : TotalTime.state)
  : option TotalTime.state :=
  match ns with
  | [] => Some st
  | node :: rest =>
      match computeNodeTotalTime fuel (Node.id node) st with
      | Some (_, st') => totalTimeLoop fuel rest st'
      | None => None
      end
  end.

(** The depth of the recursion never exceeds the number of entries of
    [nodeMap] by more than one (lemma [computeNodeTotalTime_fuel]). *)
Definition computeTotalTimeState (ns : list Node.t) : option TotalTime.state :=
  totalTimeLoop (S (size nodeMap)) ns TotalTime.init.

Definition computeTotalTime (ns : list Node.t) : option (gmap Z Z) :=
  TotalTime.totalTimeMap <$> computeTotalTimeState ns.
End ComputeTotalTime.

(** ** [aggregateFunctionStats] *)

Definition showZ (z : Z) : string := pretty z.

(** [`${functionName}@${url}:${lineNumber}:${columnNumber}`] *)
Definition functionKey (cf : CallFrame.t) : string :=
  CallFrame.functionName cf +:+ "@" +:+ CallFrame.url cf +:+ ":" +:+
  showZ (CallFrame.lineNumber cf) +:+ ":" +:+ showZ (CallFrame.columnNumber cf).

Definition hasKey (k : string) (statsMap : list FunctionStats.t) : bool :=
  bool_decide (k ∈ (FunctionStats.key <$> statsMap)).

(** The record [statsMap.set(key, {...})] stores for a key seen first. *)
Definition freshStats (k : string) (cf : CallFrame.t) : FunctionStats.t :=
  FunctionStats.mk k (CallFrame.functionName cf) (CallFrame.url cf)
    (CallFrame.lineNumber cf) (CallFrame.columnNumber cf)
    0 0 0%Q 0%Q 0 [] [].

(** [const stats = statsMap.get(key)!] followed by updates in place. *)
Definition updateStats (k : string) (f : FunctionStats.t -> FunctionStats.t)
    (statsMap : list FunctionStats.t) : list FunctionStats.t :=
  (fun s => if decide (FunctionStats.key s = k) then f s else s) <$> statsMap.

Section Aggregate.
Context (selfTimeMap totalTimeMap hitCountMap : gmap Z Z)
        (totalTime : Z) (nodeMap : gmap Z Node.t).

Definition callerKeys (node : Node.t) : list string :=
  match Node.parent node with
  | Some p =>
      match nodeMap !! p with
      | Some parentNode => [functionKey (Node.callFrame parentNode)]
      | None => []
      end
  | None => []
  end.

Definition calleeKeys (node : Node.t) : list string :=
  omap (fun childId => functionKey <$> (Node.callFrame <$> nodeMap !! childId))
       (default [] (Node.children node)).

Definition addNode (node : Node.t) (s : FunctionStats.t) : FunctionStats.t :=
  FunctionStats.mk (FunctionStats.key s) (FunctionStats.name s) (FunctionStats.url s)
    (FunctionStats.line s) (FunctionStats.column s)
    (FunctionStats.selfTime s + getOr0 selfTimeMap (Node.id node))
    (FunctionStats.totalTime s + getOr0 totalTimeMap (Node.id node))
    (FunctionStats.selfPercent s) (FunctionStats.totalPercent s)
    (FunctionStats.hitCount s + getOr0 hitCountMap (Node.id node))
    (fold_left (fun set k => setAdd k set) (callerKeys node) (FunctionStats.callers s))
    (fold_left (fun set k => setAdd k set) (calleeKeys node) (FunctionStats.callees s)).

(** The body of the loop over the nodes. *)
Definition aggregateStep (statsMap : list FunctionStats.t) (node : Node.t)
  : list FunctionStats.t :=
  let k := functionKey (Node.callFrame node) in
  let statsMap1 :=
    if hasKey k statsMap then statsMap
    else statsMap ++ [freshStats k (Node.callFrame node)] in
  updateStats k (addNode node) statsMap1.

(** [totalTime > 0 ? (t / totalTime) * 100 : 0] *)
Definition percentOf (t : Z) : Q :=
  if 0 <? totalTime then (inject_Z t / inject_Z totalTime * 100)%Q else 0%Q.

Definition setPercents (s : FunctionStats.t) : FunctionStats.t :=
  FunctionStats.mk (FunctionStats.key s) (FunctionStats.name s) (FunctionStats.url s)
    (FunctionStats.line s) (FunctionStats.column s)
    (FunctionStats.selfTime s) (FunctionStats.totalTime s)
    (percentOf (FunctionStats.selfTime s)) (percentOf (FunctionStats.totalTime s))
    (FunctionStats.hitCount s) (FunctionStats.callers s) (FunctionStats.callees s).

(** The result lists the values of [statsMap] in insertion order. *)
Definition aggregateFunctionStats (ns : list Node.t) : list FunctionStats.t :=
  setPercents <$> fold_left aggregateStep ns [].
End Aggregate.

(** ** [extractHotspots] and [determineHotspotType] *)

(** On a string, [!url] and [url === ''] are the same test; [name] is not
    read. *)
Definition determineHotspotType (url name : string) : HotspotType :=
  if bool_decide (url = "") || bool_decide (url = "")
     || startsWith url "native " || includes url "(native)" then native
  else if includes url "node_modules" || includes url "internal/" then native
  else if startsWith url "http://" || startsWith url "https://"
          || startsWith url "file://" then app
  else if includes url "/" || includes url "\" then app
  else unknown.

Definition toHotspot (s : FunctionStats.t) : Hotspot.t :=
  Hotspot.mk (FunctionStats.key s) (FunctionStats.name s) (FunctionStats.url s)
    (FunctionStats.line s) (FunctionStats.column s)
    (FunctionStats.selfTime s) (FunctionStats.totalTime s)
    (FunctionStats.selfPercent s) (FunctionStats.totalPercent s)
    (FunctionStats.hitCount s) (FunctionStats.callers s) (FunctionStats.callees s)
    (determineHotspotType (FunctionStats.url s) (FunctionStats.name s)).

(** [(a, b) => b.selfTime - a.selfTime] is at most zero *)
Definition bySelfTime (a b : FunctionStats.t) : bool :=
  FunctionStats.selfTime b - FunctionStats.selfTime a <=? 0.

Definition passesThreshold (threshold : Q) (s : FunctionStats.t) : bool :=
  Qle_bool threshold (FunctionStats.selfPercent s).

Definition extractHotspots (functionStats : list FunctionStats.t)
    (threshold : Q) (maxCount : Z) : list Hotspot.t :=
  toHotspot <$>
    jsSlice0 maxCount
      (jsSort bySelfTime (List.filter (passesThreshold threshold) functionStats)).

(** ** [buildCallTree] *)

(** [(a, b) => b.totalTime - a.totalTime] is at most zero *)
Definition byTotalTime (a b : CallTreeNode.t) : bool :=
  CallTreeNode.totalTime b - CallTreeNode.totalTime a <=? 0.

Section BuildCallTree.
Context (nodeMap : gmap Z Node.t) (selfTimeMap totalTimeMap : gmap Z Z) (totalTime : Z).

(** The inner function [buildNode].  [nodeMap.get(nodeId)!] of an id that is
    not in the table is [undefined], and reading its [callFrame] throws.
    The recursion has no visited set: [fuel] bounds its depth, and its
    exhaustion stands for the recursion that does not end. *)
Fixpoint buildNode (fuel : nat) (nodeId : Z) : outcome CallTreeNode.t :=
  match fuel with
  | O => Fail RangeError
  | S fuel' =>
      match nodeMap !! nodeId with
      | None => Fail TypeError
      | Some node =>
          let selfTime := getOr0 selfTimeMap nodeId in
          let totalTimeValue := getOr0 totalTimeMap nodeId in
          kids ← mapM (buildNode fuel') (default [] (Node.children node));
          Ok (CallTreeNode.mk
                (CallFrame.functionName (Node.callFrame node))
                (CallFrame.url (Node.callFrame node))
                (CallFrame.lineNumber (Node.callFrame node))
                selfTime totalTimeValue
                (percentOf totalTime selfTime) (percentOf totalTime totalTimeValue)
                (jsSort byTotalTime kids))
      end
  end.

(** [rootNode] is [profile.nodes[0]], [undefined] for an empty table. *)
Definition buildCallTree (rootNode : option Node.t) : outcome CallTreeNode.t :=
  match rootNode with
  | Some root => buildNode (S (size nodeMap)) (Node.id root)
  | None => Fail TypeError
  end.
End BuildCallTree.

(** ** [findCriticalPaths] *)

Definition toPathNode (node : CallTreeNode.t) : PathNode.t :=
  PathNode.mk (CallTreeNode.name node) (CallTreeNode.selfPercent node)
    (CallTreeNode.totalPercent node).

(** [currentPath.reduce((sum, p) => sum + p.selfPercent, 0)] *)
Definition sumSelfPercent (path : list PathNode.t) : Q :=
  fold_left (fun sum p => (sum + PathNode.selfPercent p)%Q) path 0%Q.

(** The inner function [traverse]; the array [paths] it pushes to is
    threaded through. *)
Fixpoint traverse (node : CallTreeNode.t) (path : list PathNode.t)
    (paths : list CriticalPath.t) : list CriticalPath.t :=
  match node with
  | CallTreeNode.mk _ _ _ _ _ _ _ kids =>
      let currentPath := path ++ [toPathNode node] in
      match kids with
      | [] => paths ++ [CriticalPath.mk currentPath (sumSelfPercent currentPath)]
      | _ => fold_left (fun acc child => traverse child currentPath acc) kids paths
      end
  end.

(** [(a, b) => b.cumulativePercent - a.cumulativePercent] is at most zero *)
Definition byCumulativePercent (a b : CriticalPath.t) : bool :=
  Qle_bool (CriticalPath.cumulativePercent b - CriticalPath.cumulativePercent a) 0.

Definition findCriticalPaths (callTree : CallTreeNode.t) (maxPaths : Z)
  : list CriticalPath.t :=
  jsSlice0 maxPaths (jsSort byCumulativePercent (traverse callTree [] [])).

(** ** [analyzeProfile] *)

Definition defaultOptions : AnalyzeOptions.t := AnalyzeOptions.mk None None None.

(** [const { hotspotThreshold = 1.0, maxHotspots = 20, maxPaths = 5 } = options] *)
Definition optThreshold (o : AnalyzeOptions.t) : Q :=
  default 1%Q (AnalyzeOptions.hotspotThreshold o).
Definition optMaxHotspots (o : AnalyzeOptions.t) : Z :=
  default 20 (AnalyzeOptions.maxHotspots o).
Definition optMaxPaths (o : AnalyzeOptions.t) : Z :=
  default 5 (AnalyzeOptions.maxPaths o).

Definition analyzeProfile (profile : Profile.t) (options : AnalyzeOptions.t)
  : outcome AnalysisResult.t :=
  let hotspotThreshold := optThreshold options in
  let maxHotspots := optMaxHotspots options in
  let maxPaths := optMaxPaths options in
  let nodeMap := buildNodeMap (Profile.nodes profile) in
  maps ← computeSelfTime profile;
  let selfTimeMap := maps.1 in
  let hitCountMap := maps.2 in
  let totalTime := sumDeltas (Profile.timeDeltas profile) in
  let totalSamples := Z.of_nat (length (Profile.samples profile)) in
  let sampleInterval := jsDiv totalTime totalSamples in
  match computeTotalTime nodeMap selfTimeMap (Profile.nodes profile) with
  | None => Fail RangeError
  | Some totalTimeMap =>
      let functionStats :=
        aggregateFunctionStats selfTimeMap totalTimeMap hitCountMap totalTime nodeMap
          (Profile.nodes profile) in
      let rootNode := head (Profile.nodes profile) in
      callTree ← buildCallTree nodeMap selfTimeMap totalTimeMap totalTime rootNode;
      let hotspots := extractHotspots functionStats hotspotThreshold maxHotspots in
      let criticalPaths := findCriticalPaths callTree maxPaths in
      Ok (AnalysisResult.mk totalTime totalSamples sampleInterval functionStats
            callTree hotspots criticalPaths
            (Profile.startTime profile) (Profile.endTime profile))
  end.

(** ** JSON values ([src/parser.ts] works on untyped values)

    [JUndefined] is not a JSON value: it is what reading an absent property
    gives.  Numbers are the integers (see the head of the file).  The fields
    of an object are listed once each, as [JSON.parse] builds them. *)
Inductive jsval :=
  | JUndefined
  | JNull
  | JBool (b : bool)
  | JNum (n : Z)
  | JStr (s : string)
  | JArr (xs : list jsval)
  | JObj (fields : list (string * jsval)).

Fixpoint assoc (k : string) (fields : list (string * jsval)) : jsval :=
  match fields with
  | [] => JUndefined
  | (k', v) :: rest => if decide (k' = k) then v else assoc k rest
  end.

(** [v.k]: reading a property of [undefined] or [null] throws; the values
    other than objects have none of the properties the parser reads. *)
Definition getField (v : jsval) (k : string) : outcome jsval :=
  match v with
  | JUndefined | JNull => Fail TypeError
  | JObj fields => Ok (assoc k fields)
  | _ => Ok JUndefined
  end.

(** [v?.k] *)
Definition getOptional (v : jsval) (k : string) : jsval :=
  match v with
  | JObj fields => assoc k fields
  | _ => JUndefined
  end.

(** [obj.k = v] on an object *)
Fixpoint setAssoc (k : string) (v : jsval) (fields : list (string * jsval))
  : list (string * jsval) :=
  match fields with
  | [] => [(k, v)]
  | (k', v') :: rest =>
      if decide (k' = k) then (k, v) :: rest else (k', v') :: setAssoc k v rest
  end.

Definition truthy (v : jsval) : bool :=
  match v with
  | JUndefined | JNull => false
  | JBool b => b
  | JNum n => negb (n =? 0)
  | JStr s => negb (bool_decide (s = ""))
  | JArr _ | JObj _ => true
  end.

(** [a || b] *)
Definition jsOr (a b : jsval) : jsval := if truthy a then a else b.

(** [v === s] for a string literal [s] *)
Definition strictEqString (v : jsval) (s : string) : bool :=
  match v with
  | JStr s' => bool_decide (s' = s)
  | _ => false
  end.

Definition isArray (v : jsval) : bool :=
  match v with
  | JArr _ => true
  | _ => false
  end.

(** An upper bound of the nesting depth of a value. *)
Fixpoint jsDepth (v : jsval) : nat :=
  match v with
  | JArr xs => S (list_sum (map jsDepth xs))
  | JObj fields => S (list_sum (map (fun kv => jsDepth (snd kv)) fields))
  | _ => 1
  end.

(** ** [parseProfile]: unwrapping the trace-event container *)

(** [event.args?.data?.cpuProfile] and [event.args?.data] *)
Definition embeddedProfile (event : jsval) : jsval :=
  getOptional (getOptional (getOptional event "args") "data") "cpuProfile".
Definition embeddedData (event : jsval) : jsval :=
  getOptional (getOptional event "args") "data".

(** [events.find((event) => event.name === 'CpuProfile'
                          || event.args?.data?.cpuProfile)] *)
Fixpoint findCpuProfileEvent (events : list jsval) : outcome (option jsval) :=
  match events with
  | [] => Ok None
  | event :: rest =>
      name ← getField event "name";
      if strictEqString name "CpuProfile" || truthy (embeddedProfile event)
      then Ok (Some event)
      else findCpuProfileEvent rest
  end.

(** [cpuProfileEvent.args?.data?.cpuProfile || cpuProfileEvent.args?.data]
    when an event was found *)
Definition substituteEvent (parsed : jsval) (found : option jsval) : jsval :=
  match found with
  | Some event => jsOr (embeddedProfile event) (embeddedData event)
  | None => parsed
  end.

(** Lines 42-59.  A [traceEvents] that is truthy and not an array has no
    [find] method to call. *)
Definition unwrapTraceEvents (parsed : jsval) : outcome jsval :=
  match parsed with
  | JArr events => substituteEvent parsed <$> findCpuProfileEvent events
  | _ =>
      traceEvents ← getField parsed "traceEvents";
      if truthy traceEvents then
        match traceEvents with
        | JArr events => substituteEvent parsed <$> findCpuProfileEvent events
        | _ => Fail TypeError
        end
      else Ok parsed
  end.

(** ** [linearizeHeadBasedTree] *)

(** The state of [traverse]: the counter [nextId] and the array [nodes]. *)
Definition defaultCallFrame (node : jsval) : jsval :=
  JObj [("functionName", jsOr (getOptional node "functionName") (JStr "(unknown)"));
        ("scriptId", JStr "0");
        ("url", jsOr (getOptional node "url") (JStr ""));
        ("lineNumber", jsOr (getOptional node "lineNumber") (JNum 0));
        ("columnNumber", jsOr (getOptional node "columnNumber") (JNum 0))].

(** The object [cpuNode]; [parent] is set only when [parentId] is defined. *)
Definition cpuNodeOf (id : Z) (node : jsval) (parentId : option Z) (kids : list Z)
  : jsval :=
  JObj ([("id", JNum id);
         ("callFrame", jsOr (getOptional node "callFrame") (defaultCallFrame node));
         ("hitCount", jsOr (getOptional node "hitCount") (JNum 0));
         ("children", JArr (JNum <$> kids))]
        ++ match parentId with
           | Some p => [("parent", JNum p)]
           | None => []
           end).

(** [node.children.map((child) => traverse(child, id))], the state threaded
    from one child to the next. *)
Fixpoint traverseChildren
    (rec : jsval -> Z * list jsval -> outcome (Z * (Z * list jsval)))
    (kids : list jsval) (st : Z * list jsval) : outcome (list Z * (Z * list jsval)) :=
  match kids with
  | [] => Ok ([], st)
  | child :: rest =>
      r ← rec child st;
      rs ← traverseChildren rec rest r.2;
      Ok (r.1 :: rs.1, rs.2)
  end.

(** The inner function [traverse]; it returns the id it gave to [node].
    [fuel] bounds the depth of the recursion by the depth of the value. *)
Fixpoint traverseHead (fuel : nat) (parentId : option Z) (node : jsval)
    (st : Z * list jsval) : outcome (Z * (Z * list jsval)) :=
  match fuel with
  | O => Fail RangeError
  | S fuel' =>
      let id := st.1 in
      let st1 := (id + 1, st.2) in
      _ ← getField node "callFrame";
      let kids := getOptional node "children" in
      r ← (if truthy kids && isArray kids then
             match kids with
             | JArr xs => traverseChildren (traverseHead fuel' (Some id)) xs st1
             | _ => Ok ([], st1)
             end
           else Ok ([], st1));
      Ok (id, (r.2.1, r.2.2 ++ [cpuNodeOf id node parentId r.1]))
  end.

Definition linearizeHeadBasedTree (head : jsval) : outcome (list jsval) :=
  r ← traverseHead (jsDepth head) None head (1, []);
  Ok r.2.2.

(** Lines 61-64: [if (parsed.head && !parsed.nodes)
                    parsed.nodes = linearizeHeadBasedTree(parsed.head)] *)
Definition linearizeIfHead (parsed : jsval) : outcome jsval :=
  head ← getField parsed "head";
  if truthy head && negb (truthy (getOptional parsed "nodes")) then
    nodes ← linearizeHeadBasedTree head;
    match parsed with
    | JObj fields => Ok (JObj (setAssoc "nodes" (JArr nodes) fields))
    | _ => Ok parsed
    end
  else Ok parsed.

(** Lines 42-64 together: the working value the validation looks at. *)
Definition unwrapProfile (parsed : jsval) : outcome jsval :=
  unwrapped ← unwrapTraceEvents parsed;
  linearizeIfHead unwrapped.

(** ** [parseProfile]: validation (lines 67-75) *)

Definition requireArray (parsed : jsval) (field : string) : outcome (list jsval) :=
  let v := getOptional parsed field in
  if negb (truthy v) || negb (isArray v) then Fail (MissingField field)
  else match v with
       | JArr xs => Ok xs
       | _ => Fail (MissingField field)
       end.

Definition validateProfile (parsed : jsval)
  : outcome (list jsval * list jsval * list jsval) :=
  nodes ← requireArray parsed "nodes";
  samples ← requireArray parsed "samples";
  timeDeltas ← requireArray parsed "timeDeltas";
  Ok (nodes, samples, timeDeltas).

(** ** Shape of a node table

    [edge G p c]: the node table [G] lists [c] among the children of [p].
    The data model asks that the children pointers have no cycle. *)
Definition edge (G : gmap Z Node.t) (p c : Z) : Prop :=
  exists node, G !! p = Some node /\ c ∈ default [] (Node.children node).

Definition acyclic (G : gmap Z Node.t) : Prop :=
  forall x, ~ tc (edge G) x x.

(** Invariants of the traversal, for a state [st] over the table [G]. *)
Section TraversalInvariants.
Context (G : gmap Z Node.t) (self : gmap Z Z).

(** Memo entries belong to visited nodes of the table, and the log of
    stores lists each of them once. *)
Definition memo_wf (st : TotalTime.state) : Prop :=
  (forall x, x ∈ dom (TotalTime.totalTimeMap st) ->
     x ∈ TotalTime.visited st /\ x ∈ dom G)
  /\ NoDup (TotalTime.stores st)
  /\ (forall x, x ∈ TotalTime.stores st <-> x ∈ dom (TotalTime.totalTimeMap st)).

(** What a call may change: it only adds visited ids and memo entries,
    it leaves the entries already there as they are, and every node of
    the table it visits has an entry when it returns. *)
Definition extends (st st' : TotalTime.state) : Prop :=
  TotalTime.visited st ⊆ TotalTime.visited st'
  /\ (forall x t, TotalTime.totalTimeMap st !! x = Some t ->
        TotalTime.totalTimeMap st' !! x = Some t)
  /\ (forall x, x ∈ TotalTime.visited st' -> x ∉ TotalTime.visited st ->
        x ∈ dom G -> x ∈ dom (TotalTime.totalTimeMap st'))
  /\ (forall x, x ∈ dom (TotalTime.totalTimeMap st') ->
        x ∈ dom (TotalTime.totalTimeMap st) \/ x ∉ TotalTime.visited st).

(** Every visited node of the table has its entry (true between two
    calls of the outer loop). *)
Definition all_done (st : TotalTime.state) : Prop :=
  forall x, x ∈ TotalTime.visited st -> x ∈ dom G ->
    x ∈ dom (TotalTime.totalTimeMap st).

(** Nothing reachable from [nodeId] is visited without an entry. *)
Definition below_done (nodeId : Z) (st : TotalTime.state) : Prop :=
  forall x, rtc (edge G) nodeId x -> x ∈ TotalTime.visited st -> x ∈ dom G ->
    x ∈ dom (TotalTime.totalTimeMap st).

(** Each entry is the node's self time plus the entries of its children,
    all of which are visited and, when in the table, have their entry. *)
Definition memo_sums (st : TotalTime.state) : Prop :=
  forall x t node, TotalTime.totalTimeMap st !! x = Some t -> G !! x = Some node ->
    t = getOr0 self x
        + sumTotals (TotalTime.totalTimeMap st) (default [] (Node.children node))
    /\ forall c, c ∈ default [] (Node.children node) ->
         c ∈ TotalTime.visited st
         /\ (c ∈ dom G -> c ∈ dom (TotalTime.totalTimeMap st)).
End TraversalInvariants.

(** ** The logical call tree a node table describes

    The data model: nodes form a rooted tree, each with a unique id.  A
    [shape] is that tree with the ids only. *)
Inductive shape := Shape (root : Z) (kids : list shape).

Definition shapeRoot (s : shape) : Z := match s with Shape r _ => r end.
Definition shapeKids (s : shape) : list shape := match s with Shape _ ks => ks end.

(** All subtrees, in pre-order; the first one is the tree itself. *)
Fixpoint subtrees (s : shape) : list shape :=
  match s with
  | Shape r ks => s :: flat_map subtrees ks
  end.

Fixpoint shapeSize (s : shape) : nat :=
  match s with
  | Shape r ks => S (list_sum (map shapeSize ks))
  end.

(** [tree_table T ns]: the table [ns] lists, in any order, one node for each
    position of the tree [T], under distinct ids and with the ids of the
    position's children as [children].  ([parent], [hitCount] and the call
    frames are free.) *)
Definition tree_table (T : shape) (ns : list Node.t) : Prop :=
  NoDup (Node.id <$> ns)
  /\ Node.id <$> ns ≡ₚ shapeRoot <$> subtrees T
  /\ forall node s, node ∈ ns -> s ∈ subtrees T -> Node.id node = shapeRoot s ->
       default [] (Node.children node) = shapeRoot <$> shapeKids s.

(** ** A sample profile

    A root with two children [A] and [C], and a grandchild [B] under [A];
    [A] is sampled for 30 microseconds, [B] for 20 and [C] for 3. *)
Module Sample.
Definition frame (fn file : string) (ln : Z) : CallFrame.t :=
  CallFrame.mk fn "1" file ln 0.

Definition rootNode : Node.t :=
  Node.mk 1 (CallFrame.mk "(root)" "0" "" 0 0) (Some 0) (Some [2; 4]) None.
Definition nodeA : Node.t :=
  Node.mk 2 (frame "A" "file:///app/a.js" 10) (Some 1) (Some [3]) (Some 1).
Definition nodeB : Node.t :=
  Node.mk 3 (frame "B" "file:///app/b.js" 20) (Some 1) (Some []) (Some 2).
Definition nodeC : Node.t :=
  Node.mk 4 (frame "C" "node:internal/timers" 30) (Some 1) None (Some 1).

Definition profile : Profile.t :=
  Profile.mk 1000 2000 [rootNode; nodeA; nodeB; nodeC] [2; 3; 4] [30; 20; 3].

Definition tree : shape := Shape 1 [Shape 2 [Shape 3 []]; Shape 4 []].
End Sample.

(** Options used with the sample profile: at most two hotspots, with a
    threshold of 40 and of 10 percent. *)
Module SampleOptions.
Definition strict : AnalyzeOptions.t := AnalyzeOptions.mk (Some 40%Q) (Some 2) None.
Definition loose : AnalyzeOptions.t := AnalyzeOptions.mk (Some 10%Q) (Some 2) None.
End SampleOptions.

(** ** The classification rules, as the specification words them *)

Definition beginsWith (s pre : string) : Prop := exists post, s = pre +:+ post.
Definition contains (s sub : string) : Prop := exists pre post, s = pre +:+ sub +:+ post.

(** Rule 1: the URL is empty, starts with [native ], contains [(native)],
    contains [node_modules], or contains [internal/]. *)
Definition nativeRule (url : string) : Prop :=
  url = "" \/ beginsWith url "native " \/ contains url "(native)"
  \/ contains url "node_modules" \/ contains url "internal/".

(** Rule 2: the URL starts with a recognized scheme or contains a path
    separator. *)
Definition appRule (url : string) : Prop :=
  beginsWith url "http://" \/ beginsWith url "https://" \/ beginsWith url "file://"
  \/ contains url "/" \/ contains url "\".

(** ** Root-to-leaf paths of a call tree, as the specification words them *)

(** The sequences of tree nodes from the root to each leaf (a node with
    zero children), leftmost leaf first. *)
Fixpoint leafPaths (t : CallTreeNode.t) : list (list CallTreeNode.t) :=
  match t with
  | CallTreeNode.mk _ _ _ _ _ _ _ kids =>
      match kids with
      | [] => [[t]]
      | _ => cons t <$> flat_map leafPaths kids
      end
  end.

(** [rootToLeaf t seq]: [seq] starts at [t], each next node is a child of
    the one before, and the last node has no children. *)
Inductive rootToLeaf : CallTreeNode.t -> list CallTreeNode.t -> Prop :=
  | rootToLeaf_leaf t :
      CallTreeNode.children t = [] -> rootToLeaf t [t]
  | rootToLeaf_step t k seq :
      k ∈ CallTreeNode.children t -> rootToLeaf k seq -> rootToLeaf t (t :: seq).

(** The sum of the self% of the nodes of a sequence, added up from zero in
    the order of the sequence. *)
Definition pathScore (seq : list CallTreeNode.t) : Q :=
  fold_left (fun sum n => (sum + CallTreeNode.selfPercent n)%Q) seq 0%Q.

(** The critical path of a root-to-leaf sequence. *)
Definition criticalPathOf (seq : list CallTreeNode.t) : CriticalPath.t :=
  CriticalPath.mk (toPathNode <$> seq) (pathScore seq).

(** The call tree of the sample profile. *)
Module SampleTree.
Definition treeNode (fn : string) (selfT totalT : Z) (kids : list CallTreeNode.t)
  : CallTreeNode.t :=
  CallTreeNode.mk fn "" 0 selfT totalT (percentOf 53 selfT) (percentOf 53 totalT) kids.

Definition callTree : CallTreeNode.t :=
  treeNode "(root)" 0 53
    [treeNode "A" 30 50 [treeNode "B" 20 20 []]; treeNode "C" 3 3 []].
End SampleTree.

(** ** Reading a validated value at its declared type

    [parseProfile] returns its value as a [V8CpuProfile] without a check.
    The functions below read a JSON value at that type; where the value is
    not of the type, the model stops with [IllTyped]. *)

Definition asNumber (v : jsval) : option Z :=
  match v with
  | JNum n => Some n
  | _ => None
  end.

Definition asString (v : jsval) : option string :=
  match v with
  | JStr s => Some s
  | _ => None
  end.

(** An optional field: absent, or of the type [read] reads. *)
Definition asOptional {A} (read : jsval -> option A) (v : jsval) : option (option A) :=
  match v with
  | JUndefined => Some None
  | _ => Some <$> read v
  end.

Definition asNumbers (v : jsval) : option (list Z) :=
  match v with
  | JArr xs => mapM asNumber xs
  | _ => None
  end.

Definition asCallFrame (v : jsval) : option CallFrame.t :=
  fn ← asString (getOptional v "functionName");
  sid ← asString (getOptional v "scriptId");
  u ← asString (getOptional v "url");
  ln ← asNumber (getOptional v "lineNumber");
  cn ← asNumber (getOptional v "columnNumber");
  Some (CallFrame.mk fn sid u ln cn).

Definition asNode (v : jsval) : option Node.t :=
  i ← asNumber (getOptional v "id");
  cf ← asCallFrame (getOptional v "callFrame");
  hc ← asOptional asNumber (getOptional v "hitCount");
  cs ← asOptional asNumbers (getOptional v "children");
  p ← asOptional asNumber (getOptional v "parent");
  Some (Node.mk i cf hc cs p).

Definition typed {A} (x : option A) : outcome A :=
  match x with
  | Some a => Ok a
  | None => Fail IllTyped
  end.

(** ** [rebuildChildrenFromParent]

    [nodeMap] is a [Map] whose values are listed at the end: the bindings
    in insertion order. *)

Fixpoint mapGet (k : Z) (m : list (Z * Node.t)) : option Node.t :=
  match m with
  | [] => None
  | (k', v) :: rest => if decide (k' = k) then Some v else mapGet k rest
  end.

(** [m.set(k, v)]: a key that is there keeps its place. *)
Fixpoint mapSet (k : Z) (v : Node.t) (m : list (Z * Node.t)) : list (Z * Node.t) :=
  match m with
  | [] => [(k, v)]
  | (k', v') :: rest =>
      if decide (k' = k) then (k, v) :: rest else (k', v') :: mapSet k v rest
  end.

Definition withChildren (node : Node.t) (cs : list Z) : Node.t :=
  Node.mk (Node.id node) (Node.callFrame node) (Node.hitCount node) (Some cs)
    (Node.parent node).

(** [Array.from(new Set(xs))]: the first occurrence of each element. *)
Definition dedup (xs : list Z) : list Z :=
  fold_left (fun seen x => if decide (x ∈ seen) then seen else seen ++ [x]) xs [].

(** First pass: [nodeMap.set(node.id, { ...node, children: [] })] *)
Definition rebuildPass1 (m : list (Z * Node.t)) (node : Node.t) : list (Z * Node.t) :=
  mapSet (Node.id node) (withChildren node []) m.

(** Second pass: the parent, when it is in the map, gets the node as a
    child unless it has it. *)
Definition rebuildPass2 (m : list (Z * Node.t)) (node : Node.t) : list (Z * Node.t) :=
  match Node.parent node with
  | Some p =>
      match mapGet p m with
      | Some parentNode =>
          let cs := default [] (Node.children parentNode) in
          if decide (Node.id node ∈ cs) then m
          else mapSet p (withChildren parentNode (cs ++ [Node.id node])) m
      | None => m
      end
  | None => m
  end.

(** Third pass: the children the node came with are merged in. *)
Definition rebuildPass3 (m : list (Z * Node.t)) (node : Node.t) : list (Z * Node.t) :=
  match mapGet (Node.id node) m, Node.children node with
  | Some rebuilt, Some (c :: cs) =>
      mapSet (Node.id node)
        (withChildren rebuilt (dedup (default [] (Node.children rebuilt) ++ c :: cs))) m
  | _, _ => m
  end.

Definition rebuildChildrenFromParent (ns : list Node.t) : list Node.t :=
  let m1 := fold_left rebuildPass1 ns [] in
  let m2 := fold_left rebuildPass2 ns m1 in
  let m3 := fold_left rebuildPass3 ns m2 in
  snd <$> m3.

(** ** [parseProfile]

    [parsed] is what [JSON.parse] makes of the text of the profile (after
    the file is read and a gzip stream is decompressed), [None] when it
    throws. *)
Definition parseProfile (parsed : option jsval) : outcome Profile.t :=
  match parsed with
  | None => Fail InvalidJSON
  | Some parsed0 =>
      parsed1 ← unwrapProfile parsed0;
      fields ← validateProfile parsed1;
      ns ← typed (mapM asNode fields.1.1);
      ss ← typed (mapM asNumber fields.1.2);
      ds ← typed (mapM asNumber fields.2);
      start ← typed (asNumber (jsOr (getOptional parsed1 "startTime") (JNum 0)));
      stop ← typed (asNumber (jsOr (getOptional parsed1 "endTime") (JNum 0)));
      Ok (Profile.mk start stop (rebuildChildrenFromParent ns) ss ds)
  end.

(** [convert] of [src/index.ts], up to the formatting of the result. *)
Definition parseAndAnalyze (parsed : option jsval) (options : AnalyzeOptions.t)
  : outcome AnalysisResult.t :=
  profile ← parseProfile parsed;
  analyzeProfile profile options.

(** ** The required sequences, as the specification words them *)

(** [lacks w f]: the working value has no sequence under the name [f]. *)
Definition lacks (w : jsval) (f : string) : Prop :=
  forall xs, getOptional w f <> JArr xs.

(** The first of the three required sequences that [w] lacks. *)
Definition firstLacking (w : jsval) (f : string) : Prop :=
  (f = "nodes" /\ lacks w "nodes")
  \/ (f = "samples" /\ ~ lacks w "nodes" /\ lacks w "samples")
  \/ (f = "timeDeltas" /\ ~ lacks w "nodes" /\ ~ lacks w "samples"
      /\ lacks w "timeDeltas").

(** ** Two serializations of one call tree

    A root [(root)] with one child [work], sampled once for 100
    microseconds: as the legacy nested records under [head], and as the
    flat node table with the same (pre-order) ids. *)
Module Legacy.
Definition frameFields (fn file : string) (ln : Z) : list (string * jsval) :=
  [("functionName", JStr fn); ("url", JStr file);
   ("lineNumber", JNum ln); ("columnNumber", JNum 0)].

Definition head : jsval :=
  JObj (frameFields "(root)" "" 0
        ++ [("children",
             JArr [JObj (frameFields "work" "file:///app/work.js" 10
                         ++ [("children", JArr [])])])]).

Definition nested : jsval :=
  JObj [("head", head); ("samples", JArr [JNum 2]); ("timeDeltas", JArr [JNum 100])].

Definition flatNode (i : Z) (fn file : string) (ln : Z) (kids : list Z)
    (parentField : list (string * jsval)) : jsval :=
  JObj ([("id", JNum i);
         ("callFrame", JObj (("scriptId", JStr "0") :: frameFields fn file ln));
         ("hitCount", JNum 0);
         ("children", JArr (JNum <$> kids))] ++ parentField).

Definition flat : jsval :=
  JObj [("nodes",
         JArr [flatNode 1 "(root)" "" 0 [2] [];
               flatNode 2 "work" "file:///app/work.js" 10 [] [("parent", JNum 1)]]);
        ("samples", JArr [JNum 2]); ("timeDeltas", JArr [JNum 100])].
End Legacy.

(** The node table of the sample profile, never sampled. *)
Module Idle.
Definition profile : Profile.t :=
  Profile.mk 1000 2000 (Profile.nodes Sample.profile) [] [].
End Idle.

(** ** Induction over trees whose children are a list *)

Fixpoint shape_tree_ind (P : shape -> Prop)
    (step : forall r ks, Forall P ks -> P (Shape r ks)) (s : shape) : P s :=
  match s with
  | Shape r ks =>
      step r ks ((fix all (l : list shape) : Forall P l :=
                    match l with
                    | [] => List.Forall_nil P
                    | k :: l' => List.Forall_cons P k l' (shape_tree_ind P step k) (all l')
                    end) ks)
  end.

Fixpoint callTree_ind' (P : CallTreeNode.t -> Prop)
    (step : forall n u l sT tT sP tP kids, Forall P kids ->
              P (CallTreeNode.mk n u l sT tT sP tP kids))
    (t : CallTreeNode.t) : P t :=
  match t with
  | CallTreeNode.mk n u l sT tT sP tP kids =>
      step n u l sT tT sP tP kids
        ((fix all (ks : list CallTreeNode.t) : Forall P ks :=
            match ks with
            | [] => List.Forall_nil P
            | k :: ks' => List.Forall_cons P k ks' (callTree_ind' P step k) (all ks')
            end) kids)
  end.

(** The self time of all function statistics, added up. *)
Definition sumStatsSelfTime (functionStats : list FunctionStats.t) : Z :=
  foldr (fun s acc => FunctionStats.selfTime s + acc) 0 functionStats.

(** ** Reference notions for the further properties of Part III *)

(** The time deltas of the samples that name the node [k], and the number
    of those samples. *)
Definition sampledDeltas (k : Z) (ss ds : list Z) : list Z :=
  snd <$> filter (fun sd => sd.1 = k) (zip ss ds).

Definition occurrences (k : Z) (ss : list Z) : Z :=
  Z.of_nat (length (filter (fun s => s = k) ss)).

(** The key of the function a node belongs to, the nodes of one function,
    and the distinct elements of a list in the order of their first
    occurrence. *)
Definition nodeKey (node : Node.t) : string := functionKey (Node.callFrame node).

Definition nodesOfKey (k : string) (ns : list Node.t) : list Node.t :=
  filter (fun node => nodeKey node = k) ns.

Definition firstSeen (ks : list string) : list string :=
  fold_left (fun set k => setAdd k set) ks [].

(** [grouped ... ns s]: the record [s] adds up the nodes of [ns] that have
    its key, and describes the first of them. *)
Definition grouped (selfTimeMap totalTimeMap hitCountMap : gmap Z Z)
    (nodeMap : gmap Z Node.t) (ns : list Node.t) (s : FunctionStats.t) : Prop :=
  let group := nodesOfKey (FunctionStats.key s) ns in
  FunctionStats.selfTime s = sumTotals selfTimeMap (Node.id <$> group)
  /\ FunctionStats.totalTime s = sumTotals totalTimeMap (Node.id <$> group)
  /\ FunctionStats.hitCount s = sumTotals hitCountMap (Node.id <$> group)
  /\ FunctionStats.callers s = firstSeen (concat (callerKeys nodeMap <$> group))
  /\ FunctionStats.callees s = firstSeen (concat (calleeKeys nodeMap <$> group))
  /\ exists first, head group = Some first
       /\ FunctionStats.name s = CallFrame.functionName (Node.callFrame first)
       /\ FunctionStats.url s = CallFrame.url (Node.callFrame first)
       /\ FunctionStats.line s = CallFrame.lineNumber (Node.callFrame first)
       /\ FunctionStats.column s = CallFrame.columnNumber (Node.callFrame first).

Definition sumStatsHitCount (functionStats : list FunctionStats.t) : Z :=
  foldr (fun s acc => FunctionStats.hitCount s + acc) 0 functionStats.

Definition sumStatsSelfPercent (functionStats : list FunctionStats.t) : Q :=
  foldr (fun s acc => (FunctionStats.selfPercent s + acc)%Q) 0%Q functionStats.

(** The ids of the nodes of [ns] that name [p] as their parent, in the
    order of the table; and a node with the children the reconstruction is
    to give it: those, followed by the children it came with. *)
Definition declaredChildren (ns : list Node.t) (p : Z) : list Z :=
  Node.id <$> filter (fun node => Node.parent node = Some p) ns.

Definition reconciled (ns : list Node.t) (node : Node.t) : Node.t :=
  withChildren node
    (dedup (declaredChildren ns (Node.id node) ++ default [] (Node.children node))).

(** A map of the reconstruction whose values are the nodes of [l], each
    with the children [c] gives its id; and the three passes as they act on
    [c]. *)
Definition childrenTable (c : Z -> list Z) (l : list Node.t) : list (Z * Node.t) :=
  (fun node => (Node.id node, withChildren node (c (Node.id node)))) <$> l.

Definition setChildren (c : Z -> list Z) (k : Z) (cs : list Z) : Z -> list Z :=
  fun x => if decide (x = k) then cs else c x.

Definition addSeen (seen : list Z) (x : Z) : list Z :=
  if decide (x ∈ seen) then seen else seen ++ [x].

Definition declare (c : Z -> list Z) (node : Node.t) : Z -> list Z :=
  match Node.parent node with
  | Some p => setChildren c p (addSeen (c p) (Node.id node))
  | None => c
  end.

Definition mergeOwn (node : Node.t) (rebuilt : list Z) : list Z :=
  match Node.children node with
  | Some (x :: xs) => dedup (rebuilt ++ x :: xs)
  | _ => rebuilt
  end.

Definition merge (c : Z -> list Z) (node : Node.t) : Z -> list Z :=
  match Node.children node with
  | Some (x :: xs) => setChildren c (Node.id node) (mergeOwn node (c (Node.id node)))
  | _ => c
  end.

(** Every value of the map has the id it is stored under, and a
    duplicate-free array of children. *)
Definition rebuilt_wf (m : list (Z * Node.t)) : Prop :=
  forall k v, (k, v) ∈ m ->
    Node.id v = k /\ exists cs, Node.children v = Some cs /\ NoDup cs.


(** A table whose nodes carry parent pointers only, the child first. *)
Module ParentOnly.
Definition child : Node.t :=
  Node.mk 2 (Sample.frame "work" "file:///app/work.js" 10) None None (Some 1).
Definition root : Node.t := Node.mk 1 (Sample.frame "(root)" "" 0) None None None.
Definition nodes : list Node.t := [child; root].
End ParentOnly.

(** ** Reference notions for call trees *)

(** At every node of the tree the children are in descending order of
    total time. *)
Inductive childrenSorted : CallTreeNode.t -> Prop :=
  | childrenSorted_node t :
      StronglySorted
        (fun a b => CallTreeNode.totalTime b <= CallTreeNode.totalTime a)
        (CallTreeNode.children t) ->
      Forall childrenSorted (CallTreeNode.children t) ->
      childrenSorted t.

(** All nodes of a call tree, the root first. *)
Fixpoint treeNodes (t : CallTreeNode.t) : list CallTreeNode.t :=
  match t with
  | CallTreeNode.mk _ _ _ _ _ _ _ kids => t :: flat_map treeNodes kids
  end.

Definition sumChildTotals (t : CallTreeNode.t) : Z :=
  foldr Z.add 0 (CallTreeNode.totalTime <$> CallTreeNode.children t).

(** What a node of the call tree shows, and what a node of the table
    gives for it. *)
Definition treeNodeData (t : CallTreeNode.t) : string * string * Z * Z * Z :=
  (CallTreeNode.name t, CallTreeNode.url t, CallTreeNode.line t,
   CallTreeNode.selfTime t, CallTreeNode.totalTime t).

Definition tableNodeData (selfTimeMap totalTimeMap : gmap Z Z) (node : Node.t)
  : string * string * Z * Z * Z :=
  (CallFrame.functionName (Node.callFrame node), CallFrame.url (Node.callFrame node),
   CallFrame.lineNumber (Node.callFrame node),
   getOr0 selfTimeMap (Node.id node), getOr0 totalTimeMap (Node.id node)).

(** What the table gives for the node id [i]. *)
Definition tableDataAt (nodeMap : gmap Z Node.t) (selfTimeMap totalTimeMap : gmap Z Z)
    (i : Z) : string * string * Z * Z * Z :=
  from_option (tableNodeData selfTimeMap totalTimeMap)
    (EmptyString, EmptyString, 0, 0, 0) (nodeMap !! i).

(** A table in which two nodes share a child: 1 -> 2, 3 and 2 -> 4, 3 -> 4. *)
Module Diamond.
Definition node (i : Z) (kids : list Z) : Node.t :=
  Node.mk i (Sample.frame "f" "a.js" i) None (Some kids) None.
Definition nodes : list Node.t := [node 1 [2; 3]; node 2 [4]; node 3 [4]; node 4 []].
Definition selfTimeMap : gmap Z Z := {[2 := 1; 3 := 2; 4 := 5]}.
End Diamond.

(** ** Reference notions for the linearization of a [head] tree *)

(** A record of the linearization: the id it was given, the nested record
    it was made from, the id of its parent and the ids of its children. *)
Module LinearRecord.
Record t := mk {
  id : Z;
  source : jsval;
  parent : option Z;
  kids : list Z;
}.
End LinearRecord.

Definition recordJson (r : LinearRecord.t) : jsval :=
  cpuNodeOf (LinearRecord.id r) (LinearRecord.source r)
    (LinearRecord.parent r) (LinearRecord.kids r).

(** The ids of pre-order numbering: children have greater ids (below
    [hi]), the parent a smaller one. *)
Definition preOrdered (hi : Z) (r : LinearRecord.t) : Prop :=
  Forall (fun k => LinearRecord.id r < k < hi) (LinearRecord.kids r)
  /\ forall q, LinearRecord.parent r = Some q -> q < LinearRecord.id r.

(** [r] is listed as a child by the record of its parent [q]. *)
Definition listedByParent (recs : list LinearRecord.t) (r : LinearRecord.t) (q : Z)
  : Prop :=
  exists rq, rq ∈ recs /\ LinearRecord.id rq = q
    /\ LinearRecord.id r ∈ LinearRecord.kids rq.

(** What the calls of [traverse] for the children of the record [pid] add
    to the array, from the counter [next] on; [ids] are the ids they
    return. *)
Definition linearizedKids (next next' pid : Z) (ids : list Z)
    (recs : list LinearRecord.t) : Prop :=
  next' = next + Z.of_nat (length recs)
  /\ LinearRecord.id <$> recs ≡ₚ seqZ next (Z.of_nat (length recs))
  /\ Forall (preOrdered next') recs
  /\ (forall r q, r ∈ recs -> LinearRecord.parent r = Some q ->
        (q = pid /\ LinearRecord.id r ∈ ids) \/ listedByParent recs r q)
  /\ Forall (fun k => next <= k < next') ids
  /\ (recs = [] -> ids = [])
  /\ (recs <> [] -> exists r0, head recs = Some r0 /\ LinearRecord.kids r0 = []).

(** What one call of [traverse] adds. *)
Definition linearized (next next' : Z) (node : jsval) (parentId : option Z)
    (recs : list LinearRecord.t) : Prop :=
  next' = next + Z.of_nat (length recs)
  /\ LinearRecord.id <$> recs ≡ₚ seqZ next (Z.of_nat (length recs))
  /\ Forall (preOrdered next') recs
  /\ (forall r q, r ∈ recs -> LinearRecord.parent r = Some q ->
        (parentId = Some q /\ LinearRecord.id r = next) \/ listedByParent recs r q)
  /\ (exists r0, head recs = Some r0 /\ LinearRecord.kids r0 = [])
  /\ (exists kids, last recs = Some (LinearRecord.mk next node parentId kids)).

(** ** Reference notions for trace-event containers *)

(** An event that [find] passes over, one that it stops at, and the value
    that replaces the container then. *)
Definition plainEvent (event : jsval) : Prop :=
  exists name, getField event "name" = Ok name
    /\ strictEqString name "CpuProfile" = false
    /\ truthy (embeddedProfile event) = false.

Definition profileEvent (event : jsval) : Prop :=
  exists name, getField event "name" = Ok name
    /\ (strictEqString name "CpuProfile" || truthy (embeddedProfile event)) = true.

Definition eventPayload (event : jsval) : jsval :=
  jsOr (embeddedProfile event) (embeddedData event).

(** [container] holds the events [events]: it is the array of them, or an
    object that has them as [traceEvents]. *)
Definition holdsEvents (container : jsval) (events : list jsval) : Prop :=
  container = JArr events
  \/ exists fields, container = JObj fields /\ assoc "traceEvents" fields = JArr events.

(** A trace with a metadata event and a [CpuProfile] event that embeds the
    flat profile of [Legacy]. *)
Module Trace.
Definition metadata : jsval :=
  JObj [("name", JStr "TracingStartedInBrowser"); ("args", JObj [])].
Definition event : jsval :=
  JObj [("name", JStr "CpuProfile");
        ("args", JObj [("data", JObj [("cpuProfile", Legacy.flat)])])].
Definition container : jsval := JObj [("traceEvents", JArr [metadata; event])].
End Trace.

(** ** The name the report shows for a caller or a callee

    [key.split('@')[0]] of [src/formatter/adaptive.ts]: the part of the key
    before the first [@]. *)
Fixpoint firstPart (sep : ascii) (s : string) : string :=
  match s with
  | EmptyString => EmptyString
  | String c rest => if decide (c = sep) then EmptyString else String c (firstPart sep rest)
  end.

Definition callerName (key : string) : string := firstPart "@" key.

(** ** A profile written as JSON, in the flat format

    The fields are those the interface [V8CpuProfile] declares; an optional
    field that the node does not have is left out. *)
Definition optionalField (k : string) (v : option jsval) : list (string * jsval) :=
  match v with
  | Some x => [(k, x)]
  | None => []
  end.

Definition callFrameJson (cf : CallFrame.t) : jsval :=
  JObj [("functionName", JStr (CallFrame.functionName cf));
        ("scriptId", JStr (CallFrame.scriptId cf));
        ("url", JStr (CallFrame.url cf));
        ("lineNumber", JNum (CallFrame.lineNumber cf));
        ("columnNumber", JNum (CallFrame.columnNumber cf))].

Definition nodeJson (node : Node.t) : jsval :=
  JObj ([("id", JNum (Node.id node));
         ("callFrame", callFrameJson (Node.callFrame node))]
        ++ optionalField "hitCount" (JNum <$> Node.hitCount node)
        ++ optionalField "children"
             ((fun cs => JArr (JNum <$> cs)) <$> Node.children node)
        ++ optionalField "parent" (JNum <$> Node.parent node)).

Definition profileJson (p : Profile.t) : jsval :=
  JObj [("nodes", JArr (nodeJson <$> Profile.nodes p));
        ("startTime", JNum (Profile.startTime p));
        ("endTime", JNum (Profile.endTime p));
        ("samples", JArr (JNum <$> Profile.samples p));
        ("timeDeltas", JArr (JNum <$> Profile.timeDeltas p))].

(** ** What the analysis reads of a node

    A node without the hit count of its record and the script id of its
    call frame, and a profile with such nodes. *)
Definition essentials (node : Node.t) : Node.t :=
  Node.mk (Node.id node)
    (CallFrame.mk (CallFrame.functionName (Node.callFrame node)) ""
       (CallFrame.url (Node.callFrame node))
       (CallFrame.lineNumber (Node.callFrame node))
       (CallFrame.columnNumber (Node.callFrame node)))
    None (Node.children node) (Node.parent node).

Definition essentialProfile (p : Profile.t) : Profile.t :=
  Profile.mk (Profile.startTime p) (Profile.endTime p)
    (essentials <$> Profile.nodes p) (Profile.samples p) (Profile.timeDeltas p).

(** The self% of the nodes of a list, added up. *)
Definition sumSelfPercents (l : list CallTreeNode.t) : Q :=
  foldr (fun u acc => (CallTreeNode.selfPercent u + acc)%Q) 0%Q l.

(** ** The shares the summary reports

    [generateObservations] of [src/formatter/summary.ts]: the self time of
    the hotspots of one type, added up (lines 108-113), and the self% of
    the first three hotspots (lines 145-147). *)
Definition isType (ty : HotspotType) (h : Hotspot.t) : bool :=
  match Hotspot.type h, ty with
  | native, native | app, app | unknown, unknown => true
  | _, _ => false
  end.

(** [hotspots.filter((h) => h.type === ty).reduce((sum, h) => sum + h.selfTime, 0)] *)
Definition typeTime (ty : HotspotType) (hotspots : list Hotspot.t) : Z :=
  fold_left (fun sum h => sum + Hotspot.selfTime h) (List.filter (isType ty) hotspots) 0.

Definition nativeTime (hotspots : list Hotspot.t) : Z := typeTime native hotspots.
Definition appTime (hotspots : list Hotspot.t) : Z := typeTime app hotspots.

(** [hotspots.slice(0, 3).reduce((sum, h) => sum + h.selfPercent, 0)] *)
Definition topThreePercent (hotspots : list Hotspot.t) : Q :=
  fold_left (fun sum h => (sum + Hotspot.selfPercent h)%Q) (jsSlice0 3 hotspots) 0%Q.

(** ** [escapeMarkdown] of [src/formatter/utils.ts]

    [s.replace(/c/g, '\\c')] for one character [c] of the ASCII range.  (A
    string is its sequence of code units; such a character is one unit, in
    UTF-16 as in UTF-8, and is part of no other character.) *)
Fixpoint escapeChar (c : ascii) (s : string) : string :=
  match s with
  | EmptyString => EmptyString
  | String x rest =>
      if Ascii.eqb x c then String "\" (String c (escapeChar c rest))
      else String x (escapeChar c rest)
  end.

Definition escapeMarkdown (s : string) : string :=
  escapeChar "]" (escapeChar "[" (escapeChar "_" (escapeChar "*"
    (escapeChar "`" (escapeChar "|" s))))).

(** One pass that puts a backslash before every character that [special]
    holds of, and the pass that takes those backslashes away. *)
Fixpoint escapeWhere (special : ascii -> bool) (s : string) : string :=
  match s with
  | EmptyString => EmptyString
  | String x rest =>
      if special x then String "\" (String x (escapeWhere special rest))
      else String x (escapeWhere special rest)
  end.

Definition markdownSpecial (x : ascii) : bool :=
  Ascii.eqb x "|" || Ascii.eqb x "`" || Ascii.eqb x "*" || Ascii.eqb x "_"
  || Ascii.eqb x "[" || Ascii.eqb x "]".

Fixpoint unescapeWhere (special : ascii -> bool) (s : string) : string :=
  match s with
  | EmptyString => EmptyString
  | String x rest =>
      match rest with
      | String y rest' =>
          if Ascii.eqb x "\" && special y then String y (unescapeWhere special rest')
          else String x (unescapeWhere special rest)
      | EmptyString => String x EmptyString
      end
  end.

(** ** The hotspot marker of the detailed report

    [renderCallTree] of [src/formatter/detailed.ts], lines 119-121: the key
    it looks a node of the call tree up with, and the test
    [hotspotKeys.has(nodeKey)] on the keys of the hotspots. *)
Definition renderKey (node : CallTreeNode.t) : string :=
  CallTreeNode.name node +:+ "@" +:+ CallTreeNode.url node +:+ ":" +:+
  showZ (CallTreeNode.line node) +:+ ":0".

Definition isHotspotNode (hotspots : list Hotspot.t) (node : CallTreeNode.t) : bool :=
  bool_decide (renderKey node ∈ (Hotspot.key <$> hotspots)).

(** The part of a string after its last colon. *)
Fixpoint hasColon (s : string) : bool :=
  match s with
  | EmptyString => false
  | String c rest => Ascii.eqb c ":" || hasColon rest
  end.

Fixpoint lastPart (s : string) : string :=
  match s with
  | EmptyString => EmptyString
  | String c rest =>
      if hasColon rest then lastPart rest
      else if Ascii.eqb c ":" then rest else s
  end.

(** A table with call frames at a column other than zero. *)
Module Columns.
Definition nodes : list Node.t :=
  [Node.mk 1 (CallFrame.mk "(root)" "0" "" 0 1) None (Some [2]) None;
   Node.mk 2 (CallFrame.mk "work" "7" "file:///app/work.js" 10 17) None (Some []) (Some 1)].
Definition profile : Profile.t := Profile.mk 0 0 nodes [2] [100].
End Columns.

(** * Part II: lemmas and theorems *)

(** ** Facts about the sample loop *)


Section SelfTime.

Lemma sumDeltas_acc (deltas : list Z) (a : Z) :
fold_left (fun sum delta => sum + delta) deltas a = a + sumDeltas deltas.
Proof.
unfold sumDeltas. revert a.
induction deltas as [|d ds IH]; intros a; simpl; [lia|].
rewrite (IH (a + d)), (IH (0 + d)). lia.
Qed.

Lemma sumDeltas_cons (d : Z) (ds : list Z) :
sumDeltas (d :: ds) = d + sumDeltas ds.
Proof. unfold sumDeltas at 1. simpl. apply sumDeltas_acc. Qed.

Lemma sumDeltas_drop (deltas : list Z) (i : nat) (d : Z) :
deltas !! i = Some d ->
sumDeltas (drop i deltas) = d + sumDeltas (drop (S i) deltas).
Proof.
revert i. induction deltas as [|x xs IH]; intros [|i] H; simpl in *; try done.
- injection H as ->. rewrite drop_0. apply sumDeltas_cons.
- by apply IH.
Qed.

Lemma sumTotals_insert_notin (m : gmap Z Z) k v cs :
k ∉ cs -> sumTotals (<[k := v]> m) cs = sumTotals m cs.
Proof.
induction cs as [|c cs IH]; intros Hk; simpl; [done|].
apply not_elem_of_cons in Hk as [Hne Hk]. rewrite IH by done.
unfold getOr0. by rewrite lookup_insert_ne.
Qed.

Lemma sumTotals_insert (m : gmap Z Z) (k d : Z) cs :
NoDup cs -> k ∈ cs ->
sumTotals (<[k := getOr0 m k + d]> m) cs = sumTotals m cs + d.
Proof.
induction cs as [|c cs IH]; simpl; intros Hnd Hk.
- by apply elem_of_nil in Hk.
- apply NoDup_cons in Hnd as [Hn Hnd].
  destruct (decide (k = c)) as [->|Hne].
  + rewrite sumTotals_insert_notin by done.
    unfold getOr0 at 1. rewrite lookup_insert_eq. simpl. lia.
  + apply elem_of_cons in Hk as [?|Hk]; [done|].
    rewrite IH by done. unfold getOr0 at 1.
    rewrite lookup_insert_ne by done. fold (getOr0 m c). lia.
Qed.

Lemma sumTotals_empty xs : sumTotals ∅ xs = 0.
Proof.
induction xs as [|x xs IH]; simpl; [done|].
rewrite IH. unfold getOr0. rewrite lookup_empty. simpl. lia.
Qed.

Lemma sumTotals_app (m : gmap Z Z) xs ys :
sumTotals m (xs ++ ys) = sumTotals m xs + sumTotals m ys.
Proof. induction xs as [|x xs IH]; simpl; [done|]. rewrite IH. lia. Qed.

Lemma sumTotals_perm (m : gmap Z Z) xs ys :
xs ≡ₚ ys -> sumTotals m xs = sumTotals m ys.
Proof. induction 1; simpl; lia. Qed.

Lemma sumTotals_nonneg (m : gmap Z Z) xs :
(forall x, 0 <= getOr0 m x) -> 0 <= sumTotals m xs.
Proof. intros H. induction xs as [|x xs IH]; simpl; [done|]. specialize (H x). lia. Qed.

Lemma sampleLoop_total ss : forall i deltas st,
(i + length ss = length deltas)%nat ->
exists st', sampleLoop ss i deltas st = Ok st'.
Proof.
induction ss as [|s ss IH]; intros i deltas st Hlen; simpl; [by eexists|].
simpl in Hlen.
destruct (lookup_lt_is_Some_2 deltas i) as [d Hd]; [lia|].
rewrite Hd. apply IH. lia.
Qed.

Lemma sampleLoop_sum ns ss : forall i deltas st st',
NoDup (Node.id <$> ns) ->
Forall (fun s => s ∈ (Node.id <$> ns)) ss ->
(i + length ss = length deltas)%nat ->
sampleLoop ss i deltas st = Ok st' ->
sumSelfTime st'.1 ns = sumSelfTime st.1 ns + sumDeltas (drop i deltas).
Proof.
induction ss as [|s ss IH]; intros i deltas st st' Hnd Hin Hlen Hrun; simpl in *.
- injection Hrun as <-. rewrite drop_ge by lia. unfold sumDeltas; simpl. lia.
- destruct (deltas !! i) as [d|] eqn:Hd; [|done].
  apply Forall_cons in Hin as [Hs Hin].
  assert (Hlen' : (S i + length ss = length deltas)%nat) by lia.
  rewrite (IH _ _ _ _ Hnd Hin Hlen' Hrun). simpl.
  unfold sumSelfTime. rewrite sumTotals_insert by done.
  rewrite (sumDeltas_drop _ _ _ Hd). lia.
Qed.

End SelfTime.

(** ** The total-time traversal: termination *)

Section TotalTimeTermination.
Context (G : gmap Z Node.t) (self : gmap Z Z).

Local Abbreviation unvisited st := (size (dom G ∖ TotalTime.visited st)).

Lemma unvisited_mono (st st' : TotalTime.state) :
  TotalTime.visited st ⊆ TotalTime.visited st' ->
  (unvisited st' <= unvisited st)%nat.
Proof. intros H. apply subseteq_size. set_solver. Qed.

Lemma unvisited_visit (nodeId : Z) (st : TotalTime.state) :
  nodeId ∈ dom G -> nodeId ∉ TotalTime.visited st ->
  (unvisited (TotalTime.visit nodeId st) < unvisited st)%nat.
Proof.
  intros HG Hv. apply subset_size. simpl.
  apply strict_spec_alt. split; [set_solver|].
  intros Heq. assert (nodeId ∈ dom G ∖ TotalTime.visited st) as Hin by set_solver.
  rewrite <- Heq in Hin. set_solver.
Qed.

Lemma sumChildren_some rec (bound : nat) :
  (forall c st, (unvisited st < bound)%nat ->
     exists r st', rec c st = Some (r, st')
                   /\ TotalTime.visited st ⊆ TotalTime.visited st') ->
  forall cs total st, (unvisited st < bound)%nat ->
    exists r st', sumChildren rec cs total st = Some (r, st')
                  /\ TotalTime.visited st ⊆ TotalTime.visited st'.
Proof.
  intros Hrec cs. induction cs as [|c cs IH]; intros total st Hb; simpl.
  - by exists total, st.
  - destruct (Hrec c st Hb) as (t & st1 & -> & Hsub).
    destruct (IH (total + t) st1) as (r & st' & Hrun & Hsub').
    + pose proof (unvisited_mono _ _ Hsub). lia.
    + exists r, st'. split; [done|]. set_solver.
Qed.

Lemma computeNodeTotalTime_fuel (fuel : nat) : forall nodeId st,
  (unvisited st < fuel)%nat ->
  exists r st', computeNodeTotalTime G self fuel nodeId st = Some (r, st')
                /\ TotalTime.visited st ⊆ TotalTime.visited st'.
Proof.
  induction fuel as [|fuel IH]; intros nodeId st Hb; [lia|]. simpl.
  destruct (decide (nodeId ∈ TotalTime.visited st)) as [Hv|Hv].
  - by eexists _, st.
  - destruct (G !! nodeId) as [node|] eqn:HG.
    + assert (nodeId ∈ dom G) as Hd by (apply elem_of_dom; eauto).
      pose proof (unvisited_visit _ _ Hd Hv) as Hlt.
      destruct (sumChildren_some (computeNodeTotalTime G self fuel) fuel IH
                  (default [] (Node.children node)) (getOr0 self nodeId)
                  (TotalTime.visit nodeId st)) as (r & st2 & -> & Hsub); [lia|].
      eexists _, _. split; [done|]. simpl in *. set_solver.
    + eexists _, _. split; [done|]. simpl. set_solver.
Qed.

Lemma totalTimeLoop_some (fuel : nat) ns : forall st,
  (size G < fuel)%nat ->
  is_Some (totalTimeLoop G self fuel ns st).
Proof.
  induction ns as [|n ns IH]; intros st Hb; simpl; [by eexists|].
  destruct (computeNodeTotalTime_fuel fuel (Node.id n) st) as (r & st' & -> & _).
  - rewrite <- size_dom in Hb.
    assert (unvisited st <= size (dom G))%nat by (apply subseteq_size; set_solver).
    lia.
  - by apply IH.
Qed.
End TotalTimeTermination.

(** ** The total-time traversal: what a call changes *)

Section TotalTimeFrame.
Context (G : gmap Z Node.t) (self : gmap Z Z).

Lemma extends_refl st : extends G st st.
Proof. split; [done|]. split; [auto|]. split; [done|auto]. Qed.

Lemma extends_trans st1 st2 st3 :
  extends G st1 st2 -> extends G st2 st3 -> extends G st1 st3.
Proof.
  intros (Hv1 & Hm1 & Hn1 & Hd1) (Hv2 & Hm2 & Hn2 & Hd2).
  split; [set_solver|]. split; [auto|]. split.
  - intros x Hx3 Hx1 HG.
    destruct (decide (x ∈ TotalTime.visited st2)) as [Hx2|Hx2]; [|auto].
    destruct (proj1 (elem_of_dom _ _) (Hn1 x Hx2 Hx1 HG)) as [t Ht].
    apply elem_of_dom. eauto.
  - intros x Hx. destruct (Hd2 x Hx) as [H|H]; [auto|].
    right. set_solver.
Qed.

Lemma memo_wf_visit nodeId st :
  memo_wf G st -> memo_wf G (TotalTime.visit nodeId st).
Proof.
  intros (H1 & H2 & H3). split; [|split]; simpl; auto.
  intros x Hx. destruct (H1 x Hx). split; [set_solver|done].
Qed.

Lemma sumChildren_extends rec :
  (forall c st r st', memo_wf G st -> rec c st = Some (r, st') ->
     memo_wf G st' /\ extends G st st' /\ c ∈ TotalTime.visited st') ->
  forall cs total st r st', memo_wf G st ->
    sumChildren rec cs total st = Some (r, st') ->
    memo_wf G st' /\ extends G st st'
    /\ forall c, c ∈ cs -> c ∈ TotalTime.visited st'.
Proof.
  intros Hrec cs. induction cs as [|c cs IH]; intros total st r st' Hwf Hrun;
    simpl in Hrun.
  - injection Hrun as <- <-. split; [done|]. split; [apply extends_refl|].
    intros c Hc. by apply elem_of_nil in Hc.
  - destruct (rec c st) as [[t st1]|] eqn:Hc; [|done].
    destruct (Hrec _ _ _ _ Hwf Hc) as (Hwf1 & Hext1 & Hin1).
    destruct (IH _ _ _ _ Hwf1 Hrun) as (Hwf' & Hext' & Hin').
    split; [done|]. split; [by eapply extends_trans|].
    intros c' Hc'. apply elem_of_cons in Hc' as [->|Hc']; [|auto].
    destruct Hext' as (Hv & _). set_solver.
Qed.

Lemma computeNodeTotalTime_extends (fuel : nat) : forall nodeId st r st',
  memo_wf G st ->
  computeNodeTotalTime G self fuel nodeId st = Some (r, st') ->
  memo_wf G st' /\ extends G st st' /\ nodeId ∈ TotalTime.visited st'.
Proof.
  induction fuel as [|fuel IH]; intros nodeId st r st' Hwf Hrun; [done|].
  simpl in Hrun.
  destruct (decide (nodeId ∈ TotalTime.visited st)) as [Hv|Hv].
  { injection Hrun as <- <-. split; [done|]. split; [apply extends_refl|done]. }
  destruct (G !! nodeId) as [node|] eqn:HG.
  - destruct (sumChildren _ _ _ _) as [[total' st2]|] eqn:Hkids; [|done].
    injection Hrun as <- <-.
    destruct (sumChildren_extends _ IH _ _ _ _ _ (memo_wf_visit nodeId _ Hwf) Hkids)
      as (Hwf2 & (Hv2 & Hm2 & Hn2 & Hd2) & Hin2).
    destruct Hwf as (Hw1 & Hw2 & Hw3). destruct Hwf2 as (Hx1 & Hx2 & Hx3).
    simpl in *.
    assert (nodeId ∉ dom (TotalTime.totalTimeMap st2)) as Hfresh.
    { intros Hin. destruct (Hd2 _ Hin) as [H|H].
      - apply Hw1 in H as [H _]. done.
      - set_solver. }
    assert (nodeId ∈ TotalTime.visited st2) as Hvis by set_solver.
    split; [|split; [|done]].
    + split; [|split]; simpl.
      * intros x H. apply elem_of_dom in H.
        destruct (decide (x = nodeId)) as [->|Hne].
        { split; [done|]. apply elem_of_dom. eauto. }
        rewrite lookup_insert_ne in H by done. apply (Hx1 x). by apply elem_of_dom.
      * apply NoDup_cons. split; [|done]. by rewrite Hx3.
      * intros x. rewrite dom_insert, elem_of_cons, elem_of_union, elem_of_singleton.
        by rewrite Hx3.
    + split; [|split; [|split]]; simpl.
      * set_solver.
      * intros x t Hx. rewrite lookup_insert_ne; [auto|].
        intros <-. apply Hfresh. apply elem_of_dom. eauto.
      * intros x Hx Hnx HxG. rewrite dom_insert.
        destruct (decide (x = nodeId)) as [->|Hne]; [set_solver|].
        apply elem_of_union. right. apply Hn2; auto. set_solver.
      * intros x Hx. rewrite dom_insert in Hx.
        apply elem_of_union in Hx as [Hx|Hx].
        { apply elem_of_singleton in Hx as ->. by right. }
        destruct (Hd2 x Hx) as [H|H]; [by left|]. right. set_solver.
  - injection Hrun as <- <-. split; [by apply memo_wf_visit|]. split.
    + split; [|split; [|split]]; simpl; auto.
      * set_solver.
      * intros x Hx Hnx HxG. assert (x = nodeId) as -> by set_solver.
        apply elem_of_dom in HxG as [? ?]. congruence.
    + simpl. set_solver.
Qed.
Lemma all_done_extends st st' :
  extends G st st' -> all_done G st -> all_done G st'.
Proof.
  intros (Hv & Hm & Hn & Hd) Hall x Hx HG.
  destruct (decide (x ∈ TotalTime.visited st)) as [Hxv|Hxv]; [|auto].
  destruct (proj1 (elem_of_dom _ _) (Hall x Hxv HG)) as [t Ht].
  apply elem_of_dom. eauto.
Qed.

Lemma totalTimeLoop_extends (fuel : nat) ns : forall st st',
  memo_wf G st ->
  totalTimeLoop G self fuel ns st = Some st' ->
  memo_wf G st' /\ extends G st st'
  /\ forall n, n ∈ ns -> Node.id n ∈ TotalTime.visited st'.
Proof.
  induction ns as [|n ns IH]; intros st st' Hwf Hrun; simpl in Hrun.
  - injection Hrun as <-. split; [done|]. split; [apply extends_refl|].
    intros n Hn. by apply elem_of_nil in Hn.
  - destruct (computeNodeTotalTime _ _ _ _ _) as [[r st1]|] eqn:Hcall; [|done].
    destruct (computeNodeTotalTime_extends _ _ _ _ _ Hwf Hcall) as (Hwf1 & Hext1 & Hin1).
    destruct (IH _ _ Hwf1 Hrun) as (Hwf' & Hext' & Hin').
    split; [done|]. split; [by eapply extends_trans|].
    intros n' Hn'. apply elem_of_cons in Hn' as [->|Hn']; [|auto].
    destruct Hext' as (Hv & _). set_solver.
Qed.

Lemma memo_wf_init : memo_wf G TotalTime.init.
Proof.
  split; [|split]; simpl.
  - intros x Hx. rewrite dom_empty in Hx. set_solver.
  - constructor.
  - intros x. rewrite dom_empty. set_solver.
Qed.

Lemma all_done_init : all_done G TotalTime.init.
Proof. intros x Hx. simpl in Hx. set_solver. Qed.
End TotalTimeFrame.

(** ** The total-time traversal on a table without cycles *)

Section TotalTimeSums.
Context (G : gmap Z Node.t) (self : gmap Z Z) (Hacyclic : acyclic G).

Lemma edge_irrefl x : ~ edge G x x.
Proof. intros H. apply (Hacyclic x). by apply tc_once. Qed.

Lemma getOr0_extends st st' c :
  memo_wf G st' -> extends G st st' ->
  (c ∈ dom G -> c ∈ dom (TotalTime.totalTimeMap st)) ->
  getOr0 (TotalTime.totalTimeMap st') c = getOr0 (TotalTime.totalTimeMap st) c.
Proof.
  intros (Hw1 & _) (_ & Hm & _ & _) Hdone. unfold getOr0.
  destruct (TotalTime.totalTimeMap st !! c) as [t|] eqn:Hc.
  - by rewrite (Hm _ _ Hc).
  - destruct (TotalTime.totalTimeMap st' !! c) as [t'|] eqn:Hc'; [|done].
    assert (c ∈ dom G) as HG by (apply (Hw1 c), elem_of_dom; eauto).
    apply Hdone, elem_of_dom in HG as [? ?]. congruence.
Qed.

Lemma sumTotals_extends st st' cs :
  memo_wf G st' -> extends G st st' ->
  (forall c, c ∈ cs -> c ∈ dom G -> c ∈ dom (TotalTime.totalTimeMap st)) ->
  sumTotals (TotalTime.totalTimeMap st') cs = sumTotals (TotalTime.totalTimeMap st) cs.
Proof.
  intros Hwf Hext. induction cs as [|c cs IH]; intros Hdone; simpl; [done|].
  rewrite (getOr0_extends st st') by (auto; apply Hdone; set_solver).
  rewrite IH; [done|]. intros c' Hc'. apply Hdone. set_solver.
Qed.

Lemma below_done_extends st st' c :
  extends G st st' -> below_done G c st -> below_done G c st'.
Proof.
  intros (Hv & Hm & Hn & Hd) Hbelow x Hreach Hx HG.
  destruct (decide (x ∈ TotalTime.visited st)) as [Hxv|Hxv]; [|auto].
  destruct (proj1 (elem_of_dom _ _) (Hbelow x Hreach Hxv HG)) as [t Ht].
  apply elem_of_dom. eauto.
Qed.

Lemma memo_sums_visit nodeId st :
  memo_sums G self st -> memo_sums G self (TotalTime.visit nodeId st).
Proof.
  intros Hs x t node Hx HG. destruct (Hs x t node Hx HG) as [Heq Hkids].
  split; [done|]. intros c Hc. destruct (Hkids c Hc). simpl. split; [set_solver|done].
Qed.

Lemma sumChildren_sums rec :
  (forall c st r st', memo_wf G st -> rec c st = Some (r, st') ->
     memo_wf G st' /\ extends G st st' /\ c ∈ TotalTime.visited st') ->
  (forall c st r st', memo_wf G st -> memo_sums G self st -> below_done G c st ->
     rec c st = Some (r, st') ->
     memo_sums G self st' /\ r = getOr0 (TotalTime.totalTimeMap st') c
     /\ (c ∈ dom G -> c ∈ dom (TotalTime.totalTimeMap st'))) ->
  forall cs total st r st', memo_wf G st -> memo_sums G self st ->
    (forall c, c ∈ cs -> below_done G c st) ->
    sumChildren rec cs total st = Some (r, st') ->
    memo_sums G self st'
    /\ r = total + sumTotals (TotalTime.totalTimeMap st') cs
    /\ (forall c, c ∈ cs -> c ∈ dom G -> c ∈ dom (TotalTime.totalTimeMap st')).
Proof.
  intros Hframe Hrec cs.
  induction cs as [|c cs IH]; intros total st r st' Hwf Hsums Hbelow Hrun;
    simpl in Hrun.
  - injection Hrun as <- <-. split; [done|]. split; [simpl; lia|].
    intros c Hc. by apply elem_of_nil in Hc.
  - destruct (rec c st) as [[t st1]|] eqn:Hc; [|done].
    destruct (Hframe _ _ _ _ Hwf Hc) as (Hwf1 & Hext1 & Hin1).
    destruct (Hrec _ _ _ _ Hwf Hsums (Hbelow c ltac:(set_solver)) Hc)
      as (Hsums1 & -> & Hdone1).
    destruct (sumChildren_extends G rec Hframe _ _ _ _ _ Hwf1 Hrun)
      as (Hwf' & Hext' & _).
    assert (forall c', c' ∈ cs -> below_done G c' st1) as Hbelow1.
    { intros c' Hc'. eapply below_done_extends; [done|]. apply Hbelow. set_solver. }
    destruct (IH _ _ _ _ Hwf1 Hsums1 Hbelow1 Hrun) as (Hsums' & -> & Hdone').
    split; [done|]. split.
    + simpl. rewrite (getOr0_extends st1 st') by done. lia.
    + intros c' Hc' HG. apply elem_of_cons in Hc' as [->|Hc']; [|auto].
      destruct (proj1 (elem_of_dom _ _) (Hdone1 HG)) as [t Ht].
      destruct Hext' as (_ & Hm & _). apply elem_of_dom. eauto.
Qed.

Lemma computeNodeTotalTime_sums (fuel : nat) : forall nodeId st r st',
  memo_wf G st -> memo_sums G self st -> below_done G nodeId st ->
  computeNodeTotalTime G self fuel nodeId st = Some (r, st') ->
  memo_sums G self st' /\ r = getOr0 (TotalTime.totalTimeMap st') nodeId
  /\ (nodeId ∈ dom G -> nodeId ∈ dom (TotalTime.totalTimeMap st')).
Proof.
  induction fuel as [|fuel IH]; intros nodeId st r st' Hwf Hsums Hbelow Hrun; [done|].
  simpl in Hrun.
  destruct (decide (nodeId ∈ TotalTime.visited st)) as [Hv|Hv].
  { injection Hrun as <- <-. split; [done|]. split; [done|].
    intros HG. by apply (Hbelow nodeId). }
  destruct (G !! nodeId) as [node|] eqn:HG.
  - destruct (sumChildren _ _ _ _) as [[total' st2]|] eqn:Hkids; [|done].
    injection Hrun as <- <-.
    pose proof (memo_wf_visit G nodeId _ Hwf) as Hwf1.
    destruct (sumChildren_extends G _ (computeNodeTotalTime_extends G self fuel)
                _ _ _ _ _ Hwf1 Hkids) as (Hwf2 & Hext2 & Hin2).
    assert (forall c, c ∈ default [] (Node.children node) ->
              below_done G c (TotalTime.visit nodeId st)) as Hbelow1.
    { intros c Hc x Hreach Hx HxG. simpl in Hx.
      assert (edge G nodeId c) as Hedge by (by exists node).
      apply elem_of_union in Hx as [Hx|Hx].
      - apply elem_of_singleton in Hx as ->. exfalso.
        apply (Hacyclic nodeId). eapply tc_rtc_r; [by apply tc_once|done].
      - apply (Hbelow x); auto. by eapply rtc_l. }
    destruct (sumChildren_sums _ (computeNodeTotalTime_extends G self fuel) IH
                _ _ _ _ _ Hwf1 (memo_sums_visit nodeId _ Hsums) Hbelow1 Hkids)
      as (Hsums2 & Htotal & Hdone2).
    assert (nodeId ∉ dom (TotalTime.totalTimeMap st2)) as Hfresh.
    { intros Hin. destruct Hext2 as (_ & _ & _ & Hd2). destruct (Hd2 _ Hin) as [H|H].
      - destruct Hwf as (Hw1 & _). apply Hw1 in H as [H _]. done.
      - simpl in H. set_solver. }
    assert (nodeId ∉ default [] (Node.children node)) as Hself.
    { intros Hin. apply (edge_irrefl nodeId). by exists node. }
    split; [|split].
    + intros x t node' Hx HxG. simpl in Hx |- *.
      destruct (decide (x = nodeId)) as [->|Hne].
      * rewrite lookup_insert_eq in Hx. injection Hx as <-.
        assert (node' = node) as -> by congruence.
        rewrite sumTotals_insert_notin by done. split; [done|].
        intros c Hc. split; [auto|]. intros HcG. rewrite dom_insert.
        apply elem_of_union. right. auto.
      * rewrite lookup_insert_ne in Hx by done.
        destruct (Hsums2 x t node' Hx HxG) as [Heq Hk].
        assert (nodeId ∉ default [] (Node.children node')) as Hnot.
        { intros Hin. destruct (Hk _ Hin) as [_ Hd]. apply Hfresh, Hd.
          apply elem_of_dom. eauto. }
        rewrite sumTotals_insert_notin by done. split; [done|].
        intros c Hc. destruct (Hk c Hc) as [Hcv Hcd]. split; [done|].
        intros HcG. rewrite dom_insert. apply elem_of_union. right. auto.
    + simpl. unfold getOr0. by rewrite lookup_insert_eq.
    + intros _. simpl. rewrite dom_insert. set_solver.
  - injection Hrun as <- <-. split; [by apply memo_sums_visit|]. split.
    + simpl. unfold getOr0.
      destruct (TotalTime.totalTimeMap st !! nodeId) as [t|] eqn:Ht; [|done].
      destruct Hwf as (Hw1 & _).
      assert (nodeId ∈ dom G) as Hd by (apply (Hw1 nodeId), elem_of_dom; eauto).
      apply elem_of_dom in Hd as [? ?]. congruence.
    + intros Hd. apply elem_of_dom in Hd as [? ?]. congruence.
Qed.

Lemma totalTimeLoop_sums (fuel : nat) ns : forall st st',
  memo_wf G st -> memo_sums G self st -> all_done G st ->
  totalTimeLoop G self fuel ns st = Some st' ->
  memo_sums G self st'.
Proof.
  induction ns as [|n ns IH]; intros st st' Hwf Hsums Hall Hrun; simpl in Hrun.
  - by injection Hrun as <-.
  - destruct (computeNodeTotalTime _ _ _ _ _) as [[r st1]|] eqn:Hcall; [|done].
    destruct (computeNodeTotalTime_extends _ _ _ _ _ _ _ Hwf Hcall) as (Hwf1 & Hext1 & _).
    assert (below_done G (Node.id n) st) as Hbelow by (intros x _; apply Hall).
    destruct (computeNodeTotalTime_sums _ _ _ _ _ Hwf Hsums Hbelow Hcall)
      as (Hsums1 & _ & _).
    apply (IH st1 st'); auto. by eapply all_done_extends.
Qed.
End TotalTimeSums.

(** ** The node map *)

Section NodeMap.
Lemma nodeMap_fold_lookup ns : forall (m : gmap Z Node.t) i node,
  fold_left (fun m node => <[Node.id node := node]> m) ns m !! i = Some node ->
  (node ∈ ns /\ Node.id node = i) \/ m !! i = Some node.
Proof.
  induction ns as [|n ns IH]; intros m i node H; simpl in H; [by right|].
  destruct (IH _ _ _ H) as [[Hin Hid]|Hm].
  - left. split; [set_solver|done].
  - destruct (decide (Node.id n = i)) as [<-|Hne].
    + rewrite lookup_insert_eq in Hm. injection Hm as <-. left. set_solver.
    + rewrite lookup_insert_ne in Hm by done. by right.
Qed.

Lemma nodeMap_fold_notin ns : forall (m : gmap Z Node.t) i,
  i ∉ (Node.id <$> ns) ->
  fold_left (fun m node => <[Node.id node := node]> m) ns m !! i = m !! i.
Proof.
  induction ns as [|n ns IH]; intros m i Hi; simpl; [done|].
  rewrite fmap_cons in Hi. apply not_elem_of_cons in Hi as [Hne Hi].
  rewrite IH by done. by rewrite lookup_insert_ne.
Qed.

Lemma buildNodeMap_lookup ns i node :
  buildNodeMap ns !! i = Some node -> node ∈ ns /\ Node.id node = i.
Proof.
  intros H. destruct (nodeMap_fold_lookup _ _ _ _ H) as [?|Hm]; [done|].
  by rewrite lookup_empty in Hm.
Qed.

Lemma buildNodeMap_dom ns i :
  i ∈ dom (buildNodeMap ns) <-> i ∈ (Node.id <$> ns).
Proof.
  split.
  - intros [node H]%elem_of_dom. apply buildNodeMap_lookup in H as [Hin <-].
    by apply list_elem_of_fmap_2.
  - unfold buildNodeMap. generalize (∅ : gmap Z Node.t).
    induction ns as [|n ns IH]; intros m Hi; simpl; [by apply elem_of_nil in Hi|].
    destruct (decide (i ∈ (Node.id <$> ns))) as [Hin|Hnot]; [by apply IH|].
    rewrite fmap_cons in Hi. apply elem_of_cons in Hi as [->|?]; [|done].
    apply elem_of_dom. rewrite nodeMap_fold_notin by done.
    rewrite lookup_insert_eq. by eexists.
Qed.

Lemma buildNodeMap_lookup_NoDup ns node :
  NoDup (Node.id <$> ns) -> node ∈ ns ->
  buildNodeMap ns !! Node.id node = Some node.
Proof.
  intros Hnd Hin.
  assert (Node.id node ∈ dom (buildNodeMap ns)) as [node' H]%elem_of_dom.
  { apply buildNodeMap_dom. by apply list_elem_of_fmap_2. }
  rewrite H. f_equal. apply buildNodeMap_lookup in H as [Hin' Hid].
  apply list_elem_of_lookup in Hin as [i Hi], Hin' as [j Hj].
  assert (i = j) as ->; [|congruence].
  eapply NoDup_lookup; [exact Hnd| |]; rewrite list_lookup_fmap.
  - by rewrite Hi.
  - rewrite Hj. simpl. by rewrite Hid.
Qed.
End NodeMap.

(** ** Tables that describe a tree *)

Section TreeTable.
Lemma subtrees_self s : s ∈ subtrees s.
Proof. destruct s. simpl. set_solver. Qed.

Lemma subtrees_kid s k : k ∈ shapeKids s -> subtrees k ⊆ subtrees s.
Proof.
  destruct s as [r ks]. simpl. intros Hk x Hx.
  apply elem_of_cons. right. apply list_elem_of_In, in_flat_map.
  exists k. by rewrite <- !list_elem_of_In.
Qed.

Lemma subtrees_trans s : forall s' s'',
  s' ∈ subtrees s -> s'' ∈ subtrees s' -> s'' ∈ subtrees s.
Proof.
  induction s as [r ks IH] using shape_tree_ind. intros s' s'' H1 H2.
  simpl in H1. apply elem_of_cons in H1 as [->|H1]; [done|].
  apply list_elem_of_In, in_flat_map in H1 as (k & Hk & H1).
  rewrite <- list_elem_of_In in Hk, H1.
  rewrite Forall_forall in IH.
  apply (subtrees_kid (Shape r ks) k Hk). eapply IH; eauto.
Qed.

Lemma shapeSize_kid s k : k ∈ shapeKids s -> (shapeSize k < shapeSize s)%nat.
Proof.
  destruct s as [r ks]. simpl. induction ks as [|k' ks IH]; intros Hk.
  - by apply elem_of_nil in Hk.
  - simpl. apply elem_of_cons in Hk as [->|Hk]; [lia|]. specialize (IH Hk). lia.
Qed.

Context (T : shape) (ns : list Node.t) (Htable : tree_table T ns).

Lemma table_roots_NoDup : NoDup (shapeRoot <$> subtrees T).
Proof. destruct Htable as (Hnd & Hperm & _). by rewrite <- Hperm. Qed.

Lemma table_unique s1 s2 :
  s1 ∈ subtrees T -> s2 ∈ subtrees T -> shapeRoot s1 = shapeRoot s2 -> s1 = s2.
Proof.
  intros [i Hi]%list_elem_of_lookup [j Hj]%list_elem_of_lookup Heq.
  assert (i = j) as ->; [|congruence].
  eapply NoDup_lookup; [exact table_roots_NoDup| |]; rewrite list_lookup_fmap.
  - by rewrite Hi.
  - rewrite Hj. simpl. by rewrite Heq.
Qed.

Lemma table_node s :
  s ∈ subtrees T ->
  exists node, node ∈ ns /\ Node.id node = shapeRoot s
    /\ buildNodeMap ns !! shapeRoot s = Some node
    /\ default [] (Node.children node) = shapeRoot <$> shapeKids s.
Proof.
  intros Hs. destruct Htable as (Hnd & Hperm & Hkids).
  assert (shapeRoot s ∈ Node.id <$> ns) as Hin.
  { rewrite Hperm. by apply list_elem_of_fmap_2. }
  apply list_elem_of_fmap in Hin as (node & Hid & Hin).
  exists node. split; [done|]. split; [done|]. split.
  - rewrite Hid. by apply buildNodeMap_lookup_NoDup.
  - by apply Hkids.
Qed.

Lemma table_edge p c :
  edge (buildNodeMap ns) p c ->
  exists s k, s ∈ subtrees T /\ shapeRoot s = p /\ k ∈ shapeKids s /\ shapeRoot k = c.
Proof.
  intros (node & HG & Hc). destruct Htable as (Hnd & Hperm & Hkids).
  apply buildNodeMap_lookup in HG as [Hin Hid].
  assert (p ∈ shapeRoot <$> subtrees T) as Hp.
  { rewrite <- Hperm, <- Hid. by apply list_elem_of_fmap_2. }
  apply list_elem_of_fmap in Hp as (s & -> & Hs).
  rewrite (Hkids node s Hin Hs Hid) in Hc.
  apply list_elem_of_fmap in Hc as (k & -> & Hk). by exists s, k.
Qed.

Lemma table_tc_smaller x y :
  tc (edge (buildNodeMap ns)) x y ->
  forall s, s ∈ subtrees T -> shapeRoot s = x ->
    exists k, k ∈ subtrees T /\ shapeRoot k = y /\ (shapeSize k < shapeSize s)%nat.
Proof.
  induction 1 as [x y Hedge|x y z Hedge _ IH]; intros s Hs Hroot.
  - destruct (table_edge _ _ Hedge) as (s' & k & Hs' & Hr' & Hk & Hrk).
    assert (s' = s) as -> by (apply table_unique; congruence).
    exists k. split; [|split; [done|by apply shapeSize_kid]].
    eapply subtrees_trans; [exact Hs|]. apply (subtrees_kid s k Hk), subtrees_self.
  - destruct (table_edge _ _ Hedge) as (s' & k & Hs' & Hr' & Hk & Hrk).
    assert (s' = s) as -> by (apply table_unique; congruence).
    assert (k ∈ subtrees T) as HkT.
    { eapply subtrees_trans; [exact Hs|]. apply (subtrees_kid s k Hk), subtrees_self. }
    destruct (IH k HkT Hrk) as (k' & Hk' & Hrk' & Hlt).
    exists k'. split; [done|]. split; [done|].
    pose proof (shapeSize_kid s k Hk). lia.
Qed.

Lemma table_acyclic : acyclic (buildNodeMap ns).
Proof.
  intros x Hcycle.
  assert (exists s, s ∈ subtrees T /\ shapeRoot s = x) as (s & Hs & Hr).
  { inversion Hcycle as [? ? Hedge|? y ? Hedge _];
      destruct (table_edge _ _ Hedge) as (s & _ & Hs & Hr & _); eauto. }
  destruct (table_tc_smaller _ _ Hcycle s Hs Hr) as (k & Hk & Hrk & Hlt).
  assert (k = s) as -> by (apply table_unique; congruence). lia.
Qed.
End TreeTable.

(** ** The whole of [computeTotalTime] *)

Section TotalTimeRun.
Context (ns : list Node.t) (self : gmap Z Z).
Local Abbreviation G := (buildNodeMap ns).

Lemma computeTotalTimeState_run :
  exists st, computeTotalTimeState G self ns = Some st
    /\ memo_wf G st /\ all_done G st
    /\ forall n, n ∈ ns -> Node.id n ∈ TotalTime.visited st.
Proof.
  unfold computeTotalTimeState.
  destruct (totalTimeLoop_some G self (S (size G)) ns TotalTime.init) as [st Hrun];
    [lia|].
  destruct (totalTimeLoop_extends G self _ _ _ _ (memo_wf_init G) Hrun)
    as (Hwf & Hext & Hin).
  exists st. split; [done|]. split; [done|]. split; [|done].
  eapply all_done_extends; [exact Hext|apply all_done_init].
Qed.

Lemma computeTotalTimeState_entries st :
  computeTotalTimeState G self ns = Some st ->
  forall x, x ∈ dom (TotalTime.totalTimeMap st) <-> x ∈ (Node.id <$> ns).
Proof.
  intros Hrun. destruct computeTotalTimeState_run as (st' & Hrun' & Hwf & Hall & Hin).
  assert (st' = st) as -> by congruence.
  intros x. split.
  - intros Hx. destruct Hwf as (Hw & _). apply buildNodeMap_dom. by apply Hw.
  - intros Hx. apply Hall; [|by apply buildNodeMap_dom].
    apply list_elem_of_fmap in Hx as (n & -> & Hn). auto.
Qed.

Lemma computeTotalTimeState_sums st :
  acyclic G ->
  computeTotalTimeState G self ns = Some st ->
  forall node, node ∈ ns -> NoDup (Node.id <$> ns) ->
    getOr0 (TotalTime.totalTimeMap st) (Node.id node)
    = getOr0 self (Node.id node)
      + sumTotals (TotalTime.totalTimeMap st) (default [] (Node.children node)).
Proof.
  intros Hacyc Hrun node Hnode Hnd.
  assert (memo_sums G self TotalTime.init) as Hinit.
  { intros x t n Hx. simpl in Hx. by rewrite lookup_empty in Hx. }
  pose proof (totalTimeLoop_sums G self Hacyc _ _ _ _ (memo_wf_init G) Hinit
                (all_done_init G) Hrun) as Hsums.
  assert (Node.id node ∈ dom (TotalTime.totalTimeMap st)) as [t Ht]%elem_of_dom.
  { apply computeTotalTimeState_entries; [done|]. by apply list_elem_of_fmap_2. }
  destruct (Hsums _ _ _ Ht (buildNodeMap_lookup_NoDup _ _ Hnd Hnode)) as [-> _].
  unfold getOr0 at 1. by rewrite Ht.
Qed.
End TotalTimeRun.

Section TreeTotals.
Context (T : shape) (ns : list Node.t) (self : gmap Z Z) (st : TotalTime.state).
Context (Htable : tree_table T ns).
Context (Hrun : computeTotalTimeState (buildNodeMap ns) self ns = Some st).

(** On a tree, the total time of a node is the self time of the nodes of
    its subtree, added up. *)
Lemma subtree_total s :
  s ∈ subtrees T ->
  getOr0 (TotalTime.totalTimeMap st) (shapeRoot s)
  = sumTotals self (shapeRoot <$> subtrees s).
Proof.
  induction s as [r ks IH] using shape_tree_ind. intros Hs.
  destruct (table_node T ns Htable _ Hs) as (node & Hnode & Hid & _ & Hkids).
  simpl in Hid, Hkids |- *. rewrite <- Hid.
  rewrite (computeTotalTimeState_sums ns self st (table_acyclic T ns Htable) Hrun
             node Hnode (proj1 Htable)).
  rewrite Hkids. f_equal.
  assert (forall k, k ∈ ks -> k ∈ subtrees T) as Hsub.
  { intros k Hk. eapply subtrees_trans; [exact Hs|].
    apply (subtrees_kid (Shape r ks) k Hk), subtrees_self. }
  clear Hkids Hs Hid Hnode. induction ks as [|k ks IHks]; simpl; [done|].
  apply Forall_cons in IH as [IHk IH].
  rewrite fmap_app, sumTotals_app, IHk by (apply Hsub; set_solver).
  f_equal. apply IHks; [done|]. intros k' Hk'. apply Hsub. set_solver.
Qed.

Lemma root_total :
  getOr0 (TotalTime.totalTimeMap st) (shapeRoot T) = sumSelfTime self ns.
Proof.
  rewrite (subtree_total T (subtrees_self T)). unfold sumSelfTime.
  apply sumTotals_perm. symmetry. apply Htable.
Qed.

Lemma total_ge_self node :
  (forall x, 0 <= getOr0 self x) -> node ∈ ns ->
  getOr0 self (Node.id node) <= getOr0 (TotalTime.totalTimeMap st) (Node.id node).
Proof.
  intros Hpos Hnode. destruct Htable as (Hnd & Hperm & Hkids).
  assert (Node.id node ∈ shapeRoot <$> subtrees T) as Hin.
  { rewrite <- Hperm. by apply list_elem_of_fmap_2. }
  apply list_elem_of_fmap in Hin as (s & Hid & Hs).
  rewrite Hid, (subtree_total s Hs). destruct s as [r ks]. simpl.
  pose proof (sumTotals_nonneg self (shapeRoot <$> flat_map subtrees ks) Hpos) as H.
  unfold fmap in H |- *. lia.
Qed.
End TreeTotals.

Section SelfTimeSign.
Lemma sampleLoop_nonneg ss : forall i deltas st st',
  Forall (fun d => 0 <= d) deltas ->
  (forall x, 0 <= getOr0 st.1 x) ->
  sampleLoop ss i deltas st = Ok st' ->
  forall x, 0 <= getOr0 st'.1 x.
Proof.
  induction ss as [|s ss IH]; intros i deltas st st' Hpos Hst Hrun; simpl in Hrun.
  - by injection Hrun as <-.
  - destruct (deltas !! i) as [d|] eqn:Hd; [|done].
    eapply IH; [exact Hpos| |exact Hrun].
    intros x. simpl. unfold getOr0 at 1.
    destruct (decide (s = x)) as [->|Hne].
    + rewrite lookup_insert_eq. simpl.
      rewrite Forall_forall in Hpos. specialize (Hpos d (list_elem_of_lookup_2 _ _ _ Hd)).
      specialize (Hst x). lia.
    + rewrite lookup_insert_ne by done. apply Hst.
Qed.
End SelfTimeSign.

(** ** The aggregation keeps the self time *)

Section AggregateSum.
Context (sm tm hm : gmap Z Z) (totalTime : Z) (nm : gmap Z Node.t).

Lemma updateStats_notin k f (m : list FunctionStats.t) :
  k ∉ (FunctionStats.key <$> m) -> updateStats k f m = m.
Proof.
  unfold updateStats. induction m as [|s m IH]; intros Hk; simpl; [done|].
  rewrite fmap_cons in Hk. apply not_elem_of_cons in Hk as [Hne Hk].
  destruct (decide (FunctionStats.key s = k)); [done|]. f_equal. by apply IH.
Qed.

Lemma updateStats_keys k node (m : list FunctionStats.t) :
  FunctionStats.key <$> updateStats k (addNode sm tm hm nm node) m
  = FunctionStats.key <$> m.
Proof.
  unfold updateStats. induction m as [|s m IH]; simpl; [done|].
  f_equal; [|exact IH]. by destruct (decide (FunctionStats.key s = k)).
Qed.

Lemma updateStats_sum k node (m : list FunctionStats.t) :
  NoDup (FunctionStats.key <$> m) -> k ∈ (FunctionStats.key <$> m) ->
  sumStatsSelfTime (updateStats k (addNode sm tm hm nm node) m)
  = sumStatsSelfTime m + getOr0 sm (Node.id node).
Proof.
  induction m as [|s m IH]; intros Hnd Hk; [by apply elem_of_nil in Hk|].
  rewrite fmap_cons in Hnd, Hk. apply NoDup_cons in Hnd as [Hs Hnd].
  change (updateStats k (addNode sm tm hm nm node) (s :: m))
    with ((if decide (FunctionStats.key s = k) then addNode sm tm hm nm node s else s)
          :: updateStats k (addNode sm tm hm nm node) m).
  destruct (decide (FunctionStats.key s = k)) as [<-|Hne]; simpl.
  - rewrite updateStats_notin by done. lia.
  - apply elem_of_cons in Hk as [?|Hk]; [congruence|]. rewrite IH by done. lia.
Qed.

Lemma aggregateStep_sum (m : list FunctionStats.t) node :
  NoDup (FunctionStats.key <$> m) ->
  NoDup (FunctionStats.key <$> aggregateStep sm tm hm nm m node)
  /\ sumStatsSelfTime (aggregateStep sm tm hm nm m node)
     = sumStatsSelfTime m + getOr0 sm (Node.id node).
Proof.
  intros Hnd. unfold aggregateStep, hasKey.
  set (k := functionKey (Node.callFrame node)).
  rewrite updateStats_keys.
  destruct (bool_decide (k ∈ FunctionStats.key <$> m)) eqn:Hk.
  - apply bool_decide_eq_true in Hk. split; [done|]. by apply updateStats_sum.
  - apply bool_decide_eq_false in Hk.
    assert (NoDup (FunctionStats.key <$> m ++ [freshStats k (Node.callFrame node)]))
      as Hnd'.
    { rewrite fmap_app. apply NoDup_app. split; [done|]. split.
      - intros x Hx [->|[]%elem_of_nil]%elem_of_cons. done.
      - apply NoDup_singleton. }
    split; [done|]. rewrite updateStats_sum; [|done|].
    + f_equal. clear. induction m as [|s m IH]; simpl; [done|]. by rewrite IH.
    + rewrite fmap_app. set_solver.
Qed.

Lemma aggregate_fold_sum ns : forall (m : list FunctionStats.t),
  NoDup (FunctionStats.key <$> m) ->
  sumStatsSelfTime (fold_left (aggregateStep sm tm hm nm) ns m)
  = sumStatsSelfTime m + sumSelfTime sm ns.
Proof.
  unfold sumSelfTime.
  induction ns as [|n ns IH]; intros m Hnd; [simpl; lia|].
  destruct (aggregateStep_sum m n Hnd) as [Hnd' Hsum].
  change (fold_left (aggregateStep sm tm hm nm) (n :: ns) m)
    with (fold_left (aggregateStep sm tm hm nm) ns (aggregateStep sm tm hm nm m n)).
  rewrite (IH _ Hnd'), Hsum, fmap_cons. simpl. lia.
Qed.

Lemma aggregateFunctionStats_sum ns :
  sumStatsSelfTime (aggregateFunctionStats sm tm hm totalTime nm ns)
  = sumSelfTime sm ns.
Proof.
  unfold aggregateFunctionStats.
  transitivity (sumStatsSelfTime (fold_left (aggregateStep sm tm hm nm) ns [])).
  - induction (fold_left _ ns []) as [|s l IH]; [done|].
    rewrite fmap_cons. simpl. f_equal. exact IH.
  - rewrite aggregate_fold_sum by constructor. simpl. lia.
Qed.
End AggregateSum.

(** ** The time attribution claims *)

Lemma sample_tree_table : tree_table Sample.tree (Profile.nodes Sample.profile).
Proof.
  split; [|split].
  - simpl. repeat (apply NoDup_cons; split; [set_solver|]). apply NoDup_nil_2.
  - reflexivity.
  - intros node s Hnode Hs Hid. simpl in Hnode, Hs.
    repeat (apply elem_of_cons in Hs as [->|Hs]);
      repeat (apply elem_of_cons in Hnode as [->|Hnode]);
      try (by apply elem_of_nil in Hs); try (by apply elem_of_nil in Hnode);
      try reflexivity; discriminate Hid.
Defined.

Lemma computeSelfTime_ok (p : Profile.t) :
  length (Profile.samples p) = length (Profile.timeDeltas p) ->
  exists selfTimeMap hitCountMap, computeSelfTime p = Ok (selfTimeMap, hitCountMap).
Proof.
  intros Hlen.
  destruct (sampleLoop_total (Profile.samples p) 0 (Profile.timeDeltas p) (∅, ∅))
    as [[selfTimeMap hitCountMap] Hrun]; [done|].
  by exists selfTimeMap, hitCountMap.
Qed.

Lemma computeSelfTime_sum (p : Profile.t) selfTimeMap hitCountMap :
  length (Profile.samples p) = length (Profile.timeDeltas p) ->
  NoDup (Node.id <$> Profile.nodes p) ->
  Forall (fun s => s ∈ (Node.id <$> Profile.nodes p)) (Profile.samples p) ->
  computeSelfTime p = Ok (selfTimeMap, hitCountMap) ->
  sumSelfTime selfTimeMap (Profile.nodes p) = profileTotalTime p.
Proof.
  intros Hlen Hnd Hin Hrun.
  pose proof (sampleLoop_sum (Profile.nodes p) (Profile.samples p) 0
                (Profile.timeDeltas p) _ _ Hnd Hin Hlen Hrun) as Hsum.
  simpl in Hsum. rewrite Hsum, drop_0. unfold profileTotalTime.
  unfold sumSelfTime. rewrite sumTotals_empty. lia.
Qed.

(** C10.  For every node table, also one whose children pointers have
    cycles or share children, the total-time computation terminates, and
    the map it returns has an entry for exactly the node ids of the table;
    no id has its total stored more than once. *)
Theorem computeTotalTime_terminates (ns : list Node.t) (selfTimeMap : gmap Z Z) :
  exists st,
    computeTotalTimeState (buildNodeMap ns) selfTimeMap ns = Some st
    /\ computeTotalTime (buildNodeMap ns) selfTimeMap ns
       = Some (TotalTime.totalTimeMap st)
    /\ (forall node, node ∈ ns ->
          is_Some (TotalTime.totalTimeMap st !! Node.id node))
    /\ (forall x, x ∈ dom (TotalTime.totalTimeMap st) <-> x ∈ (Node.id <$> ns))
    /\ NoDup (TotalTime.stores st)
    /\ (forall x, x ∈ TotalTime.stores st <-> x ∈ (Node.id <$> ns)).
Proof.
  destruct (computeTotalTimeState_run ns selfTimeMap) as (st & Hrun & Hwf & Hall & Hin).
  pose proof (computeTotalTimeState_entries ns selfTimeMap st Hrun) as Hdom.
  exists st. split; [done|]. split; [unfold computeTotalTime; by rewrite Hrun|].
  split; [|split; [done|split]].
  - intros node Hnode. apply elem_of_dom, Hdom. by apply list_elem_of_fmap_2.
  - apply Hwf.
  - intros x. destruct Hwf as (_ & _ & Hst). by rewrite Hst.
Qed.

(** The traversal on a table with a cycle: 1 -> 2 -> 1. *)
Example computeTotalTime_on_cycle :
  let n1 := Node.mk 1 (Sample.frame "f" "a.js" 1) None (Some [2]) None in
  let n2 := Node.mk 2 (Sample.frame "g" "a.js" 2) None (Some [1]) None in
  computeTotalTime (buildNodeMap [n1; n2]) {[1 := 5; 2 := 7]} [n1; n2]
  = Some {[1 := 12; 2 := 7]}.
Proof. vm_compute. reflexivity. Qed.

(** ** The stable sort *)

Section SortFacts.
Context {A : Type} (le0 : A -> A -> bool).

Lemma insertSorted_perm x l : insertSorted le0 x l ≡ₚ x :: l.
Proof.
  induction l as [|y ys IH]; simpl; [done|].
  destruct (le0 x y); [done|]. rewrite IH. apply Permutation_swap.
Qed.

Lemma jsSort_perm l : jsSort le0 l ≡ₚ l.
Proof.
  induction l as [|x l IH]; simpl; [done|].
  rewrite insertSorted_perm. by rewrite IH.
Qed.

Lemma jsSort_length l : length (jsSort le0 l) = length l.
Proof. by rewrite jsSort_perm. Qed.

(** Ties keep their order: of the elements that satisfy a predicate whose
    elements are all tied with each other, the sort changes nothing. *)
Lemma insertSorted_filter (P : A -> bool) x l :
  (forall a b, P a = true -> P b = true -> le0 a b = true) ->
  List.filter P (insertSorted le0 x l)
  = if P x then x :: List.filter P l else List.filter P l.
Proof.
  intros Htie. induction l as [|y ys IH]; simpl; [done|].
  destruct (le0 x y) eqn:Hxy; simpl; [done|].
  rewrite IH. destruct (P x) eqn:Hx, (P y) eqn:Hy; try done.
  rewrite (Htie x y Hx Hy) in Hxy. done.
Qed.

Lemma jsSort_stable (P : A -> bool) l :
  (forall a b, P a = true -> P b = true -> le0 a b = true) ->
  List.filter P (jsSort le0 l) = List.filter P l.
Proof.
  intros Htie. induction l as [|x l IH]; simpl; [done|].
  rewrite insertSorted_filter by done. by rewrite IH.
Qed.

(** Two groups, the first strictly ahead of the second: the sort handles
    them apart. *)
Lemma insertSorted_app_l x l1 l2 :
  (forall b, b ∈ l2 -> le0 x b = true) ->
  insertSorted le0 x (l1 ++ l2) = insertSorted le0 x l1 ++ l2.
Proof.
  intros Hl2. induction l1 as [|y ys IH]; simpl.
  - destruct l2 as [|b l2]; simpl; [done|]. rewrite Hl2; [done|set_solver].
  - destruct (le0 x y); [done|]. by rewrite IH.
Qed.

Lemma insertSorted_app_r x l1 l2 :
  (forall a, a ∈ l1 -> le0 x a = false) ->
  insertSorted le0 x (l1 ++ l2) = l1 ++ insertSorted le0 x l2.
Proof.
  intros Hl1. induction l1 as [|y ys IH]; simpl; [done|].
  rewrite Hl1 by set_solver. rewrite IH; [done|]. intros a Ha. apply Hl1. set_solver.
Qed.

Lemma jsSort_split (hi : A -> bool) l :
  (forall x y, x ∈ l -> y ∈ l -> hi x = true -> hi y = false ->
     le0 x y = true /\ le0 y x = false) ->
  jsSort le0 l
  = jsSort le0 (List.filter hi l) ++ jsSort le0 (List.filter (fun x => negb (hi x)) l).
Proof.
  induction l as [|x l IH]; intros Hsep; simpl; [done|].
  rewrite IH by (intros; apply Hsep; set_solver).
  destruct (hi x) eqn:Hx; simpl.
  - apply insertSorted_app_l. intros b Hb.
    rewrite jsSort_perm in Hb. apply list_elem_of_In, filter_In in Hb as [Hb Hhb].
    apply list_elem_of_In in Hb.
    apply Hsep; [set_solver|set_solver|done|]. by destruct (hi b).
  - apply insertSorted_app_r. intros a Ha.
    rewrite jsSort_perm in Ha. apply list_elem_of_In, filter_In in Ha as [Ha Hha].
    apply list_elem_of_In in Ha.
    apply Hsep; [set_solver|set_solver|done|done].
Qed.

Context (le0_total : forall a b, le0 a b = true \/ le0 b a = true).
Context (le0_trans : forall a b c, le0 a b = true -> le0 b c = true -> le0 a c = true).

Lemma insertSorted_sorted x l :
  StronglySorted (fun a b => le0 a b = true) l ->
  StronglySorted (fun a b => le0 a b = true) (insertSorted le0 x l).
Proof.
  induction l as [|y ys IH]; simpl; intros Hs.
  - repeat constructor.
  - apply StronglySorted_cons in Hs as [Hy Hs].
    destruct (le0 x y) eqn:Hxy.
    + apply StronglySorted_cons. split; [|by apply StronglySorted_cons].
      apply Forall_cons. split; [done|].
      eapply Forall_impl; [exact Hy|]. intros z Hz. by eapply le0_trans.
    + apply StronglySorted_cons. split; [|auto].
      rewrite insertSorted_perm. apply Forall_cons. split; [|done].
      destruct (le0_total x y); congruence.
Qed.

Lemma jsSort_sorted l : StronglySorted (fun a b => le0 a b = true) (jsSort le0 l).
Proof.
  induction l as [|x l IH]; simpl; [constructor|]. by apply insertSorted_sorted.
Qed.
End SortFacts.

Lemma StronglySorted_weaken {A} (R R' : A -> A -> Prop) l :
  (forall a b, R a b -> R' a b) -> StronglySorted R l -> StronglySorted R' l.
Proof.
  intros Himp. induction 1 as [|x l Hl IH Hx]; constructor; [done|].
  eapply Forall_impl; [exact Hx|]. intros y. apply Himp.
Qed.

(** ** [slice(0, end)] *)

Section Slice.
Context {A : Type}.

Lemma jsSlice0_prefix (stop : Z) (l : list A) : jsSlice0 stop l `prefix_of` l.
Proof. apply prefix_take. Qed.

Lemma jsSlice0_length (stop : Z) (l : list A) :
  0 <= stop -> Z.of_nat (length (jsSlice0 stop l)) <= stop.
Proof.
  intros H. unfold jsSlice0. rewrite length_take.
  destruct (stop <? 0) eqn:Hneg; lia.
Qed.

Lemma jsSlice0_nonneg (stop : Z) (l : list A) :
  0 <= stop -> jsSlice0 stop l = take (Z.to_nat stop) l.
Proof.
  intros H. unfold jsSlice0. destruct (stop <? 0) eqn:Hneg; [lia|].
  destruct (Z_le_gt_dec stop (Z.of_nat (length l))) as [Hle|Hgt].
  - by rewrite Z.min_l.
  - rewrite Z.min_r by lia. rewrite Nat2Z.id. rewrite !take_ge; [done|lia|lia].
Qed.

Lemma jsSlice0_app_l (stop : Z) (l k : list A) x :
  x ∈ jsSlice0 stop l -> x ∈ jsSlice0 stop (l ++ k).
Proof.
  unfold jsSlice0. rewrite !elem_of_take. intros (i & Hi & Hlt).
  exists i. split; [by apply lookup_app_l_Some|].
  rewrite length_app. destruct (stop <? 0); lia.
Qed.
End Slice.

(** A negative [end] drops elements from the end of the array. *)
Example jsSlice0_negative : jsSlice0 (-1) [1; 2; 3] = [1; 2].
Proof. reflexivity. Qed.

(** ** Hotspots *)

Section Hotspots.

Lemma bySelfTime_spec a b :
  bySelfTime a b = true <-> FunctionStats.selfTime b <= FunctionStats.selfTime a.
Proof. unfold bySelfTime. rewrite Z.leb_le. lia. Qed.

Lemma bySelfTime_total a b : bySelfTime a b = true \/ bySelfTime b a = true.
Proof. rewrite !bySelfTime_spec. lia. Qed.

Lemma bySelfTime_trans a b c :
  bySelfTime a b = true -> bySelfTime b c = true -> bySelfTime a c = true.
Proof. rewrite !bySelfTime_spec. lia. Qed.

Lemma passesThreshold_spec threshold s :
  passesThreshold threshold s = true <-> (threshold <= FunctionStats.selfPercent s)%Q.
Proof. apply Qle_bool_iff. Qed.

Lemma percentOf_mono totalTime a b :
  a <= b -> (percentOf totalTime a <= percentOf totalTime b)%Q.
Proof.
  intros Hab. unfold percentOf. destruct (0 <? totalTime) eqn:Hpos; [|apply Qle_refl].
  apply Z.ltb_lt in Hpos.
  apply Qmult_le_compat_r; [|done].
  apply Qmult_le_compat_r; [by rewrite <- Zle_Qle|].
  apply Qinv_le_0_compat. change 0%Q with (inject_Z 0). rewrite <- Zle_Qle. lia.
Qed.

Lemma filter_filter_bool {A} (P Q : A -> bool) l :
  List.filter P (List.filter Q l) = List.filter (fun x => Q x && P x) l.
Proof.
  induction l as [|x l IH]; simpl; [done|].
  destruct (Q x); simpl; [|done]. destruct (P x); by rewrite IH.
Qed.

Lemma filter_ext_bool {A} (P Q : A -> bool) l :
  (forall x, P x = Q x) -> List.filter P l = List.filter Q l.
Proof. intros H. induction l as [|x l IH]; simpl; [done|]. by rewrite H, IH. Qed.

Lemma filter_prefix_bool {A} (P : A -> bool) l k :
  l `prefix_of` k -> List.filter P l `prefix_of` List.filter P k.
Proof. intros [m ->]. rewrite List.filter_app. by eexists. Qed.

Lemma fmap_prefix_bool {A B} (f : A -> B) l k :
  l `prefix_of` k -> f <$> l `prefix_of` f <$> k.
Proof. intros [m ->]. rewrite fmap_app. by eexists. Qed.

Lemma filter_fmap_bool {A B} (f : A -> B) (P : B -> bool) l :
  List.filter P (f <$> l) = f <$> List.filter (fun x => P (f x)) l.
Proof.
  induction l as [|x l IH]; simpl; [done|].
  destruct (P (f x)); simpl; [f_equal|]; apply IH.
Qed.

(** The four properties of the list [extractHotspots] returns. *)
Lemma extractHotspots_threshold fs threshold maxCount :
  Forall (fun h => (threshold <= Hotspot.selfPercent h)%Q)
         (extractHotspots fs threshold maxCount).
Proof.
  unfold extractHotspots. apply Forall_fmap.
  eapply Forall_impl with (P := fun s => passesThreshold threshold s = true).
  - apply Forall_take. rewrite jsSort_perm. apply Forall_forall.
    intros s Hs. by apply list_elem_of_In, filter_In in Hs as [_ Hs].
  - intros s Hs. simpl. by apply passesThreshold_spec.
Qed.

Lemma extractHotspots_sorted fs threshold maxCount :
  StronglySorted (fun a b => Hotspot.selfTime b <= Hotspot.selfTime a)
                 (extractHotspots fs threshold maxCount).
Proof.
  unfold extractHotspots.
  apply StronglySorted_fmap with (R1 := fun a b => bySelfTime a b = true).
  - intros a b Hab. simpl. by apply bySelfTime_spec.
  - pose proof (jsSort_sorted bySelfTime bySelfTime_total bySelfTime_trans
                  (List.filter (passesThreshold threshold) fs)) as Hs.
    destruct (jsSlice0_prefix maxCount
                (jsSort bySelfTime (List.filter (passesThreshold threshold) fs)))
      as [rest Heq].
    rewrite Heq in Hs. by apply StronglySorted_app_1_l in Hs.
Qed.

Lemma extractHotspots_stable fs threshold maxCount v :
  List.filter (fun h => Hotspot.selfTime h =? v) (extractHotspots fs threshold maxCount)
  `prefix_of`
  toHotspot <$> List.filter
    (fun s => passesThreshold threshold s && (FunctionStats.selfTime s =? v)) fs.
Proof.
  unfold extractHotspots. rewrite filter_fmap_bool. apply fmap_prefix_bool. simpl.
  rewrite <- filter_filter_bool.
  set (F := List.filter (passesThreshold threshold) fs).
  assert (List.filter (fun s => FunctionStats.selfTime s =? v) (jsSort bySelfTime F)
          = List.filter (fun s => FunctionStats.selfTime s =? v) F) as <-.
  { apply jsSort_stable.
    intros a b Ha%Z.eqb_eq Hb%Z.eqb_eq. apply bySelfTime_spec. lia. }
  apply filter_prefix_bool, jsSlice0_prefix.
Qed.

Lemma extractHotspots_length fs threshold maxCount :
  0 <= maxCount ->
  Z.of_nat (length (extractHotspots fs threshold maxCount)) <= maxCount.
Proof.
  intros H. unfold extractHotspots. rewrite length_fmap. by apply jsSlice0_length.
Qed.

(** Lowering the threshold keeps what was there, when the percentages are
    those of the self times. *)
Lemma extractHotspots_mono fs totalTime t1 t2 maxCount h :
  (forall s, s ∈ fs ->
     FunctionStats.selfPercent s = percentOf totalTime (FunctionStats.selfTime s)) ->
  (t2 <= t1)%Q ->
  h ∈ extractHotspots fs t1 maxCount -> h ∈ extractHotspots fs t2 maxCount.
Proof.
  intros Hpct Hle. unfold extractHotspots.
  rewrite (jsSort_split bySelfTime (passesThreshold t1)
             (List.filter (passesThreshold t2) fs)).
  - assert (List.filter (passesThreshold t1) (List.filter (passesThreshold t2) fs)
            = List.filter (passesThreshold t1) fs) as ->.
    { rewrite filter_filter_bool. apply filter_ext_bool.
      intros s. destruct (passesThreshold t1 s) eqn:H1;
        [|by rewrite andb_false_r].
      rewrite andb_true_r. apply passesThreshold_spec.
      apply passesThreshold_spec in H1. by eapply Qle_trans. }
    intros (s & -> & Hs)%list_elem_of_fmap. apply list_elem_of_fmap.
    exists s. split; [done|]. by apply jsSlice0_app_l.
  - intros x y Hx Hy H1 H2.
    apply list_elem_of_In, filter_In in Hx as [Hx%list_elem_of_In _].
    apply list_elem_of_In, filter_In in Hy as [Hy%list_elem_of_In _].
    apply passesThreshold_spec in H1.
    assert (~ (t1 <= FunctionStats.selfPercent y)%Q) as H2'.
    { intros H. apply passesThreshold_spec in H. congruence. }
    rewrite (Hpct x Hx) in H1. rewrite (Hpct y Hy) in H2'.
    assert (FunctionStats.selfTime y < FunctionStats.selfTime x) as Hlt.
    { destruct (Z_lt_le_dec (FunctionStats.selfTime y) (FunctionStats.selfTime x))
        as [?|Hge]; [done|].
      exfalso. apply H2'. eapply Qle_trans; [exact H1|]. by apply percentOf_mono. }
    split.
    + apply bySelfTime_spec. lia.
    + apply not_true_is_false. rewrite bySelfTime_spec. lia.
Qed.
End Hotspots.

(** ** [analyzeProfile], field by field *)

Lemma analyzeProfile_inv p o r :
  analyzeProfile p o = Ok r ->
  exists selfTimeMap hitCountMap totalTimeMap,
    computeSelfTime p = Ok (selfTimeMap, hitCountMap)
    /\ computeTotalTime (buildNodeMap (Profile.nodes p)) selfTimeMap (Profile.nodes p)
       = Some totalTimeMap
    /\ AnalysisResult.totalTime r = profileTotalTime p
    /\ AnalysisResult.sampleInterval r
       = jsDiv (profileTotalTime p) (Z.of_nat (length (Profile.samples p)))
    /\ AnalysisResult.functionStats r
       = aggregateFunctionStats selfTimeMap totalTimeMap hitCountMap
           (profileTotalTime p) (buildNodeMap (Profile.nodes p)) (Profile.nodes p)
    /\ buildCallTree (buildNodeMap (Profile.nodes p)) selfTimeMap totalTimeMap
         (profileTotalTime p) (head (Profile.nodes p))
       = Ok (AnalysisResult.callTree r)
    /\ AnalysisResult.hotspots r
       = extractHotspots (AnalysisResult.functionStats r) (optThreshold o)
           (optMaxHotspots o)
    /\ AnalysisResult.criticalPaths r
       = findCriticalPaths (AnalysisResult.callTree r) (optMaxPaths o).
Proof.
  unfold analyzeProfile, profileTotalTime. intros H.
  destruct (computeSelfTime p) as [[selfTimeMap hitCountMap]|e] eqn:Hself; [|done].
  simpl in H.
  destruct (computeTotalTime _ _ _) as [totalTimeMap|] eqn:Htotal; [|done].
  destruct (buildCallTree _ _ _ _ _) as [callTree|e] eqn:Htree; [|done].
  simpl in H. injection H as <-. simpl.
  exists selfTimeMap, hitCountMap, totalTimeMap. by repeat split.
Qed.

Lemma aggregateFunctionStats_percent sm tm hm totalTime nm ns s :
  s ∈ aggregateFunctionStats sm tm hm totalTime nm ns ->
  FunctionStats.selfPercent s = percentOf totalTime (FunctionStats.selfTime s).
Proof.
  unfold aggregateFunctionStats. by intros (s0 & -> & _)%list_elem_of_fmap.
Qed.

(** C4.  For every profile and options, the hotspot list of the result:
    every entry has self% at least the threshold (default 1.0); the entries
    are in descending order of self time; entries with equal self time are
    in the iteration order of the function statistics; and the list has at
    most [maxHotspots] entries (default 20; a count is not negative). *)
Theorem hotspots_filtered_sorted_bounded p o r :
  analyzeProfile p o = Ok r ->
  Forall (fun h => (optThreshold o <= Hotspot.selfPercent h)%Q)
         (AnalysisResult.hotspots r)
  /\ StronglySorted (fun a b => Hotspot.selfTime b <= Hotspot.selfTime a)
                    (AnalysisResult.hotspots r)
  /\ (forall v,
        List.filter (fun h => Hotspot.selfTime h =? v) (AnalysisResult.hotspots r)
        `prefix_of`
        toHotspot <$> List.filter
          (fun s => passesThreshold (optThreshold o) s && (FunctionStats.selfTime s =? v))
          (AnalysisResult.functionStats r))
  /\ (0 <= optMaxHotspots o ->
      Z.of_nat (length (AnalysisResult.hotspots r)) <= optMaxHotspots o).
Proof.
  intros (sm & hm & tm & _ & _ & _ & _ & _ & _ & -> & _)%analyzeProfile_inv.
  split; [apply extractHotspots_threshold|].
  split; [apply extractHotspots_sorted|].
  split; [intros v; apply extractHotspots_stable|apply extractHotspots_length].
Qed.

(** C5.  For every profile and a fixed [maxHotspots], a function that is in
    the hotspot list under a threshold is in the list under any lower
    threshold. *)
Theorem hotspots_monotone_in_threshold p o1 o2 r1 r2 :
  AnalyzeOptions.maxHotspots o1 = AnalyzeOptions.maxHotspots o2 ->
  (optThreshold o2 <= optThreshold o1)%Q ->
  analyzeProfile p o1 = Ok r1 ->
  analyzeProfile p o2 = Ok r2 ->
  forall h, h ∈ AnalysisResult.hotspots r1 -> h ∈ AnalysisResult.hotspots r2.
Proof.
  intros Hmax Hle
    (sm & hm & tm & Hs1 & Ht1 & _ & _ & Hf1 & _ & -> & _)%analyzeProfile_inv
    (sm' & hm' & tm' & Hs2 & Ht2 & _ & _ & Hf2 & _ & -> & _)%analyzeProfile_inv h.
  rewrite Hs1 in Hs2. injection Hs2 as <- <-.
  rewrite Ht1 in Ht2. injection Ht2 as <-.
  rewrite Hf2, <- Hf1. unfold optMaxHotspots. rewrite <- Hmax.
  apply extractHotspots_mono with (totalTime := profileTotalTime p); [|done].
  intros s Hs. rewrite Hf1 in Hs. by apply aggregateFunctionStats_percent in Hs.
Qed.

Lemma hotspots_filtered_sorted_bounded_witness :
  exists r,
    analyzeProfile Sample.profile SampleOptions.loose = Ok r
    /\ (Forall (fun h => (optThreshold SampleOptions.loose <= Hotspot.selfPercent h)%Q)
               (AnalysisResult.hotspots r)
        /\ StronglySorted (fun a b => Hotspot.selfTime b <= Hotspot.selfTime a)
                          (AnalysisResult.hotspots r)
        /\ (forall v,
              List.filter (fun h => Hotspot.selfTime h =? v) (AnalysisResult.hotspots r)
              `prefix_of`
              toHotspot <$> List.filter
                (fun s => passesThreshold (optThreshold SampleOptions.loose) s
                          && (FunctionStats.selfTime s =? v))
                (AnalysisResult.functionStats r))
        /\ Z.of_nat (length (AnalysisResult.hotspots r))
           <= optMaxHotspots SampleOptions.loose).
Proof.
  eexists. split; [vm_compute; reflexivity|].
  edestruct (hotspots_filtered_sorted_bounded Sample.profile SampleOptions.loose)
    as (Hthreshold & Hsorted & Hstable & Hlength); [vm_compute; reflexivity|].
  split; [exact Hthreshold|]. split; [exact Hsorted|]. split; [exact Hstable|].
  apply Hlength. vm_compute. discriminate.
Defined.

Lemma hotspots_monotone_in_threshold_witness :
  exists r1 r2,
    analyzeProfile Sample.profile SampleOptions.strict = Ok r1
    /\ analyzeProfile Sample.profile SampleOptions.loose = Ok r2
    /\ length (AnalysisResult.hotspots r1) = 1%nat
    /\ length (AnalysisResult.hotspots r2) = 2%nat
    /\ forall h, h ∈ AnalysisResult.hotspots r1 -> h ∈ AnalysisResult.hotspots r2.
Proof.
  eexists _, _.
  split; [vm_compute; reflexivity|]. split; [vm_compute; reflexivity|].
  split; [reflexivity|]. split; [reflexivity|].
  apply (hotspots_monotone_in_threshold Sample.profile
           SampleOptions.strict SampleOptions.loose).
  - reflexivity.
  - unfold Qle. simpl. lia.
  - vm_compute. reflexivity.
  - vm_compute. reflexivity.
Defined.

(** ** The hotspot classifier *)

Section Classifier.

Lemma startsWith_spec s pre : startsWith s pre = true <-> beginsWith s pre.
Proof.
  unfold startsWith, beginsWith. revert s.
  induction pre as [|a pre IH]; intros s.
  - split; [by exists s|]. intros _. by destruct s.
  - destruct s as [|b s]; simpl.
    + split; [done|]. by intros [post H].
    + destruct (ascii_dec a b) as [->|Hne].
      * rewrite IH. split; intros [post H]; exists post; [by rewrite H|].
        by injection H.
      * split; [done|]. intros [post H]. injection H as ? ?. congruence.
Qed.

Lemma includes_unfold s sub :
  includes s sub
  = String.prefix sub s
    || match s with EmptyString => false | String _ s' => includes s' sub end.
Proof. by destruct s. Qed.

Lemma includes_spec s sub : includes s sub = true <-> contains s sub.
Proof.
  split.
  - induction s as [|c s IH]; simpl; rewrite orb_true_iff.
    + intros [H|?]; [|done]. apply (startsWith_spec "" sub) in H as [post H].
      by exists "", post.
    + intros [H|H].
      * apply (startsWith_spec (String c s) sub) in H as [post H]. by exists "", post.
      * destruct (IH H) as (pre & post & ->). by exists (String c pre), post.
  - intros (pre & post & ->). induction pre as [|c pre IH]; simpl.
    + assert (startsWith (sub +:+ post) sub = true) as H
        by (apply startsWith_spec; by exists post).
      rewrite includes_unfold. unfold startsWith in H.
      change ("" +:+ sub +:+ post) with (sub +:+ post). by rewrite H.
    + rewrite IH. apply orb_true_r.
Qed.

Lemma nativeRule_spec url :
  nativeRule url <->
  (bool_decide (url = "") || startsWith url "native " || includes url "(native)"
   || includes url "node_modules" || includes url "internal/") = true.
Proof.
  unfold nativeRule.
  rewrite !orb_true_iff, bool_decide_eq_true, startsWith_spec, !includes_spec. tauto.
Qed.

Lemma appRule_spec url :
  appRule url <->
  (startsWith url "http://" || startsWith url "https://" || startsWith url "file://"
   || includes url "/" || includes url "\") = true.
Proof.
  unfold appRule. rewrite !orb_true_iff, !startsWith_spec, !includes_spec. tauto.
Qed.

Lemma determineHotspotType_rules url name :
  determineHotspotType url name
  = if bool_decide (url = "") || startsWith url "native " || includes url "(native)"
       || includes url "node_modules" || includes url "internal/"
    then native
    else if startsWith url "http://" || startsWith url "https://"
            || startsWith url "file://" || includes url "/" || includes url "\"
         then app else unknown.
Proof.
  unfold determineHotspotType.
  destruct (bool_decide (url = "")), (startsWith url "native "),
    (includes url "(native)"), (includes url "node_modules"),
    (includes url "internal/"), (startsWith url "http://"),
    (startsWith url "https://"), (startsWith url "file://"),
    (includes url "/"), (includes url "\"); reflexivity.
Qed.

Lemma determineHotspotType_spec url name :
  (determineHotspotType url name = native <-> nativeRule url)
  /\ (determineHotspotType url name = app <-> ~ nativeRule url /\ appRule url)
  /\ (determineHotspotType url name = unknown <-> ~ nativeRule url /\ ~ appRule url).
Proof.
  rewrite determineHotspotType_rules, nativeRule_spec, appRule_spec.
  destruct (_ || _ || _ || _ || _); [intuition congruence|].
  destruct (_ || _ || _ || _ || _); intuition congruence.
Qed.
End Classifier.

(** C6.  Every retained hotspot record has exactly one of the three types:
    [native] when the URL matches a native rule, otherwise [app] when it
    matches an app rule, otherwise [unknown]; a URL that matches a native
    rule and an app rule is [native]. *)
Theorem hotspot_type_by_priority p o r h :
  analyzeProfile p o = Ok r ->
  h ∈ AnalysisResult.hotspots r ->
  (Hotspot.type h = native <-> nativeRule (Hotspot.url h))
  /\ (Hotspot.type h = app <-> ~ nativeRule (Hotspot.url h) /\ appRule (Hotspot.url h))
  /\ (Hotspot.type h = unknown <->
      ~ nativeRule (Hotspot.url h) /\ ~ appRule (Hotspot.url h))
  /\ (nativeRule (Hotspot.url h) -> appRule (Hotspot.url h) -> Hotspot.type h = native).
Proof.
  intros (sm & hm & tm & _ & _ & _ & _ & _ & _ & -> & _)%analyzeProfile_inv Hh.
  unfold extractHotspots in Hh. apply list_elem_of_fmap in Hh as (s & -> & _). simpl.
  destruct (determineHotspotType_spec (FunctionStats.url s) (FunctionStats.name s))
    as (Hn & Ha & Hu).
  split; [done|]. split; [done|]. split; [done|]. intros H _. by apply Hn.
Qed.

Lemma hotspot_type_by_priority_witness :
  exists r h,
    analyzeProfile Sample.profile defaultOptions = Ok r
    /\ h ∈ AnalysisResult.hotspots r
    /\ Hotspot.url h = "node:internal/timers"
    /\ ((Hotspot.type h = native <-> nativeRule (Hotspot.url h))
        /\ (Hotspot.type h = app <->
            ~ nativeRule (Hotspot.url h) /\ appRule (Hotspot.url h))
        /\ (Hotspot.type h = unknown <->
            ~ nativeRule (Hotspot.url h) /\ ~ appRule (Hotspot.url h))
        /\ (nativeRule (Hotspot.url h) -> appRule (Hotspot.url h) ->
            Hotspot.type h = native)).
Proof.
  eexists _, _. split; [vm_compute; reflexivity|].
  split; [do 2 apply list_elem_of_further; apply list_elem_of_here|].
  split; [reflexivity|].
  eapply (hotspot_type_by_priority Sample.profile defaultOptions).
  - vm_compute. reflexivity.
  - do 2 apply list_elem_of_further. apply list_elem_of_here.
Defined.

(** ** Critical paths *)

Section CriticalPaths.

(** What [traverse] pushes for one root-to-leaf sequence below [path]. *)
Local Abbreviation pushed path seq :=
  (CriticalPath.mk (path ++ (toPathNode <$> seq))
                   (sumSelfPercent (path ++ (toPathNode <$> seq)))).

Lemma traverse_spec t : forall path paths,
  traverse t path paths
  = paths ++ ((fun seq => pushed path seq) <$> leafPaths t).
Proof.
  induction t as [n u l sT tT sP tP kids IH] using callTree_ind'.
  intros path paths. simpl.
  destruct kids as [|k ks]; [done|].
  set (t := CallTreeNode.mk n u l sT tT sP tP (k :: ks)).
  set (currentPath := path ++ [toPathNode t]).
  assert (forall kids' acc, Forall (fun k => forall path paths,
              traverse k path paths
              = paths ++ ((fun seq => pushed path seq) <$> leafPaths k)) kids' ->
            fold_left (fun acc child => traverse child currentPath acc) kids' acc
            = acc ++ ((fun seq => pushed path seq) <$>
                        (cons t <$> flat_map leafPaths kids'))) as Hfold.
  { clear IH. induction kids' as [|c cs IHcs]; intros acc Hall; simpl.
    - by rewrite app_nil_r.
    - apply Forall_cons in Hall as [Hc Hcs]. rewrite Hc, (IHcs _ Hcs).
      rewrite <- app_assoc. f_equal. rewrite !fmap_app. f_equal.
      rewrite <- !list_fmap_compose. apply list_fmap_ext. intros _ seq _. simpl.
      unfold currentPath. by rewrite <- !app_assoc. }
  by apply Hfold.
Qed.

Lemma sumSelfPercent_fmap seq :
  sumSelfPercent (toPathNode <$> seq) = pathScore seq.
Proof.
  unfold sumSelfPercent, pathScore. generalize 0%Q.
  induction seq as [|n seq IH]; intros q; simpl; [done|]. apply IH.
Qed.

Lemma traverse_all t : traverse t [] [] = criticalPathOf <$> leafPaths t.
Proof.
  rewrite traverse_spec. simpl. apply list_fmap_ext. intros _ seq _.
  unfold criticalPathOf. by rewrite sumSelfPercent_fmap.
Qed.

Lemma leafPaths_rootToLeaf t : forall seq, seq ∈ leafPaths t <-> rootToLeaf t seq.
Proof.
  induction t as [n u l sT tT sP tP kids IH] using callTree_ind'. intros seq.
  set (t := CallTreeNode.mk n u l sT tT sP tP kids).
  rewrite Forall_forall in IH. split.
  - simpl. destruct kids as [|k ks].
    + intros ->%list_elem_of_singleton. by constructor.
    + intros (seq' & -> & Hseq)%list_elem_of_fmap.
      apply list_elem_of_In, in_flat_map in Hseq as (k' & Hk' & Hseq).
      apply list_elem_of_In in Hk', Hseq.
      apply (rootToLeaf_step t k'); [done|]. by apply IH.
  - intros Hr. inversion Hr as [? Hleaf|? k seq' Hk Hseq]; subst.
    + simpl in Hleaf. subst kids. simpl. set_solver.
    + simpl in Hk. apply IH in Hseq; [|done]. simpl.
      destruct kids as [|k0 ks]; [by apply elem_of_nil in Hk|].
      apply list_elem_of_fmap. exists seq'. split; [done|].
      apply list_elem_of_In, in_flat_map. exists k.
      by rewrite <- !list_elem_of_In.
Qed.

Lemma rootToLeaf_ends t seq :
  rootToLeaf t seq ->
  head seq = Some t
  /\ exists leaf, last seq = Some leaf /\ CallTreeNode.children leaf = [].
Proof.
  induction 1 as [t Hleaf|t k seq Hk Hseq [Hhd (leaf & Hlast & Hl)]].
  - split; [done|]. by exists t.
  - split; [done|]. exists leaf. split; [|done].
    destruct seq as [|x seq]; [done|]. by rewrite last_cons_cons.
Qed.

Lemma byCumulativePercent_spec a b :
  byCumulativePercent a b = true
  <-> (CriticalPath.cumulativePercent b <= CriticalPath.cumulativePercent a)%Q.
Proof. unfold byCumulativePercent. rewrite Qle_bool_iff. split; intros H; lra. Qed.

Lemma byCumulativePercent_total a b :
  byCumulativePercent a b = true \/ byCumulativePercent b a = true.
Proof.
  rewrite !byCumulativePercent_spec.
  destruct (Qlt_le_dec (CriticalPath.cumulativePercent a)
                       (CriticalPath.cumulativePercent b)) as [H|H]; [right|left]; lra.
Qed.

Lemma byCumulativePercent_trans a b c :
  byCumulativePercent a b = true -> byCumulativePercent b c = true ->
  byCumulativePercent a c = true.
Proof. rewrite !byCumulativePercent_spec. intros. lra. Qed.

Lemma jsSlice0_all {A} (stop : Z) (l : list A) :
  Z.of_nat (length l) <= stop -> jsSlice0 stop l = l.
Proof.
  intros H. unfold jsSlice0. apply take_ge.
  destruct (stop <? 0) eqn:Hneg; lia.
Qed.
End CriticalPaths.

(** C7.  For every call tree and [maxPaths]: the traversal records one path
    per leaf, the nodes from the root to that leaf, scored by the sum of the
    self% of the nodes along it; every returned path starts at the root and
    ends at a node without children; the returned list is in non-increasing
    order of the score, holds only recorded paths (all of them when
    [maxPaths] allows), and has at most [maxPaths] entries (default 5; a
    count is not negative). *)
Theorem critical_paths_ranked (callTree : CallTreeNode.t) (maxPaths : Z) :
  traverse callTree [] [] = criticalPathOf <$> leafPaths callTree
  /\ (forall seq, seq ∈ leafPaths callTree <-> rootToLeaf callTree seq)
  /\ (exists sorted,
        sorted ≡ₚ criticalPathOf <$> leafPaths callTree
        /\ findCriticalPaths callTree maxPaths `prefix_of` sorted)
  /\ (forall cp, cp ∈ findCriticalPaths callTree maxPaths ->
        exists seq leaf,
          rootToLeaf callTree seq
          /\ head seq = Some callTree
          /\ last seq = Some leaf /\ CallTreeNode.children leaf = []
          /\ CriticalPath.path cp = toPathNode <$> seq
          /\ CriticalPath.cumulativePercent cp = pathScore seq)
  /\ StronglySorted
       (fun a b => (CriticalPath.cumulativePercent b
                    <= CriticalPath.cumulativePercent a)%Q)
       (findCriticalPaths callTree maxPaths)
  /\ (0 <= maxPaths ->
      Z.of_nat (length (findCriticalPaths callTree maxPaths)) <= maxPaths)
  /\ (Z.of_nat (length (leafPaths callTree)) <= maxPaths ->
      findCriticalPaths callTree maxPaths ≡ₚ criticalPathOf <$> leafPaths callTree).
Proof.
  unfold findCriticalPaths. rewrite traverse_all.
  set (candidates := criticalPathOf <$> leafPaths callTree).
  pose proof (jsSort_perm byCumulativePercent candidates) as Hperm.
  pose proof (jsSlice0_prefix maxPaths (jsSort byCumulativePercent candidates))
    as Hprefix.
  split; [done|]. split; [apply leafPaths_rootToLeaf|].
  split; [by exists (jsSort byCumulativePercent candidates)|].
  split; [|split; [|split]].
  - intros cp Hcp.
    assert (cp ∈ candidates) as (seq & -> & Hseq)%list_elem_of_fmap.
    { rewrite <- Hperm. destruct Hprefix as [rest ->]. set_solver. }
    apply leafPaths_rootToLeaf in Hseq.
    destruct (rootToLeaf_ends _ _ Hseq) as (Hhd & leaf & Hlast & Hleaf).
    by exists seq, leaf.
  - pose proof (jsSort_sorted byCumulativePercent byCumulativePercent_total
                  byCumulativePercent_trans candidates) as Hs.
    destruct Hprefix as [rest Heq]. rewrite Heq in Hs.
    apply StronglySorted_app_1_l in Hs.
    eapply StronglySorted_weaken; [|exact Hs].
    intros a b Hab. by apply byCumulativePercent_spec.
  - apply jsSlice0_length.
  - intros Hall. rewrite jsSlice0_all; [done|].
    rewrite jsSort_length. unfold candidates. by rewrite length_fmap.
Qed.

Lemma critical_paths_ranked_witness :
  length (traverse SampleTree.callTree [] []) = 2%nat
  /\ StronglySorted
       (fun a b => (CriticalPath.cumulativePercent b
                    <= CriticalPath.cumulativePercent a)%Q)
       (findCriticalPaths SampleTree.callTree 1)
  /\ Z.of_nat (length (findCriticalPaths SampleTree.callTree 1)) <= 1
  /\ findCriticalPaths SampleTree.callTree 5
     ≡ₚ criticalPathOf <$> leafPaths SampleTree.callTree.
Proof.
  destruct (critical_paths_ranked SampleTree.callTree 1)
    as (_ & _ & _ & _ & Hsorted & Hlen & _).
  destruct (critical_paths_ranked SampleTree.callTree 5)
    as (_ & _ & _ & _ & _ & _ & Hall).
  split; [reflexivity|]. split; [exact Hsorted|].
  split; [apply Hlen; lia|]. apply Hall. simpl. lia.
Defined.

(** ** The normalizer: how it fails *)

Section ParseErrors.

Lemma bind_Ok_inv {A B} (x : outcome A) (f : A -> outcome B) b :
  x ≫= f = Ok b -> exists a, x = Ok a /\ f a = Ok b.
Proof. unfold mbind, outcome_bind. destruct x as [a|e]; intros H; [by exists a|done]. Qed.

Lemma bind_Fail_inv {A B} (x : outcome A) (f : A -> outcome B) e :
  x ≫= f = Fail e -> x = Fail e \/ exists a, x = Ok a /\ f a = Fail e.
Proof.
  unfold mbind, outcome_bind. destruct x as [a|e']; intros H; [right; by exists a|].
  injection H as ->. by left.
Qed.

Lemma fmap_Fail_inv {A B} (x : outcome A) (f : A -> B) e :
  f <$> x = Fail e -> x = Fail e.
Proof. unfold fmap, outcome_fmap. destruct x; [done|]. by intros [= ->]. Qed.

Lemma getField_fail v k e : getField v k = Fail e -> e = TypeError.
Proof. destruct v; simpl; congruence. Qed.

Lemma getField_Ok v k x : getField v k = Ok x -> x = getOptional v k.
Proof. destruct v; simpl; congruence. Qed.

Lemma typed_fail {A} (x : option A) e : typed x = Fail e -> e = IllTyped.
Proof. destruct x; simpl; congruence. Qed.

Lemma findCpuProfileEvent_fail events e :
  findCpuProfileEvent events = Fail e -> e = TypeError.
Proof.
  induction events as [|event rest IH]; simpl; [done|].
  intros [H|(name & _ & H)]%bind_Fail_inv; [by apply getField_fail in H|].
  destruct (_ || _); [done|auto].
Qed.

Lemma unwrapTraceEvents_fail v e : unwrapTraceEvents v = Fail e -> e = TypeError.
Proof.
  assert (forall events, substituteEvent v <$> findCpuProfileEvent events = Fail e ->
            e = TypeError) as Hfind.
  { intros events H%fmap_Fail_inv. by apply findCpuProfileEvent_fail in H. }
  assert (getField v "traceEvents"
            ≫= (fun traceEvents =>
                  if truthy traceEvents then
                    match traceEvents with
                    | JArr events => substituteEvent v <$> findCpuProfileEvent events
                    | _ => Fail TypeError
                    end
                  else Ok v) = Fail e -> e = TypeError) as Hother.
  { intros [H|(te & _ & H)]%bind_Fail_inv; [by apply getField_fail in H|].
    destruct (truthy te); [|done]. destruct te; try congruence. by apply Hfind in H. }
  destruct v; simpl; auto; apply Hfind.
Qed.

Lemma traverseChildren_fail rec kids :
  (forall child st e, child ∈ kids -> rec child st = Fail e -> e = TypeError) ->
  forall st e, traverseChildren rec kids st = Fail e -> e = TypeError.
Proof.
  induction kids as [|child rest IH]; intros Hrec st e; simpl; [done|].
  intros [H|(r & _ & H)]%bind_Fail_inv; [eapply Hrec; [|exact H]; set_solver|].
  apply bind_Fail_inv in H as [H|(rs & _ & H)]; [|done].
  eapply IH; [|exact H]. intros c st' e' Hc. apply Hrec. set_solver.
Qed.

(** The depth of the value bounds the depth of the recursion: the fuel of
    [linearizeHeadBasedTree] is never exhausted. *)
Lemma jsDepth_elem x xs : x ∈ xs -> (jsDepth x <= list_sum (map jsDepth xs))%nat.
Proof.
  induction xs as [|y ys IH]; intros Hx; [by apply elem_of_nil in Hx|].
  simpl. apply elem_of_cons in Hx as [->|Hx]; [lia|]. specialize (IH Hx). lia.
Qed.

Lemma jsDepth_assoc k fields xs :
  assoc k fields = JArr xs ->
  (jsDepth (JArr xs) <= list_sum (map (fun kv => jsDepth (snd kv)) fields))%nat.
Proof.
  induction fields as [|[k' v] rest IH]; simpl; [done|].
  destruct (decide (k' = k)); [intros ->; simpl; lia|].
  intros H. specialize (IH H). simpl in IH. lia.
Qed.

Lemma traverseHead_fail fuel : forall parentId node st e,
  (jsDepth node <= fuel)%nat ->
  traverseHead fuel parentId node st = Fail e -> e = TypeError.
Proof.
  induction fuel as [|fuel IH]; intros parentId node st e Hfuel; simpl.
  - destruct node; simpl in Hfuel; lia.
  - intros [H|(cf & _ & H)]%bind_Fail_inv; [by apply getField_fail in H|].
    apply bind_Fail_inv in H as [H|(r & _ & H)]; [|done].
    destruct (_ && _); [|done].
    destruct (getOptional node "children") as [| | | | |xs|] eqn:Hkids; try done.
    eapply traverseChildren_fail; [|exact H].
    intros child st' e' Hchild. apply IH.
    destruct node as [| | | | | |fields]; simpl in Hkids; try done.
    pose proof (jsDepth_assoc _ _ _ Hkids) as Hsum.
    pose proof (jsDepth_elem _ _ Hchild) as Hx. simpl in Hsum, Hfuel. lia.
Qed.

Lemma unwrapProfile_fail v e : unwrapProfile v = Fail e -> e = TypeError.
Proof.
  unfold unwrapProfile.
  intros [H|(w & _ & H)]%bind_Fail_inv; [by apply unwrapTraceEvents_fail in H|].
  unfold linearizeIfHead in H.
  apply bind_Fail_inv in H as [H|(head & _ & H)]; [by apply getField_fail in H|].
  destruct (_ && _); [|done].
  apply bind_Fail_inv in H as [H|(ns & _ & H)]; [|by destruct w].
  unfold linearizeHeadBasedTree in H.
  apply bind_Fail_inv in H as [H|(r & _ & H)]; [|done].
  by apply traverseHead_fail in H.
Qed.

Lemma unwrapProfile_plain fields :
  truthy (assoc "traceEvents" fields) = false ->
  truthy (assoc "head" fields) = false ->
  unwrapProfile (JObj fields) = Ok (JObj fields).
Proof.
  intros Hte Hhead. unfold unwrapProfile. simpl. rewrite Hte. simpl.
  unfold linearizeIfHead. simpl. by rewrite Hhead.
Qed.

Lemma requireArray_eq w k :
  requireArray w k
  = match getOptional w k with
    | JArr xs => Ok xs
    | _ => Fail (MissingField k)
    end.
Proof.
  unfold requireArray. destruct (getOptional w k); simpl; try done;
    by rewrite orb_true_r.
Qed.

Lemma requireArray_Ok w k xs : requireArray w k = Ok xs <-> getOptional w k = JArr xs.
Proof.
  rewrite requireArray_eq. destruct (getOptional w k); split; congruence.
Qed.

Lemma requireArray_fail w k e :
  requireArray w k = Fail e <-> e = MissingField k /\ lacks w k.
Proof.
  rewrite requireArray_eq. unfold lacks.
  destruct (getOptional w k) as [| | | | |xs|]; split;
    try (intros [= <-]; split; [done|congruence]); try (by intros [-> _]); try done.
  intros [_ H]. by destruct (H xs).
Qed.

Lemma lacks_dec w k : lacks w k \/ ~ lacks w k.
Proof.
  unfold lacks. destruct (getOptional w k) as [| | | | |xs|];
    try (left; intros; discriminate).
  right. intros H. by apply (H xs).
Qed.

Lemma requireArray_cases w k :
  (exists xs, requireArray w k = Ok xs /\ ~ lacks w k)
  \/ (requireArray w k = Fail (MissingField k) /\ lacks w k).
Proof.
  destruct (requireArray w k) as [xs|e] eqn:H.
  - left. exists xs. split; [done|]. apply requireArray_Ok in H.
    intros Hl. by apply (Hl xs).
  - right. apply requireArray_fail in H as [-> Hl]. by split.
Qed.

Lemma validateProfile_fail w e :
  validateProfile w = Fail e <-> exists f, e = MissingField f /\ firstLacking w f.
Proof.
  unfold validateProfile, firstLacking.
  destruct (requireArray_cases w "nodes") as [(ns & -> & Hn)|[-> Hn]]; simpl.
  - destruct (requireArray_cases w "samples") as [(ss & -> & Hs)|[-> Hs]]; simpl.
    + destruct (requireArray_cases w "timeDeltas") as [(ds & -> & Hd)|[-> Hd]]; simpl.
      * split; [done|]. intros (f & _ & [[_ ?]|[(_ & _ & ?)|(_ & _ & _ & ?)]]); done.
      * split.
        -- intros [= <-]. exists "timeDeltas". split; [done|]. right. right. done.
        -- intros (f & -> & [[-> ?]|[(-> & _ & ?)|(-> & _)]]); done.
    + split.
      * intros [= <-]. exists "samples". split; [done|]. right. left. done.
      * intros (f & -> & [[-> ?]|[(-> & _)|(-> & _ & ? & _)]]); done.
  - split.
    + intros [= <-]. exists "nodes". split; [done|]. by left.
    + intros (f & -> & [[-> _]|[(-> & ? & _)|(-> & ? & _)]]); done.
Qed.

Lemma parseProfile_fail v w e :
  unwrapProfile v = Ok w ->
  parseProfile (Some v) = Fail e ->
  validateProfile w = Fail e \/ e = IllTyped.
Proof.
  intros Hw. simpl. rewrite Hw. simpl.
  intros [H|(fields & _ & H)]%bind_Fail_inv; [by left|]. right.
  repeat (apply bind_Fail_inv in H as [H|(? & _ & H)];
          [by apply typed_fail in H|]).
  done.
Qed.
End ParseErrors.

(** C8, with the order of the checks.  The normalizer fails with the
    invalid-JSON error exactly when the text is not parseable JSON.  When
    the unwrapping of the parsed value (trace-event container, legacy head
    tree) yields a working value, the normalizer fails with a missing-field
    error exactly when the working value lacks one of the three required
    sequences, and the error names [f] exactly when [f] is the first of
    [nodes], [samples], [timeDeltas] that it lacks; so a working value with
    a node sequence and no sample sequence fails naming [samples].  A JSON
    object without [traceEvents] and [head] is its own working value. *)
Theorem parse_failures :
  (forall parsed, parseProfile parsed = Fail InvalidJSON <-> parsed = None)
  /\ (forall v w, unwrapProfile v = Ok w ->
        ((exists f, parseProfile (Some v) = Fail (MissingField f))
         <-> (lacks w "nodes" \/ lacks w "samples" \/ lacks w "timeDeltas")))
  /\ (forall v w f, unwrapProfile v = Ok w ->
        (parseProfile (Some v) = Fail (MissingField f) <-> firstLacking w f))
  /\ (forall v w xs, unwrapProfile v = Ok w ->
        getOptional w "nodes" = JArr xs -> lacks w "samples" ->
        parseProfile (Some v) = Fail (MissingField "samples"))
  /\ (forall fields,
        truthy (assoc "traceEvents" fields) = false ->
        truthy (assoc "head" fields) = false ->
        unwrapProfile (JObj fields) = Ok (JObj fields)).
Proof.
  assert (forall v w f, unwrapProfile v = Ok w ->
            (parseProfile (Some v) = Fail (MissingField f) <-> firstLacking w f))
    as Hmissing.
  { intros v w f Hw. split.
    - intros H. destruct (parseProfile_fail v w _ Hw H) as [Hv|?]; [|done].
      apply validateProfile_fail in Hv as (f' & Heq & Hf'). by injection Heq as ->.
    - intros H. assert (validateProfile w = Fail (MissingField f)) as Hv
        by (apply validateProfile_fail; eauto).
      simpl. rewrite Hw. simpl. by rewrite Hv. }
  split; [|split; [|split; [exact Hmissing|split; [|exact unwrapProfile_plain]]]].
  - intros [v|]; [|done]. split; [|done]. intros H. exfalso.
    destruct (unwrapProfile v) as [w|e] eqn:Hw.
    + destruct (parseProfile_fail v w _ Hw H) as [Hv|?]; [|done].
      by apply validateProfile_fail in Hv as (f & ? & _).
    + simpl in H. rewrite Hw in H. simpl in H. injection H as ->.
      by apply unwrapProfile_fail in Hw.
  - intros v w Hw. split.
    + intros [f Hf]. apply (Hmissing v w f Hw) in Hf.
      destruct Hf as [[_ ?]|[(_ & _ & ?)|(_ & _ & _ & ?)]]; auto.
    + intros Hlacks.
      destruct (lacks_dec w "nodes") as [Hn|Hn];
        [exists "nodes"; apply (Hmissing v w _ Hw); left; done|].
      destruct (lacks_dec w "samples") as [Hs|Hs];
        [exists "samples"; apply (Hmissing v w _ Hw); right; left; done|].
      destruct Hlacks as [?|[?|Hd]]; [done|done|].
      exists "timeDeltas". apply (Hmissing v w _ Hw). right. right. done.
  - intros v w xs Hw Hnodes Hsamples. apply (Hmissing v w _ Hw).
    right. left. split; [done|]. split; [|done]. intros H. by apply (H xs).
Qed.

Lemma parse_failures_witness :
  parseProfile (Some (JObj [("nodes", JArr []); ("startTime", JNum 1000)]))
  = Fail (MissingField "samples").
Proof.
  destruct parse_failures as (_ & _ & _ & Hsamples & Hplain).
  apply (Hsamples _ (JObj [("nodes", JArr []); ("startTime", JNum 1000)]) []).
  - apply Hplain; reflexivity.
  - reflexivity.
  - intros xs. discriminate.
Defined.

(** C8, as stated, fails: the JSON text [null] lacks every required
    sequence and the normalizer ends with a [TypeError], not with the
    missing-field error; and the JSON text [{}] lacks the sample sequence
    and the error names [nodes]. *)
Lemma parse_failures_counterexample :
  ~ (forall v,
       (exists f, parseProfile (Some v) = Fail (MissingField f))
       <-> (lacks v "nodes" \/ lacks v "samples" \/ lacks v "timeDeltas"))
  /\ ~ (forall v, lacks v "samples" ->
          parseProfile (Some v) = Fail (MissingField "samples"))
  /\ parseProfile (Some JNull) = Fail TypeError
  /\ parseProfile (Some (JObj [])) = Fail (MissingField "nodes").
Proof.
  split; [|split; [|split; reflexivity]].
  - intros H. destruct (proj2 (H JNull)) as [f Hf]; [|discriminate Hf].
    left. intros xs. discriminate.
  - intros H. specialize (H (JObj [])). discriminate H. intros xs. discriminate.
Qed.

(** ** The legacy nested records *)

(** [traverse] pushes a node after its children: the root ends up last. *)
Lemma linearizeHeadBasedTree_root_last head ns :
  linearizeHeadBasedTree head = Ok ns ->
  exists kids, last ns = Some (cpuNodeOf 1 head None kids).
Proof.
  unfold linearizeHeadBasedTree. intros (r & Hr & [= <-])%bind_Ok_inv.
  destruct (jsDepth head) as [|fuel]; [done|]. simpl in Hr.
  apply bind_Ok_inv in Hr as (cf & _ & Hr).
  apply bind_Ok_inv in Hr as (r' & _ & [= <-]). simpl.
  exists r'.1. apply last_snoc.
Qed.

(** C3 does not hold.  The nested records and the flat table of
    one tree (a root with one child) are normalized to the same nodes,
    samples and time deltas, the nodes in a different order; the analysis
    takes the first node for the root, and the call trees and the critical
    paths of the two results differ. *)
Theorem legacy_and_flat_results_differ :
  exists pl pf rl rf,
    parseProfile (Some Legacy.nested) = Ok pl
    /\ parseProfile (Some Legacy.flat) = Ok pf
    /\ Profile.nodes pl ≡ₚ Profile.nodes pf
    /\ Profile.samples pl = Profile.samples pf
    /\ Profile.timeDeltas pl = Profile.timeDeltas pf
    /\ parseAndAnalyze (Some Legacy.nested) defaultOptions = Ok rl
    /\ parseAndAnalyze (Some Legacy.flat) defaultOptions = Ok rf
    /\ AnalysisResult.totalTime rl = AnalysisResult.totalTime rf
    /\ CallTreeNode.name (AnalysisResult.callTree rl) = "work"
    /\ CallTreeNode.children (AnalysisResult.callTree rl) = []
    /\ CallTreeNode.name (AnalysisResult.callTree rf) = "(root)"
    /\ AnalysisResult.callTree rl <> AnalysisResult.callTree rf
    /\ (length ∘ CriticalPath.path <$> AnalysisResult.criticalPaths rl) = [1%nat]
    /\ (length ∘ CriticalPath.path <$> AnalysisResult.criticalPaths rf) = [2%nat].
Proof.
  eexists _, _, _, _.
  split; [vm_compute; reflexivity|]. split; [vm_compute; reflexivity|].
  split; [apply Permutation_swap|]. split; [reflexivity|]. split; [reflexivity|].
  split; [vm_compute; reflexivity|]. split; [vm_compute; reflexivity|].
  repeat (split; [reflexivity|]). split; [discriminate|]. split; reflexivity.
Qed.

(** C9 does not hold.  On a profile without samples the analysis
    returns: the total time is zero, the percentages are zero, the hotspot
    list is empty; and the mean sample interval is the quotient of zero by
    zero. *)
Theorem no_samples_mean_interval :
  exists r,
    analyzeProfile Idle.profile defaultOptions = Ok r
    /\ AnalysisResult.totalTime r = 0
    /\ AnalysisResult.totalSamples r = 0
    /\ Forall (fun s => FunctionStats.selfPercent s = 0%Q
                        /\ FunctionStats.totalPercent s = 0%Q)
              (AnalysisResult.functionStats r)
    /\ AnalysisResult.hotspots r = []
    /\ length (AnalysisResult.criticalPaths r) = 2%nat
    /\ AnalysisResult.sampleInterval r = NaN.
Proof.
  eexists. split; [vm_compute; reflexivity|].
  repeat (split; [reflexivity|]).
  split; [|repeat split].
  repeat (apply Forall_cons; split; [by split|]). apply Forall_nil_2.
Qed.

(** The mean sample interval of any profile without samples. *)
Lemma sampleInterval_without_samples p o r :
  Profile.samples p = [] -> Profile.timeDeltas p = [] ->
  analyzeProfile p o = Ok r ->
  AnalysisResult.sampleInterval r = NaN.
Proof.
  intros Hs Hd (sm & hm & tm & _ & _ & _ & -> & _)%analyzeProfile_inv.
  unfold profileTotalTime. by rewrite Hs, Hd.
Qed.

(** ** The analysis of a table that describes a tree returns *)

Section AnalysisReturns.

Lemma mapM_outcome_Ok {A B} (f : A -> outcome B) l :
  (forall x, x ∈ l -> exists y, f x = Ok y) -> exists ys, mapM f l = Ok ys.
Proof.
  induction l as [|x l IH]; intros Hall.
  - by exists [].
  - destruct (Hall x) as [y Hy]; [set_solver|].
    destruct IH as [ys Hys]; [intros; apply Hall; set_solver|].
    exists (y :: ys). simpl. rewrite Hy. simpl. by rewrite Hys.
Qed.

Lemma buildNode_times nodeMap sm tm totalTime fuel nodeId t :
  buildNode nodeMap sm tm totalTime fuel nodeId = Ok t ->
  CallTreeNode.selfTime t = getOr0 sm nodeId
  /\ CallTreeNode.totalTime t = getOr0 tm nodeId.
Proof.
  destruct fuel as [|fuel]; simpl; [done|].
  destruct (nodeMap !! nodeId) as [node|]; [|done].
  intros (kids & _ & [= <-])%bind_Ok_inv. done.
Qed.

Lemma subtrees_length s : length (subtrees s) = shapeSize s.
Proof.
  induction s as [r ks IH] using shape_tree_ind. simpl. f_equal.
  induction ks as [|k ks IHks]; simpl; [done|].
  apply Forall_cons in IH as [Hk Hks]. rewrite length_app, Hk. f_equal. auto.
Qed.

Context (T : shape) (ns : list Node.t) (Htable : tree_table T ns).
Context (sm tm : gmap Z Z) (totalTime : Z).

Lemma buildNode_tree s : forall fuel,
  s ∈ subtrees T -> (shapeSize s <= fuel)%nat ->
  exists t, buildNode (buildNodeMap ns) sm tm totalTime fuel (shapeRoot s) = Ok t.
Proof.
  induction s as [r ks IH] using shape_tree_ind. intros fuel Hs Hfuel.
  destruct fuel as [|fuel]; [simpl in Hfuel; lia|].
  destruct (table_node T ns Htable _ Hs) as (node & _ & _ & HG & Hkids).
  simpl in HG, Hkids |- *. rewrite HG, Hkids.
  destruct (mapM_outcome_Ok
              (buildNode (buildNodeMap ns) sm tm totalTime fuel) (shapeRoot <$> ks))
    as [kids Hk].
  - intros x (k & -> & Hin)%list_elem_of_fmap.
    rewrite Forall_forall in IH. apply IH; [done| |].
    + eapply subtrees_trans; [exact Hs|].
      apply (subtrees_kid (Shape r ks) k Hin), subtrees_self.
    + pose proof (shapeSize_kid (Shape r ks) k Hin) as Hlt. simpl in Hlt, Hfuel. lia.
  - rewrite Hk. simpl. by eexists.
Qed.

Lemma table_size : size (buildNodeMap ns) = shapeSize T.
Proof.
  destruct Htable as (Hnd & Hperm & _).
  rewrite <- size_dom.
  assert (dom (buildNodeMap ns) = list_to_set (Node.id <$> ns)) as ->.
  { apply set_eq. intros x. rewrite buildNodeMap_dom. set_solver. }
  rewrite size_list_to_set by done.
  by rewrite Hperm, length_fmap, subtrees_length.
Qed.

Lemma buildCallTree_tree rootNode :
  head ns = Some rootNode -> Node.id rootNode = shapeRoot T ->
  exists t, buildCallTree (buildNodeMap ns) sm tm totalTime (head ns) = Ok t.
Proof.
  intros -> Hid. unfold buildCallTree. rewrite Hid.
  apply buildNode_tree; [apply subtrees_self|]. rewrite table_size. lia.
Qed.
End AnalysisReturns.

Lemma analyzeProfile_returns (p : Profile.t) (T : shape) (o : AnalyzeOptions.t) rootNode :
  tree_table T (Profile.nodes p) ->
  head (Profile.nodes p) = Some rootNode -> Node.id rootNode = shapeRoot T ->
  length (Profile.samples p) = length (Profile.timeDeltas p) ->
  exists r, analyzeProfile p o = Ok r.
Proof.
  intros Htable Hhead Hroot Hlen.
  destruct (computeSelfTime_ok p Hlen) as (sm & hm & Hself).
  destruct (computeTotalTimeState_run (Profile.nodes p) sm) as (st & Hrun & _).
  destruct (buildCallTree_tree T _ Htable sm (TotalTime.totalTimeMap st)
              (sumDeltas (Profile.timeDeltas p)) rootNode Hhead Hroot) as [t Ht].
  unfold analyzeProfile. rewrite Hself. simpl.
  unfold computeTotalTime. rewrite Hrun. simpl. rewrite Ht. simpl. by eexists.
Qed.

(** C2.  For every profile whose node table describes a rooted tree (the
    data model: distinct ids, no cycle), whose samples name nodes of the
    table, one per time delta, and whose time deltas are not negative: the
    memoized traversal ends with, for every node,
    total(node) = self(node) + the sum of total(child) over its children;
    no node's total is stored twice; total >= self for every node; and the
    total of the root is the profile total time.  When the table lists the
    root first, the analysis returns, and the total time of its call tree,
    built from the first node, is the profile total time. *)
Theorem total_time_of_tree (p : Profile.t) (T : shape) :
  tree_table T (Profile.nodes p) ->
  length (Profile.samples p) = length (Profile.timeDeltas p) ->
  Forall (fun s => s ∈ (Node.id <$> Profile.nodes p)) (Profile.samples p) ->
  Forall (fun d => 0 <= d) (Profile.timeDeltas p) ->
  exists selfTimeMap hitCountMap st,
    computeSelfTime p = Ok (selfTimeMap, hitCountMap)
    /\ computeTotalTimeState (buildNodeMap (Profile.nodes p)) selfTimeMap
         (Profile.nodes p) = Some st
    /\ (forall node, node ∈ Profile.nodes p ->
          getOr0 (TotalTime.totalTimeMap st) (Node.id node)
          = getOr0 selfTimeMap (Node.id node)
            + sumTotals (TotalTime.totalTimeMap st) (default [] (Node.children node)))
    /\ NoDup (TotalTime.stores st)
    /\ (forall node, node ∈ Profile.nodes p ->
          getOr0 selfTimeMap (Node.id node)
          <= getOr0 (TotalTime.totalTimeMap st) (Node.id node))
    /\ getOr0 (TotalTime.totalTimeMap st) (shapeRoot T) = profileTotalTime p
    /\ (forall rootNode o,
          head (Profile.nodes p) = Some rootNode ->
          Node.id rootNode = shapeRoot T ->
          exists r,
            analyzeProfile p o = Ok r
            /\ AnalysisResult.totalTime r = profileTotalTime p
            /\ CallTreeNode.totalTime (AnalysisResult.callTree r) = profileTotalTime p).
Proof.
  intros Htable Hlen Hin Hpos.
  destruct (computeSelfTime_ok p Hlen) as (selfTimeMap & hitCountMap & Hself).
  pose proof (computeSelfTime_sum p _ _ Hlen (proj1 Htable) Hin Hself) as Hsum.
  destruct (computeTotalTimeState_run (Profile.nodes p) selfTimeMap)
    as (st & Hrun & Hwf & _).
  assert (getOr0 (TotalTime.totalTimeMap st) (shapeRoot T) = profileTotalTime p)
    as Hroot by (by rewrite (root_total T _ _ _ Htable Hrun)).
  exists selfTimeMap, hitCountMap, st. split; [done|]. split; [done|].
  split; [|split; [|split; [|split; [done|]]]].
  - intros node Hnode.
    apply (computeTotalTimeState_sums _ _ _ (table_acyclic T _ Htable) Hrun node Hnode),
      Htable.
  - apply Hwf.
  - intros node Hnode. apply (total_ge_self T _ _ _ Htable Hrun); [|done].
    assert (forall x, 0 <= getOr0 (∅ : gmap Z Z) x) as Hinit.
    { intros x. unfold getOr0. by rewrite lookup_empty. }
    exact (sampleLoop_nonneg (Profile.samples p) 0 (Profile.timeDeltas p) (∅, ∅)
             (selfTimeMap, hitCountMap) Hpos Hinit Hself).
  - intros rootNode o Hhead Hid.
    destruct (analyzeProfile_returns p T o rootNode Htable Hhead Hid Hlen) as [r Hr].
    exists r. split; [done|].
    apply analyzeProfile_inv in Hr
      as (sm & hm & tm & Hself' & Htotal & -> & _ & _ & Htree & _).
    split; [done|].
    rewrite Hself in Hself'. injection Hself' as <- <-.
    unfold computeTotalTime in Htotal. rewrite Hrun in Htotal. injection Htotal as <-.
    rewrite Hhead in Htree. unfold buildCallTree in Htree.
    apply buildNode_times in Htree as [_ ->]. by rewrite Hid.
Qed.

Lemma total_time_of_tree_witness :
  exists selfTimeMap hitCountMap st r,
    computeSelfTime Sample.profile = Ok (selfTimeMap, hitCountMap)
    /\ computeTotalTimeState (buildNodeMap (Profile.nodes Sample.profile)) selfTimeMap
         (Profile.nodes Sample.profile) = Some st
    /\ NoDup (TotalTime.stores st)
    /\ getOr0 (TotalTime.totalTimeMap st) 1 = 53
    /\ analyzeProfile Sample.profile defaultOptions = Ok r
    /\ CallTreeNode.totalTime (AnalysisResult.callTree r) = 53.
Proof.
  destruct (total_time_of_tree Sample.profile Sample.tree)
    as (selfTimeMap & hitCountMap & st & Hself & Hrun & _ & Hstores & _ & Hroot & Htree).
  - apply sample_tree_table.
  - reflexivity.
  - simpl. repeat (apply Forall_cons; split; [set_solver|]). apply Forall_nil_2.
  - simpl. repeat (apply Forall_cons; split; [lia|]). apply Forall_nil_2.
  - destruct (Htree Sample.rootNode defaultOptions eq_refl eq_refl)
      as (r & Hr & _ & Hcall).
    exists selfTimeMap, hitCountMap, st, r. auto 10.
Defined.

(** C1.  For every profile (a node table with distinct ids, and a sample
    sequence of as many ids of the table as there are time deltas), the self
    time that [analyzeProfile] attributes to the nodes, summed over all
    nodes, is the profile total time: the sum of all time deltas.  The self
    times of the function statistics of the result add up to the same. *)
Theorem self_time_sums_to_total_time (p : Profile.t) :
  length (Profile.samples p) = length (Profile.timeDeltas p) ->
  NoDup (Node.id <$> Profile.nodes p) ->
  Forall (fun s => s ∈ (Node.id <$> Profile.nodes p)) (Profile.samples p) ->
  exists selfTimeMap hitCountMap,
    computeSelfTime p = Ok (selfTimeMap, hitCountMap)
    /\ sumSelfTime selfTimeMap (Profile.nodes p) = profileTotalTime p
    /\ (forall o r, analyzeProfile p o = Ok r ->
          AnalysisResult.totalTime r = profileTotalTime p
          /\ sumStatsSelfTime (AnalysisResult.functionStats r)
             = AnalysisResult.totalTime r).
Proof.
  intros Hlen Hnd Hin.
  destruct (computeSelfTime_ok p Hlen) as (selfTimeMap & hitCountMap & Hrun).
  pose proof (computeSelfTime_sum p selfTimeMap hitCountMap Hlen Hnd Hin Hrun) as Hsum.
  exists selfTimeMap, hitCountMap. split; [exact Hrun|]. split; [exact Hsum|].
  intros o r (sm & hm & tm & Hself & _ & -> & _ & -> & _)%analyzeProfile_inv.
  split; [done|].
  rewrite Hrun in Hself. injection Hself as <- <-.
  by rewrite aggregateFunctionStats_sum.
Qed.

Lemma self_time_sums_to_total_time_witness :
  exists selfTimeMap hitCountMap r,
    computeSelfTime Sample.profile = Ok (selfTimeMap, hitCountMap)
    /\ sumSelfTime selfTimeMap (Profile.nodes Sample.profile) = 53
    /\ analyzeProfile Sample.profile defaultOptions = Ok r
    /\ sumStatsSelfTime (AnalysisResult.functionStats r) = 53.
Proof.
  destruct (self_time_sums_to_total_time Sample.profile)
    as (selfTimeMap & hitCountMap & Hrun & Hsum & Hresult).
  - reflexivity.
  - apply sample_tree_table.
  - simpl. repeat (apply Forall_cons; split; [set_solver|]). apply Forall_nil_2.
  - destruct (analyzeProfile Sample.profile defaultOptions) as [r|e] eqn:Hr;
      [|vm_compute in Hr; discriminate].
    destruct (Hresult defaultOptions r Hr) as [Htotal Hstats].
    exists selfTimeMap, hitCountMap, r.
    split; [done|]. split; [exact Hsum|]. split; [done|].
    by rewrite Hstats, Htotal.
Defined.


(** * Part III: further properties of the analysis, of the parser and of the
    expressions of the reports ([src/formatter]) that read the result *)

(** ** Self time and hit count of one node *)

Lemma sampleLoop_node (k : Z) ss : forall i deltas st st',
  sampleLoop ss i deltas st = Ok st' ->
  getOr0 st'.1 k = getOr0 st.1 k + sumDeltas (sampledDeltas k ss (drop i deltas))
  /\ getOr0 st'.2 k = getOr0 st.2 k + occurrences k ss
  /\ (is_Some (st'.1 !! k) <-> is_Some (st.1 !! k) \/ k ∈ ss)
  /\ (is_Some (st'.2 !! k) <-> is_Some (st.2 !! k) \/ k ∈ ss).
Proof.
  induction ss as [|s ss IH]; intros i deltas st st' Hrun; simpl in Hrun.
  - injection Hrun as <-. unfold sampledDeltas, occurrences, sumDeltas. simpl.
    split; [lia|]. split; [lia|]. split; (split; [auto|intros [?|?%elem_of_nil]; done]).
  - destruct (deltas !! i) as [d|] eqn:Hd; [|done].
    destruct (IH _ _ _ _ Hrun) as (Hself & Hhit & Hdom1 & Hdom2).
    rewrite (drop_S _ _ _ Hd).
    rewrite Hself, Hhit, Hdom1, Hdom2. clear Hself Hhit Hdom1 Hdom2 IH Hrun.
    unfold sampledDeltas, occurrences, sampleStep, getOr0. simpl.
    rewrite !filter_cons. simpl.
    destruct (decide (s = k)) as [->|Hne].
    + rewrite !lookup_insert_eq. rewrite fmap_cons, sumDeltas_cons. simpl.
      split; [lia|]. split; [lia|].
      split; (split; [intros _; right; apply list_elem_of_here|intros _; left; by eexists]).
    + rewrite !lookup_insert_ne by done.
      split; [lia|]. split; [lia|].
      split; (split; [intros [?|?]; [by left|right; by apply list_elem_of_further]
                     |intros [?|[?|?]%elem_of_cons]; [by left|congruence|by right]]).
Qed.


(** ** The function statistics group the nodes by their key *)

Section FirstSeen.

Lemma setAdd_elem (x k : string) (l : list string) :
  x ∈ setAdd k l <-> x = k \/ x ∈ l.
Proof.
  unfold setAdd. destruct (decide (k ∈ l)) as [Hin|Hout].
  - split; [by right|]. intros [->|?]; done.
  - rewrite elem_of_app, list_elem_of_singleton. tauto.
Qed.

Lemma setAdd_NoDup (k : string) (l : list string) : NoDup l -> NoDup (setAdd k l).
Proof.
  intros Hnd. unfold setAdd. destruct (decide (k ∈ l)) as [Hin|Hout]; [done|].
  apply NoDup_app. split; [done|]. split; [|apply NoDup_singleton].
  intros x Hx ->%list_elem_of_singleton. done.
Qed.

Lemma setAdd_fold_elem (x : string) ks : forall l,
  x ∈ fold_left (fun set k => setAdd k set) ks l <-> x ∈ ks \/ x ∈ l.
Proof.
  induction ks as [|k ks IH]; intros l; simpl.
  - split; [by right|]. intros [?%elem_of_nil|?]; done.
  - rewrite IH, setAdd_elem, elem_of_cons. tauto.
Qed.

Lemma setAdd_fold_NoDup ks : forall l,
  NoDup l -> NoDup (fold_left (fun set k => setAdd k set) ks l).
Proof.
  induction ks as [|k ks IH]; intros l Hnd; simpl; [done|].
  by apply IH, setAdd_NoDup.
Qed.

Lemma firstSeen_elem (x : string) ks : x ∈ firstSeen ks <-> x ∈ ks.
Proof.
  unfold firstSeen. rewrite setAdd_fold_elem.
  split; [intros [?|?%elem_of_nil]; done|by left].
Qed.

Lemma firstSeen_NoDup ks : NoDup (firstSeen ks).
Proof. apply setAdd_fold_NoDup, NoDup_nil_2. Qed.

Lemma firstSeen_snoc ks k : firstSeen (ks ++ [k]) = setAdd k (firstSeen ks).
Proof. unfold firstSeen. by rewrite fold_left_app. Qed.

Lemma firstSeen_app ks ks' :
  firstSeen (ks ++ ks') = fold_left (fun set k => setAdd k set) ks' (firstSeen ks).
Proof. unfold firstSeen. by rewrite fold_left_app. Qed.

End FirstSeen.

Section AggregateGroups.
Context (sm tm hm : gmap Z Z) (totalTime : Z) (nm : gmap Z Node.t).

Lemma nodesOfKey_snoc k ms n :
  nodesOfKey k (ms ++ [n])
  = nodesOfKey k ms ++ (if decide (nodeKey n = k) then [n] else []).
Proof.
  unfold nodesOfKey. by rewrite filter_app.
Qed.

Lemma nodesOfKey_none k ms :
  k ∉ (nodeKey <$> ms) -> nodesOfKey k ms = [].
Proof.
  unfold nodesOfKey. induction ms as [|n ms IH]; intros Hk; [done|].
  rewrite fmap_cons in Hk. apply not_elem_of_cons in Hk as [Hne Hk].
  rewrite filter_cons, decide_False by done. by apply IH.
Qed.

(** A record that is in the map when the node [n] is processed. *)
Lemma grouped_step ms n s :
  grouped sm tm hm nm ms s ->
  grouped sm tm hm nm (ms ++ [n])
    (if decide (FunctionStats.key s = nodeKey n) then addNode sm tm hm nm n s else s).
Proof.
  intros (Hself & Htotal & Hhit & Hcallers & Hcallees & first & Hfirst & Hdesc).
  unfold grouped.
  destruct (decide (FunctionStats.key s = nodeKey n)) as [Hk|Hk].
  - change (FunctionStats.key (addNode sm tm hm nm n s)) with (FunctionStats.key s).
    rewrite nodesOfKey_snoc. rewrite decide_True by done.
    rewrite !fmap_app, !sumTotals_app, !concat_app, !firstSeen_app.
    simpl. rewrite !app_nil_r.
    rewrite <- Hself, <- Htotal, <- Hhit, <- Hcallers, <- Hcallees.
    split; [lia|]. split; [lia|]. split; [lia|]. split; [done|]. split; [done|].
    exists first. split; [|exact Hdesc].
    destruct (nodesOfKey (FunctionStats.key s) ms); [done|]. done.
  - rewrite nodesOfKey_snoc. rewrite decide_False by done. rewrite app_nil_r.
    split; [done|]. split; [done|]. split; [done|]. split; [done|]. split; [done|].
    by exists first.
Qed.

(** The record made for a key seen first. *)
Lemma grouped_fresh ms n :
  nodeKey n ∉ (nodeKey <$> ms) ->
  grouped sm tm hm nm (ms ++ [n])
    (addNode sm tm hm nm n (freshStats (nodeKey n) (Node.callFrame n))).
Proof.
  intros Hk. unfold grouped.
  change (FunctionStats.key (addNode sm tm hm nm n
            (freshStats (nodeKey n) (Node.callFrame n)))) with (nodeKey n).
  rewrite nodesOfKey_snoc, decide_True by done.
  rewrite nodesOfKey_none by done. simpl. rewrite !app_nil_r.
  split; [lia|]. split; [lia|]. split; [lia|]. split; [done|]. split; [done|].
  by exists n.
Qed.

Lemma aggregateStep_grouped ms m n :
  FunctionStats.key <$> m = firstSeen (nodeKey <$> ms) ->
  Forall (grouped sm tm hm nm ms) m ->
  FunctionStats.key <$> aggregateStep sm tm hm nm m n
    = firstSeen (nodeKey <$> (ms ++ [n]))
  /\ Forall (grouped sm tm hm nm (ms ++ [n])) (aggregateStep sm tm hm nm m n).
Proof.
  intros Hkeys Hall. unfold aggregateStep, hasKey. fold (nodeKey n).
  rewrite updateStats_keys, (fmap_app nodeKey).
  change (nodeKey <$> [n]) with [nodeKey n]. rewrite firstSeen_snoc. unfold setAdd.
  rewrite <- Hkeys.
  assert (Hold : Forall (grouped sm tm hm nm (ms ++ [n]))
                   (updateStats (nodeKey n) (addNode sm tm hm nm n) m)).
  { unfold updateStats. apply Forall_fmap. eapply Forall_impl; [exact Hall|].
    intros s Hs. simpl. by apply grouped_step. }
  destruct (decide (nodeKey n ∈ FunctionStats.key <$> m)) as [Hin|Hout].
  - rewrite bool_decide_eq_true_2 by done. done.
  - rewrite bool_decide_eq_false_2 by done. rewrite fmap_app. split; [done|].
    unfold updateStats. rewrite fmap_app. apply Forall_app. split; [exact Hold|].
    simpl. rewrite decide_True by done.
    apply Forall_singleton, grouped_fresh. by rewrite <- firstSeen_elem, <- Hkeys.
Qed.

Lemma aggregate_fold_grouped ns :
  FunctionStats.key <$> fold_left (aggregateStep sm tm hm nm) ns []
    = firstSeen (nodeKey <$> ns)
  /\ Forall (grouped sm tm hm nm ns) (fold_left (aggregateStep sm tm hm nm) ns []).
Proof.
  induction ns as [|n ns [Hkeys Hall]] using rev_ind.
  - split; [done|]. constructor.
  - rewrite fold_left_app. simpl. by apply aggregateStep_grouped.
Qed.

Lemma setPercents_grouped ns s :
  grouped sm tm hm nm ns s -> grouped sm tm hm nm ns (setPercents totalTime s).
Proof. by destruct s. Qed.

Lemma aggregateFunctionStats_keys ns :
  FunctionStats.key <$> aggregateFunctionStats sm tm hm totalTime nm ns
  = firstSeen (nodeKey <$> ns).
Proof.
  unfold aggregateFunctionStats. rewrite <- list_fmap_compose.
  rewrite <- (proj1 (aggregate_fold_grouped ns)). by apply list_fmap_ext.
Qed.

Lemma aggregateFunctionStats_grouped ns s :
  s ∈ aggregateFunctionStats sm tm hm totalTime nm ns ->
  grouped sm tm hm nm ns s.
Proof.
  unfold aggregateFunctionStats. intros (s0 & -> & Hs0)%list_elem_of_fmap.
  apply setPercents_grouped.
  by apply (proj1 (Forall_forall _ _) (proj2 (aggregate_fold_grouped ns))).
Qed.

(** Every node is in the group of exactly one key of a duplicate-free list
    that has its key. *)
Lemma groups_cons (m : gmap Z Z) n ns ks :
  NoDup ks ->
  foldr (fun k acc => sumTotals m (Node.id <$> nodesOfKey k (n :: ns)) + acc) 0 ks
  = (if decide (nodeKey n ∈ ks) then getOr0 m (Node.id n) else 0)
    + foldr (fun k acc => sumTotals m (Node.id <$> nodesOfKey k ns) + acc) 0 ks.
Proof.
  induction ks as [|k ks IH]; intros Hnd.
  - rewrite decide_False by apply not_elem_of_nil. done.
  - apply NoDup_cons in Hnd as [Hk Hnd].
    cbn [foldr]. rewrite (IH Hnd). unfold nodesOfKey at 1. rewrite filter_cons.
    fold (nodesOfKey k ns).
    destruct (decide (nodeKey n = k)) as [Heq|Hne].
    + rewrite Heq. rewrite (decide_False (P := k ∈ ks)) by done.
      rewrite (decide_True (P := k ∈ k :: ks)) by apply list_elem_of_here.
      rewrite fmap_cons.
      change (sumTotals m (Node.id n :: (Node.id <$> nodesOfKey k ns)))
        with (getOr0 m (Node.id n) + sumTotals m (Node.id <$> nodesOfKey k ns)).
      lia.
    + destruct (decide (nodeKey n ∈ ks)) as [Hin|Hout].
      * rewrite (decide_True (P := nodeKey n ∈ k :: ks))
          by (by apply list_elem_of_further). lia.
      * rewrite (decide_False (P := nodeKey n ∈ k :: ks)); [lia|].
        intros [?|?]%elem_of_cons; done.
Qed.

Lemma groups_partition (m : gmap Z Z) ns : forall ks,
  NoDup ks -> (forall n, n ∈ ns -> nodeKey n ∈ ks) ->
  foldr (fun k acc => sumTotals m (Node.id <$> nodesOfKey k ns) + acc) 0 ks
  = sumTotals m (Node.id <$> ns).
Proof.
  induction ns as [|n ns IH]; intros ks Hnd Hin.
  - clear Hnd Hin. induction ks as [|k ks IHk]; simpl in *; [done|]. lia.
  - rewrite groups_cons by done.
    rewrite decide_True by (apply Hin; apply list_elem_of_here).
    rewrite IH; [|done|intros; apply Hin; by apply list_elem_of_further].
    by rewrite fmap_cons.
Qed.

Lemma aggregateFunctionStats_hits ns :
  sumStatsHitCount (aggregateFunctionStats sm tm hm totalTime nm ns)
  = sumTotals hm (Node.id <$> ns).
Proof.
  rewrite <- (groups_partition hm ns (firstSeen (nodeKey <$> ns)));
    [|apply firstSeen_NoDup
     |intros n Hn; apply firstSeen_elem; by apply list_elem_of_fmap_2].
  rewrite <- aggregateFunctionStats_keys.
  pose proof (aggregateFunctionStats_grouped ns) as Hall.
  induction (aggregateFunctionStats sm tm hm totalTime nm ns) as [|s l IH]; [done|].
  rewrite fmap_cons. simpl. rewrite IH by (intros; apply Hall; by right).
  destruct (Hall s) as (_ & _ & -> & _); [by left|]. done.
Qed.

Lemma aggregateFunctionStats_percents ns s :
  s ∈ aggregateFunctionStats sm tm hm totalTime nm ns ->
  FunctionStats.selfPercent s = percentOf totalTime (FunctionStats.selfTime s)
  /\ FunctionStats.totalPercent s = percentOf totalTime (FunctionStats.totalTime s).
Proof.
  unfold aggregateFunctionStats. by intros (s0 & -> & _)%list_elem_of_fmap.
Qed.

Lemma percents_add_up (l : list FunctionStats.t) :
  0 < totalTime ->
  (forall s, s ∈ l ->
     FunctionStats.selfPercent s = percentOf totalTime (FunctionStats.selfTime s)) ->
  (sumStatsSelfPercent l == inject_Z (sumStatsSelfTime l) / inject_Z totalTime * 100)%Q.
Proof.
  intros Hpos Hall.
  assert (Hnz : ~ (inject_Z totalTime == 0)%Q).
  { unfold Qeq. simpl. lia. }
  induction l as [|s l IH]; simpl.
  - unfold Qeq. simpl. lia.
  - rewrite IH by (intros; apply Hall; by right).
    rewrite (Hall s) by (by left). unfold percentOf.
    apply Z.ltb_lt in Hpos. rewrite Hpos. rewrite inject_Z_plus. field. exact Hnz.
Qed.

End AggregateGroups.

(** X2.  The function statistics list one record per function key, in the
    order in which the keys first occur in the node table.  Each record
    adds up the self time, the total time and the hit count of the nodes
    that have its key, lists the distinct keys of their parents and of
    their children in the order met, names the call frame of the first of
    those nodes, and has the two percentages of its own times. *)
Theorem function_stats_group_the_nodes (sm tm hm : gmap Z Z) (totalTime : Z)
    (nm : gmap Z Node.t) (ns : list Node.t) :
  let functionStats := aggregateFunctionStats sm tm hm totalTime nm ns in
  FunctionStats.key <$> functionStats = firstSeen (nodeKey <$> ns)
  /\ NoDup (FunctionStats.key <$> functionStats)
  /\ (forall k, k ∈ (FunctionStats.key <$> functionStats) <-> k ∈ (nodeKey <$> ns))
  /\ (forall s, s ∈ functionStats ->
        grouped sm tm hm nm ns s
        /\ FunctionStats.selfPercent s = percentOf totalTime (FunctionStats.selfTime s)
        /\ FunctionStats.totalPercent s
           = percentOf totalTime (FunctionStats.totalTime s)).
Proof.
  intros functionStats. subst functionStats.
  rewrite aggregateFunctionStats_keys.
  split; [done|]. split; [apply firstSeen_NoDup|].
  split; [intros k; apply firstSeen_elem|].
  intros s Hs.
  split; [exact (aggregateFunctionStats_grouped sm tm hm totalTime nm ns s Hs)|].
  by apply (aggregateFunctionStats_percents sm tm hm totalTime nm ns).
Qed.

Lemma analyzeProfile_samples p o r :
  analyzeProfile p o = Ok r ->
  AnalysisResult.totalSamples r = Z.of_nat (length (Profile.samples p))
  /\ AnalysisResult.startTime r = Profile.startTime p
  /\ AnalysisResult.endTime r = Profile.endTime p.
Proof.
  unfold analyzeProfile. intros H.
  destruct (computeSelfTime p) as [[selfTimeMap hitCountMap]|e]; [|done].
  simpl in H.
  destruct (computeTotalTime _ _ _) as [totalTimeMap|]; [|done].
  destruct (buildCallTree _ _ _ _ _) as [callTree|e]; [|done].
  simpl in H. by injection H as <-.
Qed.

Lemma sampleLoop_hits ns ss : forall i deltas st st',
  NoDup (Node.id <$> ns) ->
  Forall (fun s => s ∈ (Node.id <$> ns)) ss ->
  sampleLoop ss i deltas st = Ok st' ->
  sumTotals st'.2 (Node.id <$> ns)
  = sumTotals st.2 (Node.id <$> ns) + Z.of_nat (length ss).
Proof.
  induction ss as [|s ss IH]; intros i deltas st st' Hnd Hin Hrun; simpl in Hrun.
  - injection Hrun as <-. simpl. lia.
  - destruct (deltas !! i) as [d|] eqn:Hd; [|done].
    apply Forall_cons in Hin as [Hs Hin].
    rewrite (IH _ _ _ _ Hnd Hin Hrun). simpl.
    rewrite sumTotals_insert by done. lia.
Qed.


(** ** [rebuildChildrenFromParent] *)

Section Dedup.

Lemma dedup_addSeen xs : dedup xs = fold_left addSeen xs [].
Proof. reflexivity. Qed.

Lemma addSeen_fold_elem (x : Z) xs : forall seen,
  x ∈ fold_left addSeen xs seen <-> x ∈ xs \/ x ∈ seen.
Proof.
  induction xs as [|y xs IH]; intros seen; simpl.
  - split; [by right|]. intros [?%elem_of_nil|?]; done.
  - rewrite IH, elem_of_cons. unfold addSeen.
    destruct (decide (y ∈ seen)) as [Hin|Hout].
    + split; [tauto|]. intros [[->|?]|?]; auto.
    + rewrite elem_of_app, list_elem_of_singleton. tauto.
Qed.

Lemma addSeen_fold_NoDup xs : forall seen,
  NoDup seen -> NoDup (fold_left addSeen xs seen).
Proof.
  induction xs as [|y xs IH]; intros seen Hnd; simpl; [done|].
  apply IH. unfold addSeen. destruct (decide (y ∈ seen)) as [Hin|Hout]; [done|].
  apply NoDup_app. split; [done|]. split; [|apply NoDup_singleton].
  intros x Hx ->%list_elem_of_singleton. done.
Qed.

Lemma addSeen_fold_fresh xs : forall seen,
  NoDup xs -> (forall x, x ∈ xs -> x ∉ seen) ->
  fold_left addSeen xs seen = seen ++ xs.
Proof.
  induction xs as [|y xs IH]; intros seen Hnd Hout; simpl; [by rewrite app_nil_r|].
  apply NoDup_cons in Hnd as [Hy Hnd].
  unfold addSeen at 2. rewrite decide_False by (apply Hout; apply list_elem_of_here).
  rewrite IH; [by rewrite <- app_assoc|done|].
  intros x Hx [Hin | ->%list_elem_of_singleton]%elem_of_app; [|done].
  by apply (Hout x); [apply list_elem_of_further|].
Qed.

Lemma addSeen_fold_seen xs : forall seen,
  (forall x, x ∈ xs -> x ∈ seen) -> fold_left addSeen xs seen = seen.
Proof.
  induction xs as [|y xs IH]; intros seen Hin; simpl; [done|].
  unfold addSeen at 2. rewrite decide_True by (apply Hin; apply list_elem_of_here).
  apply IH. intros x Hx. apply Hin. by apply list_elem_of_further.
Qed.

Lemma addSeen_fold_prefix xs : forall seen,
  exists rest, fold_left addSeen xs seen = seen ++ rest.
Proof.
  induction xs as [|y xs IH]; intros seen; simpl; [exists []; by rewrite app_nil_r|].
  unfold addSeen at 2. destruct (decide (y ∈ seen)) as [Hin|Hout]; [apply IH|].
  destruct (IH (seen ++ [y])) as [rest ->]. exists (y :: rest). by rewrite <- app_assoc.
Qed.

Lemma dedup_elem (x : Z) xs : x ∈ dedup xs <-> x ∈ xs.
Proof.
  rewrite dedup_addSeen, addSeen_fold_elem.
  split; [intros [?|?%elem_of_nil]; done|by left].
Qed.

Lemma dedup_NoDup xs : NoDup (dedup xs).
Proof. apply addSeen_fold_NoDup, NoDup_nil_2. Qed.

Lemma dedup_id xs : NoDup xs -> dedup xs = xs.
Proof.
  intros Hnd. rewrite dedup_addSeen, addSeen_fold_fresh; [done|done|].
  intros x _. apply not_elem_of_nil.
Qed.

Lemma dedup_app xs ys : dedup (xs ++ ys) = fold_left addSeen ys (dedup xs).
Proof. by rewrite !dedup_addSeen, fold_left_app. Qed.

Lemma dedup_app_dedup xs ys : dedup (dedup xs ++ ys) = dedup (xs ++ ys).
Proof. by rewrite !dedup_app, (dedup_id (dedup xs)) by apply dedup_NoDup. Qed.

Lemma dedup_absorb xs ys : dedup (xs ++ dedup (xs ++ ys)) = dedup (xs ++ ys).
Proof.
  pose proof (dedup_NoDup (xs ++ ys)) as Hnd.
  rewrite (dedup_app xs (dedup _)).
  rewrite (dedup_app xs ys) in Hnd |- *.
  destruct (addSeen_fold_prefix ys (dedup xs)) as [rest Hrest].
  rewrite Hrest in Hnd |- *.
  rewrite fold_left_app, (addSeen_fold_seen (dedup xs) (dedup xs)) by done.
  apply NoDup_app in Hnd as (_ & Hdisj & Hnd).
  apply addSeen_fold_fresh; [done|].
  intros x Hx Hin. by apply (Hdisj x).
Qed.

End Dedup.

Section RebuildKeys.

Lemma mapSet_keys k v m :
  fst <$> mapSet k v m = addSeen (fst <$> m) k.
Proof.
  unfold addSeen. induction m as [|[k' v'] m IH]; simpl; [done|].
  destruct (decide (k' = k)) as [->|Hne].
  - rewrite decide_True by apply list_elem_of_here. done.
  - rewrite fmap_cons, IH. simpl.
    destruct (decide (k ∈ fst <$> m)) as [Hin|Hout].
    + rewrite decide_True by (by apply list_elem_of_further). done.
    + rewrite decide_False; [done|]. intros [?|?]%elem_of_cons; done.
Qed.

Lemma mapSet_elem k v m kv :
  kv ∈ mapSet k v m -> kv = (k, v) \/ kv ∈ m.
Proof.
  induction m as [|[k' v'] m IH]; simpl.
  - intros ->%list_elem_of_singleton. by left.
  - destruct (decide (k' = k)) as [->|Hne].
    + intros [->|?]%elem_of_cons; [by left|right; by apply list_elem_of_further].
    + intros [->|Hin]%elem_of_cons; [right; apply list_elem_of_here|].
      destruct (IH Hin) as [?|?]; [by left|right; by apply list_elem_of_further].
Qed.

Lemma mapGet_elem k v m : mapGet k m = Some v -> (k, v) ∈ m.
Proof.
  induction m as [|[k' v'] m IH]; simpl; [done|].
  destruct (decide (k' = k)) as [->|Hne].
  - intros [= ->]. apply list_elem_of_here.
  - intros H. by apply list_elem_of_further, IH.
Qed.

Lemma mapSet_keys_present k v v' m :
  mapGet k m = Some v' -> fst <$> mapSet k v m = fst <$> m.
Proof.
  intros Hget. rewrite mapSet_keys. unfold addSeen. rewrite decide_True; [done|].
  apply mapGet_elem in Hget. by apply (list_elem_of_fmap_2 fst) in Hget.
Qed.

Lemma mapSet_wf k v cs m :
  rebuilt_wf m -> Node.id v = k -> Node.children v = Some cs -> NoDup cs ->
  rebuilt_wf (mapSet k v m).
Proof.
  intros Hwf Hid Hcs Hnd k' v' [ [= -> ->] | Hin]%mapSet_elem; [|by apply Hwf].
  split; [done|]. by exists cs.
Qed.

Lemma rebuildPass1_keys ns : forall m,
  fst <$> fold_left rebuildPass1 ns m = fold_left addSeen (Node.id <$> ns) (fst <$> m).
Proof.
  induction ns as [|n ns IH]; intros m; simpl; [done|].
  rewrite IH. unfold rebuildPass1. by rewrite mapSet_keys.
Qed.

Lemma rebuildPass1_wf ns : forall m,
  rebuilt_wf m -> rebuilt_wf (fold_left rebuildPass1 ns m).
Proof.
  induction ns as [|n ns IH]; intros m Hwf; simpl; [done|].
  apply IH. unfold rebuildPass1.
  apply (mapSet_wf _ _ []); [done|done|done|apply NoDup_nil_2].
Qed.

Lemma rebuildPass2_inv m node :
  rebuilt_wf m ->
  fst <$> rebuildPass2 m node = fst <$> m /\ rebuilt_wf (rebuildPass2 m node).
Proof.
  intros Hwf. unfold rebuildPass2.
  destruct (Node.parent node) as [p|]; [|done].
  destruct (mapGet p m) as [parentNode|] eqn:Hget; [|done].
  destruct (decide (Node.id node ∈ default [] (Node.children parentNode)))
    as [Hin|Hout]; [done|].
  split; [by apply (mapSet_keys_present _ _ parentNode)|].
  destruct (Hwf p parentNode (mapGet_elem _ _ _ Hget)) as (Hid & cs & Hcs & Hnd).
  apply (mapSet_wf _ _ (default [] (Node.children parentNode) ++ [Node.id node]));
    [done|done|done|].
  rewrite Hcs in Hout |- *. simpl in *.
  apply NoDup_app. split; [done|]. split; [|apply NoDup_singleton].
  intros x Hx ->%list_elem_of_singleton. done.
Qed.

Lemma rebuildPass3_inv m node :
  rebuilt_wf m ->
  fst <$> rebuildPass3 m node = fst <$> m /\ rebuilt_wf (rebuildPass3 m node).
Proof.
  intros Hwf. unfold rebuildPass3.
  destruct (mapGet (Node.id node) m) as [rebuilt|] eqn:Hget; [|done].
  destruct (Node.children node) as [[|c cs]|]; [done| |done].
  split; [by apply (mapSet_keys_present _ _ rebuilt)|].
  destruct (Hwf _ rebuilt (mapGet_elem _ _ _ Hget)) as (Hid & _).
  eapply mapSet_wf; [done|done|reflexivity|apply dedup_NoDup].
Qed.

Lemma rebuild_fold_inv (pass : list (Z * Node.t) -> Node.t -> list (Z * Node.t)) ns :
  (forall m node, rebuilt_wf m ->
     fst <$> pass m node = fst <$> m /\ rebuilt_wf (pass m node)) ->
  forall m, rebuilt_wf m ->
    fst <$> fold_left pass ns m = fst <$> m /\ rebuilt_wf (fold_left pass ns m).
Proof.
  intros Hpass. induction ns as [|n ns IH]; intros m Hwf; simpl; [done|].
  destruct (Hpass m n Hwf) as [Hkeys Hwf']. rewrite <- Hkeys. by apply IH.
Qed.

Lemma rebuilt_wf_ids m : rebuilt_wf m -> Node.id <$> (snd <$> m) = fst <$> m.
Proof.
  induction m as [|[k v] m IH]; intros Hwf; [done|].
  rewrite !fmap_cons. simpl. f_equal.
  - apply (Hwf k v). apply list_elem_of_here.
  - apply IH. intros k' v' Hin. apply Hwf. by apply list_elem_of_further.
Qed.

Lemma rebuildChildrenFromParent_inv ns :
  Node.id <$> rebuildChildrenFromParent ns = dedup (Node.id <$> ns)
  /\ forall node, node ∈ rebuildChildrenFromParent ns ->
       exists cs, Node.children node = Some cs /\ NoDup cs.
Proof.
  unfold rebuildChildrenFromParent.
  assert (Hwf0 : rebuilt_wf []) by (intros k v Hin; by apply elem_of_nil in Hin).
  pose proof (rebuildPass1_wf ns [] Hwf0) as Hwf1.
  destruct (rebuild_fold_inv rebuildPass2 ns rebuildPass2_inv _ Hwf1) as [Hk2 Hwf2].
  destruct (rebuild_fold_inv rebuildPass3 ns rebuildPass3_inv _ Hwf2) as [Hk3 Hwf3].
  split.
  - rewrite (rebuilt_wf_ids _ Hwf3), Hk3, Hk2, rebuildPass1_keys. done.
  - intros node ([k v] & -> & Hin)%list_elem_of_fmap. by apply (Hwf3 k v).
Qed.

End RebuildKeys.

(** X4.  For every node table, also one in which ids repeat, the table that
    [rebuildChildrenFromParent] returns has each id of the input once, in
    the order in which the ids first occur, and every node of it has an
    array of children in which no id repeats. *)
Theorem rebuilt_table_ids (ns : list Node.t) :
  Node.id <$> rebuildChildrenFromParent ns = dedup (Node.id <$> ns)
  /\ NoDup (Node.id <$> rebuildChildrenFromParent ns)
  /\ (forall k, k ∈ (Node.id <$> rebuildChildrenFromParent ns) <-> k ∈ (Node.id <$> ns))
  /\ (forall node, node ∈ rebuildChildrenFromParent ns ->
        exists cs, Node.children node = Some cs /\ NoDup cs).
Proof.
  destruct (rebuildChildrenFromParent_inv ns) as [Hids Hkids].
  rewrite Hids. split; [done|]. split; [apply dedup_NoDup|].
  split; [intros k; apply dedup_elem|exact Hkids].
Qed.
(** The reconstruction on a table with distinct ids *)

Section RebuildTable.

Lemma childrenTable_keys c l : fst <$> childrenTable c l = Node.id <$> l.
Proof. unfold childrenTable. rewrite <- list_fmap_compose. by apply list_fmap_ext. Qed.

Lemma childrenTable_ext c c' l :
  (forall n, n ∈ l -> c (Node.id n) = c' (Node.id n)) ->
  childrenTable c l = childrenTable c' l.
Proof.
  intros H. unfold childrenTable. apply list_fmap_ext.
  intros i n Hn. rewrite (H n); [done|]. by apply list_elem_of_lookup_2 in Hn.
Qed.

Lemma mapGet_None k m : k ∉ (fst <$> m) -> mapGet k m = None.
Proof.
  induction m as [|[k' v'] m IH]; intros Hk; simpl; [done|].
  rewrite fmap_cons in Hk. apply not_elem_of_cons in Hk as [Hne Hk].
  rewrite decide_False by done. by apply IH.
Qed.

Lemma mapSet_fresh k v m : k ∉ (fst <$> m) -> mapSet k v m = m ++ [(k, v)].
Proof.
  induction m as [|[k' v'] m IH]; intros Hk; simpl; [done|].
  rewrite fmap_cons in Hk. apply not_elem_of_cons in Hk as [Hne Hk].
  rewrite decide_False by done. f_equal. by apply IH.
Qed.

Lemma mapGet_childrenTable c l n :
  NoDup (Node.id <$> l) -> n ∈ l ->
  mapGet (Node.id n) (childrenTable c l) = Some (withChildren n (c (Node.id n))).
Proof.
  induction l as [|n0 l IH]; intros Hnd Hn; [by apply elem_of_nil in Hn|].
  rewrite fmap_cons in Hnd. apply NoDup_cons in Hnd as [Hn0 Hnd].
  unfold childrenTable. rewrite fmap_cons. simpl.
  destruct (decide (Node.id n0 = Node.id n)) as [Heq|Hne].
  - apply elem_of_cons in Hn as [->|Hn]; [done|].
    exfalso. apply Hn0. rewrite Heq. by apply list_elem_of_fmap_2.
  - apply elem_of_cons in Hn as [->|Hn]; [done|]. by apply IH.
Qed.

Lemma mapSet_childrenTable c l n cs :
  NoDup (Node.id <$> l) -> n ∈ l ->
  mapSet (Node.id n) (withChildren n cs) (childrenTable c l)
  = childrenTable (setChildren c (Node.id n) cs) l.
Proof.
  induction l as [|n0 l IH]; intros Hnd Hn; [by apply elem_of_nil in Hn|].
  rewrite fmap_cons in Hnd. apply NoDup_cons in Hnd as [Hn0 Hnd].
  unfold childrenTable. rewrite !fmap_cons. simpl.
  fold (childrenTable c l). fold (childrenTable (setChildren c (Node.id n) cs) l).
  unfold setChildren at 1.
  destruct (decide (Node.id n0 = Node.id n)) as [Heq|Hne].
  - assert (n = n0) as ->.
    { apply elem_of_cons in Hn as [->|Hn]; [done|].
      exfalso. apply Hn0. rewrite Heq. by apply list_elem_of_fmap_2. }
    f_equal. apply childrenTable_ext. intros m Hm. unfold setChildren.
    rewrite decide_False; [done|]. intros Hid. apply Hn0. rewrite <- Hid.
    by apply list_elem_of_fmap_2.
  - apply elem_of_cons in Hn as [->|Hn]; [done|]. f_equal. by apply IH.
Qed.

Lemma rebuildPass1_table ns : forall l,
  NoDup (Node.id <$> (l ++ ns)) ->
  fold_left rebuildPass1 ns (childrenTable (fun _ => []) l)
  = childrenTable (fun _ => []) (l ++ ns).
Proof.
  induction ns as [|n ns IH]; intros l Hnd; simpl; [by rewrite app_nil_r|].
  replace (l ++ n :: ns) with ((l ++ [n]) ++ ns) in Hnd |- * by (by rewrite <- app_assoc).
  rewrite <- (IH _ Hnd). f_equal. unfold rebuildPass1.
  rewrite mapSet_fresh.
  - unfold childrenTable. by rewrite fmap_app.
  - rewrite childrenTable_keys. rewrite !fmap_app in Hnd.
    apply NoDup_app in Hnd as (Hnd & _). apply NoDup_app in Hnd as (_ & Hdisj & _).
    intros Hin. apply (Hdisj _ Hin). apply list_elem_of_here.
Qed.

Lemma rebuildPass2_table c l node :
  NoDup (Node.id <$> l) ->
  rebuildPass2 (childrenTable c l) node = childrenTable (declare c node) l.
Proof.
  intros Hnd. unfold rebuildPass2, declare.
  destruct (Node.parent node) as [p|]; [|done].
  destruct (decide (p ∈ Node.id <$> l)) as [Hin|Hout].
  - apply list_elem_of_fmap in Hin as (n & -> & Hn).
    rewrite mapGet_childrenTable by done. simpl. unfold addSeen.
    destruct (decide (Node.id node ∈ c (Node.id n))) as [Hhas|Hnew].
    + apply childrenTable_ext. intros m Hm. unfold setChildren.
      by destruct (decide (Node.id m = Node.id n)) as [->|].
    + by apply (mapSet_childrenTable c l n).
  - rewrite mapGet_None by (by rewrite childrenTable_keys).
    apply childrenTable_ext. intros m Hm. unfold setChildren.
    rewrite decide_False; [done|]. intros Hid. apply Hout. rewrite <- Hid.
    by apply list_elem_of_fmap_2.
Qed.

Lemma rebuildPass2_fold l ms : forall c,
  NoDup (Node.id <$> l) ->
  fold_left rebuildPass2 ms (childrenTable c l)
  = childrenTable (fold_left declare ms c) l.
Proof.
  induction ms as [|m ms IH]; intros c Hnd; simpl; [done|].
  rewrite rebuildPass2_table by done. by apply IH.
Qed.

Lemma declare_fold ms p : forall c,
  fold_left declare ms c p = fold_left addSeen (declaredChildren ms p) (c p).
Proof.
  induction ms as [|m ms IH]; intros c; simpl; [done|].
  rewrite IH. unfold declaredChildren. rewrite filter_cons. unfold declare.
  destruct (Node.parent m) as [q|].
  - destruct (decide (Some q = Some p)) as [[= ->]|Hne].
    + rewrite fmap_cons. simpl. unfold setChildren. by rewrite decide_True.
    + unfold setChildren. rewrite decide_False; [done|]. by intros ->.
  - by rewrite decide_False.
Qed.

Lemma rebuildPass3_table c l node :
  NoDup (Node.id <$> l) -> node ∈ l ->
  rebuildPass3 (childrenTable c l) node = childrenTable (merge c node) l.
Proof.
  intros Hnd Hn. unfold rebuildPass3, merge, mergeOwn.
  rewrite mapGet_childrenTable by done.
  destruct (Node.children node) as [[|x xs]|] eqn:Hcs; [done| |done].
  simpl. by apply (mapSet_childrenTable c l node).
Qed.

Lemma rebuildPass3_fold l ms : forall c,
  NoDup (Node.id <$> l) -> (forall m, m ∈ ms -> m ∈ l) ->
  fold_left rebuildPass3 ms (childrenTable c l)
  = childrenTable (fold_left merge ms c) l.
Proof.
  induction ms as [|m ms IH]; intros c Hnd Hsub; simpl; [done|].
  rewrite rebuildPass3_table; [|done|apply Hsub, list_elem_of_here].
  apply IH; [done|]. intros m' Hm'. by apply Hsub, list_elem_of_further.
Qed.

Lemma merge_other c m k : k <> Node.id m -> merge c m k = c k.
Proof.
  intros Hne. unfold merge. destruct (Node.children m) as [[|x xs]|]; [done| |done].
  unfold setChildren. by rewrite decide_False.
Qed.

Lemma merge_fold_other ms k : forall c,
  k ∉ (Node.id <$> ms) -> fold_left merge ms c k = c k.
Proof.
  induction ms as [|m ms IH]; intros c Hk; simpl; [done|].
  rewrite fmap_cons in Hk. apply not_elem_of_cons in Hk as [Hne Hk].
  rewrite IH by done. by apply merge_other.
Qed.

Lemma merge_own c m : merge c m (Node.id m) = mergeOwn m (c (Node.id m)).
Proof.
  unfold merge, mergeOwn. destruct (Node.children m) as [[|x xs]|]; [done| |done].
  unfold setChildren. by rewrite decide_True.
Qed.

Lemma merge_fold_own ms n : forall c,
  NoDup (Node.id <$> ms) -> n ∈ ms ->
  fold_left merge ms c (Node.id n) = mergeOwn n (c (Node.id n)).
Proof.
  induction ms as [|m ms IH]; intros c Hnd Hn; [by apply elem_of_nil in Hn|].
  rewrite fmap_cons in Hnd. apply NoDup_cons in Hnd as [Hm Hnd]. simpl.
  apply elem_of_cons in Hn as [->|Hn].
  - rewrite merge_fold_other by done. apply merge_own.
  - rewrite IH by done. rewrite merge_other; [done|].
    intros Heq. apply Hm. rewrite <- Heq. by apply list_elem_of_fmap_2.
Qed.

Lemma mergeOwn_dedup n ds :
  mergeOwn n (dedup ds) = dedup (ds ++ default [] (Node.children n)).
Proof.
  unfold mergeOwn. destruct (Node.children n) as [[|x xs]|]; simpl.
  - by rewrite app_nil_r.
  - apply dedup_app_dedup.
  - by rewrite app_nil_r.
Qed.

Lemma rebuildChildrenFromParent_table ns :
  NoDup (Node.id <$> ns) ->
  rebuildChildrenFromParent ns = reconciled ns <$> ns.
Proof.
  intros Hnd. unfold rebuildChildrenFromParent.
  pose proof (rebuildPass1_table ns [] Hnd) as H1. simpl in H1.
  rewrite H1, rebuildPass2_fold, rebuildPass3_fold by done.
  unfold childrenTable. rewrite <- list_fmap_compose.
  apply list_fmap_ext. intros i n Hn. apply list_elem_of_lookup_2 in Hn. simpl.
  unfold reconciled. f_equal.
  rewrite merge_fold_own by done. rewrite declare_fold.
  fold (dedup (declaredChildren ns (Node.id n))). apply mergeOwn_dedup.
Qed.

Lemma declaredChildren_fmap (f : Node.t -> Node.t) ns p :
  (forall n, Node.id (f n) = Node.id n /\ Node.parent (f n) = Node.parent n) ->
  declaredChildren (f <$> ns) p = declaredChildren ns p.
Proof.
  intros Hf. unfold declaredChildren. induction ns as [|n ns IH]; [done|].
  rewrite fmap_cons, !filter_cons. destruct (Hf n) as [Hid Hp]. rewrite Hp.
  destruct (decide (Node.parent n = Some p)); [|done].
  rewrite !fmap_cons, Hid. f_equal. exact IH.
Qed.

End RebuildTable.

(** X5.  On a node table with distinct ids, [rebuildChildrenFromParent]
    keeps the nodes, their order and their fields, and gives each node as
    children the ids of the nodes that name it as parent, in table order,
    followed by the children it came with, each id once.  So an id is a
    child in the result exactly when the node lists it or it is the id of a
    node whose parent field names the node. *)
Theorem rebuilt_children_reconciled (ns : list Node.t) :
  NoDup (Node.id <$> ns) ->
  rebuildChildrenFromParent ns = reconciled ns <$> ns
  /\ forall node c, node ∈ ns ->
       c ∈ default [] (Node.children (reconciled ns node))
       <-> c ∈ default [] (Node.children node)
           \/ exists m, m ∈ ns /\ Node.parent m = Some (Node.id node) /\ Node.id m = c.
Proof.
  intros Hnd. split; [by apply rebuildChildrenFromParent_table|].
  intros node c Hnode. unfold reconciled. simpl.
  rewrite dedup_elem, elem_of_app. unfold declaredChildren.
  rewrite list_elem_of_fmap. split.
  - intros [(m & -> & [Hp Hm]%list_elem_of_filter)|Hc]; [|by left].
    right. by exists m.
  - intros [Hc|(m & Hm & Hp & <-)]; [by right|].
    left. exists m. split; [done|]. by apply list_elem_of_filter.
Qed.

Lemma rebuilt_children_reconciled_witness :
  rebuildChildrenFromParent ParentOnly.nodes
  = [withChildren ParentOnly.child []; withChildren ParentOnly.root [2]].
Proof.
  assert (Hnd : NoDup (Node.id <$> ParentOnly.nodes)).
  { simpl. repeat (apply NoDup_cons; split; [set_solver|]). apply NoDup_nil_2. }
  destruct (rebuilt_children_reconciled ParentOnly.nodes Hnd) as [-> _].
  reflexivity.
Defined.

(** X6.  On a node table with distinct ids the reconstruction is
    idempotent: applied to its own result it changes nothing. *)
Theorem rebuild_idempotent (ns : list Node.t) :
  NoDup (Node.id <$> ns) ->
  rebuildChildrenFromParent (rebuildChildrenFromParent ns)
  = rebuildChildrenFromParent ns.
Proof.
  intros Hnd. rewrite (rebuildChildrenFromParent_table ns Hnd).
  assert (Hids : Node.id <$> (reconciled ns <$> ns) = Node.id <$> ns).
  { rewrite <- list_fmap_compose. by apply list_fmap_ext. }
  rewrite rebuildChildrenFromParent_table by (by rewrite Hids).
  rewrite <- list_fmap_compose. apply list_fmap_ext. intros i n _. simpl.
  unfold reconciled at 1. rewrite declaredChildren_fmap by done.
  unfold reconciled. unfold withChildren. simpl. do 2 f_equal.
  apply dedup_absorb.
Qed.

Lemma rebuild_idempotent_witness :
  rebuildChildrenFromParent (rebuildChildrenFromParent (Profile.nodes Sample.profile))
  = rebuildChildrenFromParent (Profile.nodes Sample.profile).
Proof. apply rebuild_idempotent, sample_tree_table. Defined.
(** ** The call tree *)

Section CallTree.
Context (nm : gmap Z Node.t) (sm tm : gmap Z Z) (totalTime : Z).

Lemma mapM_outcome_inv {A B} (f : A -> outcome B) l : forall ys,
  mapM f l = Ok ys -> Forall2 (fun x y => f x = Ok y) l ys.
Proof.
  induction l as [|x l IH]; intros ys; simpl.
  - intros [= <-]. constructor.
  - intros (y & Hy & (ys' & Hys & [= <-])%bind_Ok_inv)%bind_Ok_inv.
    constructor; [done|by apply IH].
Qed.

Lemma buildNode_inv fuel nodeId t :
  buildNode nm sm tm totalTime fuel nodeId = Ok t ->
  exists fuel' node kids,
    fuel = S fuel' /\ nm !! nodeId = Some node
    /\ Forall2 (fun c k => buildNode nm sm tm totalTime fuel' c = Ok k)
         (default [] (Node.children node)) kids
    /\ t = CallTreeNode.mk
             (CallFrame.functionName (Node.callFrame node))
             (CallFrame.url (Node.callFrame node))
             (CallFrame.lineNumber (Node.callFrame node))
             (getOr0 sm nodeId) (getOr0 tm nodeId)
             (percentOf totalTime (getOr0 sm nodeId))
             (percentOf totalTime (getOr0 tm nodeId))
             (jsSort byTotalTime kids).
Proof.
  destruct fuel as [|fuel]; simpl; [done|].
  destruct (nm !! nodeId) as [node|]; [|done].
  intros (kids & Hkids%mapM_outcome_inv & [= <-])%bind_Ok_inv.
  by exists fuel, node, kids.
Qed.

Lemma byTotalTime_spec a b :
  byTotalTime a b = true <-> CallTreeNode.totalTime b <= CallTreeNode.totalTime a.
Proof. unfold byTotalTime. rewrite Z.leb_le. lia. Qed.

Lemma buildNode_sorted fuel : forall nodeId t,
  buildNode nm sm tm totalTime fuel nodeId = Ok t -> childrenSorted t.
Proof.
  induction fuel as [|fuel IH]; intros nodeId t Ht; [done|].
  apply buildNode_inv in Ht as (fuel' & node & kids & [= <-] & _ & Hkids & ->).
  constructor; simpl.
  - apply (StronglySorted_weaken (fun a b => byTotalTime a b = true));
      [|apply jsSort_sorted]; cycle 1.
    + intros a b. rewrite !byTotalTime_spec. lia.
    + intros a b c. rewrite !byTotalTime_spec. lia.
    + intros a b Hab. by apply byTotalTime_spec.
  - rewrite jsSort_perm. clear -Hkids IH.
    induction Hkids as [|c k cs ks Hk _ IHks]; constructor; [by apply (IH c)|done].
Qed.

Lemma sumTotals_fmap (m : gmap Z Z) ids :
  sumTotals m ids = foldr Z.add 0 (getOr0 m <$> ids).
Proof. induction ids as [|i ids IH]; simpl; [done|]. by rewrite IH. Qed.

Lemma sum_perm (l l' : list Z) : l ≡ₚ l' -> foldr Z.add 0 l = foldr Z.add 0 l'.
Proof. induction 1; simpl; lia. Qed.

Lemma elem_of_flat_map {A B} (f : A -> list B) l y :
  y ∈ flat_map f l <-> exists x, x ∈ l /\ y ∈ f x.
Proof.
  rewrite list_elem_of_In, in_flat_map. split; intros (x & Hx & Hy); exists x.
  - by rewrite !list_elem_of_In.
  - by rewrite <- !list_elem_of_In.
Qed.

Lemma treeNodes_unfold t :
  treeNodes t = t :: flat_map treeNodes (CallTreeNode.children t).
Proof. by destruct t. Qed.

(** Every node of the call tree comes from a node of the table. *)
Lemma buildNode_nodes fuel : forall nodeId t u,
  buildNode nm sm tm totalTime fuel nodeId = Ok t -> u ∈ treeNodes t ->
  exists i node,
    nm !! i = Some node
    /\ treeNodeData u
       = (CallFrame.functionName (Node.callFrame node),
          CallFrame.url (Node.callFrame node),
          CallFrame.lineNumber (Node.callFrame node), getOr0 sm i, getOr0 tm i)
    /\ CallTreeNode.selfPercent u = percentOf totalTime (getOr0 sm i)
    /\ CallTreeNode.totalPercent u = percentOf totalTime (getOr0 tm i)
    /\ CallTreeNode.totalTime <$> CallTreeNode.children u
       ≡ₚ getOr0 tm <$> default [] (Node.children node).
Proof.
  induction fuel as [|fuel IH]; intros nodeId t u Ht Hu; [done|].
  apply buildNode_inv in Ht as (fuel' & node & kids & [= <-] & Hnode & Hkids & ->).
  rewrite treeNodes_unfold in Hu. simpl in Hu.
  apply elem_of_cons in Hu as [->|Hu].
  - exists nodeId, node. split; [done|]. split; [done|]. split; [done|]. split; [done|].
    simpl. rewrite jsSort_perm. clear -Hkids.
    induction Hkids as [|c k cs ks Hk _ IHks]; [done|].
    rewrite !fmap_cons, IHks.
    by destruct (buildNode_times _ _ _ _ _ _ _ Hk) as [_ ->].
  - apply elem_of_flat_map in Hu as (k & Hk & Hu). rewrite jsSort_perm in Hk.
    apply list_elem_of_lookup in Hk as [j Hj].
    destruct (Forall2_lookup_r _ _ _ _ _ Hkids Hj) as (c & _ & Hc).
    by apply (IH c k u).
Qed.

End CallTree.

(** X7.  In the call tree of every analysis that returns, the children of
    every node are in descending order of total time. *)
Theorem call_tree_children_sorted (p : Profile.t) (o : AnalyzeOptions.t)
    (r : AnalysisResult.t) :
  analyzeProfile p o = Ok r -> childrenSorted (AnalysisResult.callTree r).
Proof.
  intros (sm & hm & tm & _ & _ & _ & _ & _ & Htree & _)%analyzeProfile_inv.
  unfold buildCallTree in Htree. destruct (head (Profile.nodes p)) as [root|]; [|done].
  by apply buildNode_sorted in Htree.
Qed.

Lemma call_tree_children_sorted_witness :
  exists r, analyzeProfile Sample.profile defaultOptions = Ok r
    /\ childrenSorted (AnalysisResult.callTree r).
Proof.
  destruct (analyzeProfile Sample.profile defaultOptions) as [r|e] eqn:Hr;
    [|vm_compute in Hr; discriminate].
  exists r. split; [done|]. exact (call_tree_children_sorted _ _ _ Hr).
Defined.

(** X8.  When the node table has distinct ids and its children pointers
    have no cycle, every node of the call tree of the result has as total
    time its self time plus the total times of its children, and its two
    percentages are those of its times. *)
Theorem call_tree_totals (p : Profile.t) (o : AnalyzeOptions.t) (r : AnalysisResult.t) :
  NoDup (Node.id <$> Profile.nodes p) ->
  acyclic (buildNodeMap (Profile.nodes p)) ->
  analyzeProfile p o = Ok r ->
  forall u, u ∈ treeNodes (AnalysisResult.callTree r) ->
    CallTreeNode.totalTime u = CallTreeNode.selfTime u + sumChildTotals u
    /\ CallTreeNode.selfPercent u
       = percentOf (AnalysisResult.totalTime r) (CallTreeNode.selfTime u)
    /\ CallTreeNode.totalPercent u
       = percentOf (AnalysisResult.totalTime r) (CallTreeNode.totalTime u).
Proof.
  intros Hnd Hacyc
    (sm & hm & tm & _ & Htotal & -> & _ & _ & Htree & _)%analyzeProfile_inv u Hu.
  unfold buildCallTree in Htree. destruct (head (Profile.nodes p)) as [root|]; [|done].
  destruct (buildNode_nodes _ _ _ _ _ _ _ u Htree Hu)
    as (i & node & Hnode & Hdata & Hsp & Htp & Hkids).
  injection Hdata as _ _ _ Hself Htot.
  rewrite Hself, Htot. split; [|done].
  unfold computeTotalTime in Htotal.
  destruct (computeTotalTimeState _ _ _) as [st|] eqn:Hrun; [|done].
  injection Htotal as <-.
  apply buildNodeMap_lookup in Hnode as [Hin <-].
  rewrite (computeTotalTimeState_sums _ _ _ Hacyc Hrun node Hin Hnd).
  unfold sumChildTotals. rewrite (sum_perm _ _ Hkids). by rewrite sumTotals_fmap.
Qed.

Lemma call_tree_totals_witness :
  exists r, analyzeProfile Sample.profile defaultOptions = Ok r
    /\ CallTreeNode.totalTime (AnalysisResult.callTree r)
       = CallTreeNode.selfTime (AnalysisResult.callTree r)
         + sumChildTotals (AnalysisResult.callTree r).
Proof.
  destruct (analyzeProfile Sample.profile defaultOptions) as [r|e] eqn:Hr;
    [|vm_compute in Hr; discriminate].
  exists r. split; [done|].
  apply (call_tree_totals Sample.profile defaultOptions r).
  - apply sample_tree_table.
  - apply (table_acyclic Sample.tree), sample_tree_table.
  - exact Hr.
  - rewrite treeNodes_unfold. apply list_elem_of_here.
Defined.
Section CallTreeOfTable.
Context (T : shape) (ns : list Node.t) (Htable : tree_table T ns).
Context (sm tm : gmap Z Z) (totalTime : Z).

Lemma buildNode_tree_nodes s : forall fuel t,
  s ∈ subtrees T ->
  buildNode (buildNodeMap ns) sm tm totalTime fuel (shapeRoot s) = Ok t ->
  treeNodeData <$> treeNodes t
  ≡ₚ tableDataAt (buildNodeMap ns) sm tm <$> (shapeRoot <$> subtrees s).
Proof.
  induction s as [r ks IH] using shape_tree_ind. intros fuel t Hs Ht.
  apply buildNode_inv in Ht as (fuel' & node & kids & -> & Hnode & Hkids & ->).
  destruct (table_node T ns Htable _ Hs) as (node' & _ & _ & HG & Hcs).
  simpl in Hnode, HG, Hcs. rewrite Hnode in HG. injection HG as <-.
  rewrite Hcs in Hkids. apply Forall2_fmap_l in Hkids.
  assert (Hsub : forall k, k ∈ ks -> k ∈ subtrees T).
  { intros k Hk. apply (subtrees_trans T (Shape r ks) k Hs).
    apply (subtrees_kid (Shape r ks) k Hk), subtrees_self. }
  rewrite treeNodes_unfold. cbn [CallTreeNode.children subtrees].
  rewrite !fmap_cons. apply Permutation_cons.
  - unfold tableDataAt. cbn [shapeRoot]. rewrite Hnode. simpl.
    apply buildNodeMap_lookup in Hnode as [_ Hid].
    unfold tableNodeData, treeNodeData. simpl. by rewrite Hid.
  - rewrite (Permutation_flat_map treeNodes (jsSort_perm byTotalTime kids)).
    clear -IH Hkids Hsub. revert kids Hkids.
    induction ks as [|k ks IHks]; intros kids Hkids.
    + apply Forall2_nil_inv_l in Hkids as ->. done.
    + apply Forall2_cons_inv_l in Hkids as (kt & kids' & Hkt & Hkids & ->).
      apply Forall_cons in IH as [IHk IH]. simpl.
      rewrite !fmap_app. apply Permutation_app.
      * apply (IHk fuel' kt); [apply Hsub, list_elem_of_here|exact Hkt].
      * apply IHks; [done| |done]. intros k' Hk'. by apply Hsub, list_elem_of_further.
Qed.

Lemma buildCallTree_tree_nodes rootNode t :
  head ns = Some rootNode -> Node.id rootNode = shapeRoot T ->
  buildCallTree (buildNodeMap ns) sm tm totalTime (head ns) = Ok t ->
  treeNodeData <$> treeNodes t ≡ₚ tableNodeData sm tm <$> ns.
Proof.
  intros -> Hid Ht. unfold buildCallTree in Ht. rewrite Hid in Ht.
  rewrite (buildNode_tree_nodes T _ t (subtrees_self T) Ht).
  destruct Htable as (Hnd & Hperm & _). rewrite <- Hperm, <- list_fmap_compose.
  assert (tableDataAt (buildNodeMap ns) sm tm ∘ Node.id <$> ns
          = tableNodeData sm tm <$> ns) as ->; [|done].
  apply list_fmap_ext. intros i node Hnode. apply list_elem_of_lookup_2 in Hnode.
  unfold tableDataAt. simpl. by rewrite buildNodeMap_lookup_NoDup.
Qed.

End CallTreeOfTable.

(** X9.  When the node table describes a rooted tree and lists the root
    first, the call tree of the result has one node for each node of the
    table: with its function name, url and line, and with the self time
    and the total time that the maps of the analysis give the node's id. *)
Theorem call_tree_covers_table (p : Profile.t) (T : shape) (o : AnalyzeOptions.t)
    (r : AnalysisResult.t) (rootNode : Node.t) (sm hm tm : gmap Z Z) :
  tree_table T (Profile.nodes p) ->
  head (Profile.nodes p) = Some rootNode -> Node.id rootNode = shapeRoot T ->
  computeSelfTime p = Ok (sm, hm) ->
  computeTotalTime (buildNodeMap (Profile.nodes p)) sm (Profile.nodes p) = Some tm ->
  analyzeProfile p o = Ok r ->
  treeNodeData <$> treeNodes (AnalysisResult.callTree r)
    ≡ₚ tableNodeData sm tm <$> Profile.nodes p
  /\ length (treeNodes (AnalysisResult.callTree r)) = length (Profile.nodes p).
Proof.
  intros Htable Hhead Hroot Hself Htotal
    (sm' & hm' & tm' & Hself' & Htotal' & _ & _ & _ & Htree & _)%analyzeProfile_inv.
  rewrite Hself in Hself'. injection Hself' as <- <-.
  rewrite Htotal in Htotal'. injection Htotal' as <-.
  pose proof (buildCallTree_tree_nodes T _ Htable sm tm _ rootNode _ Hhead Hroot Htree)
    as Hperm.
  split; [exact Hperm|].
  apply Permutation_length in Hperm. by rewrite !length_fmap in Hperm.
Qed.

Lemma call_tree_covers_table_witness :
  exists r, analyzeProfile Sample.profile defaultOptions = Ok r
    /\ length (treeNodes (AnalysisResult.callTree r)) = 4%nat.
Proof.
  destruct (analyzeProfile Sample.profile defaultOptions) as [r|e] eqn:Hr;
    [|vm_compute in Hr; discriminate].
  destruct (computeSelfTime Sample.profile) as [[sm hm]|e] eqn:Hself;
    [|vm_compute in Hself; discriminate].
  destruct (computeTotalTime (buildNodeMap (Profile.nodes Sample.profile)) sm
              (Profile.nodes Sample.profile)) as [tm|] eqn:Htotal.
  - exists r. split; [done|].
    exact (proj2 (call_tree_covers_table Sample.profile Sample.tree defaultOptions r
                    Sample.rootNode sm hm tm sample_tree_table eq_refl eq_refl
                    Hself Htotal Hr)).
  - exfalso. unfold computeTotalTime in Htotal.
    destruct (computeTotalTimeState_run (Profile.nodes Sample.profile) sm)
      as (st & Hrun & _).
    by rewrite Hrun in Htotal.
Defined.

Section CallTreeFailures.
Context (nm : gmap Z Node.t) (sm tm : gmap Z Z) (totalTime : Z).

Lemma buildNode_depth fuel : forall nodeId t,
  buildNode nm sm tm totalTime fuel nodeId = Ok t ->
  forall n y, nsteps (edge nm) n nodeId y -> (n < fuel)%nat /\ is_Some (nm !! y).
Proof.
  induction fuel as [|fuel IH]; intros nodeId t Ht n y Hsteps; [done|].
  apply buildNode_inv in Ht as (fuel' & node & kids & [= <-] & Hnode & Hkids & _).
  inversion Hsteps as [|n' ? c ? (node' & Hnode' & Hc) Hrest]; subst.
  - split; [lia|by eexists].
  - rewrite Hnode in Hnode'. injection Hnode' as <-.
    apply list_elem_of_lookup in Hc as [j Hj].
    destruct (Forall2_lookup_l _ _ _ _ _ Hkids Hj) as (kt & _ & Hkt).
    destruct (IH c kt Hkt n' y Hrest) as [Hlt Hy]. split; [lia|done].
Qed.

Lemma nsteps_pump {A} (R : relation A) (m : nat) (y : A) :
  nsteps R m y y -> forall j, nsteps R (j * m) y y.
Proof.
  intros Hm. induction j as [|j IH]; simpl; [constructor|].
  by apply (nsteps_trans m (j * m) y y y).
Qed.

Lemma buildNode_reachable fuel nodeId t y :
  buildNode nm sm tm totalTime fuel nodeId = Ok t ->
  rtc (edge nm) nodeId y ->
  is_Some (nm !! y) /\ ~ tc (edge nm) y y.
Proof.
  intros Ht [k Hk]%rtc_nsteps.
  split; [exact (proj2 (buildNode_depth _ _ _ Ht _ _ Hk))|].
  intros (m & Hpos & Hm)%tc_nsteps.
  pose proof (nsteps_trans _ _ _ _ _ Hk (nsteps_pump _ _ _ Hm fuel)) as Hlong.
  destruct (buildNode_depth _ _ _ Ht _ _ Hlong) as [Hlt _]. nia.
Qed.

End CallTreeFailures.

(** X10.  The analysis returns only for a node table that is not empty and
    in which every node id that is reached from the first node through
    children arrays is the id of a node of the table and lies on no cycle
    of children pointers.  On a table with a child id that is not in the
    table, or with a cycle, below the first node, the analysis fails. *)
Theorem analysis_needs_closed_table (p : Profile.t) (o : AnalyzeOptions.t)
    (r : AnalysisResult.t) :
  analyzeProfile p o = Ok r ->
  exists rootNode,
    head (Profile.nodes p) = Some rootNode
    /\ forall y, rtc (edge (buildNodeMap (Profile.nodes p))) (Node.id rootNode) y ->
         y ∈ (Node.id <$> Profile.nodes p)
         /\ ~ tc (edge (buildNodeMap (Profile.nodes p))) y y.
Proof.
  intros (sm & hm & tm & _ & _ & _ & _ & _ & Htree & _)%analyzeProfile_inv.
  unfold buildCallTree in Htree.
  destruct (head (Profile.nodes p)) as [rootNode|]; [|done].
  exists rootNode. split; [done|]. intros y Hy.
  destruct (buildNode_reachable _ _ _ _ _ _ _ y Htree Hy) as [Hin Hcycle].
  split; [|done]. by apply buildNodeMap_dom, elem_of_dom.
Qed.

Lemma analysis_needs_closed_table_witness :
  exists r rootNode,
    analyzeProfile Sample.profile defaultOptions = Ok r
    /\ head (Profile.nodes Sample.profile) = Some rootNode.
Proof.
  destruct (analyzeProfile Sample.profile defaultOptions) as [r|e] eqn:Hr;
    [|vm_compute in Hr; discriminate].
  destruct (analysis_needs_closed_table _ _ _ Hr) as (rootNode & Hhead & _).
  by exists r, rootNode.
Defined.
(** ** The first entries of a sorted list *)

Section TopSlice.
Context {A : Type} (le0 : A -> A -> bool).
Hypothesis le0_total : forall a b, le0 a b = true \/ le0 b a = true.
Hypothesis le0_trans : forall a b c, le0 a b = true -> le0 b c = true -> le0 a c = true.

Lemma jsSlice0_count (stop : Z) (l : list A) :
  (0 <= stop ->
     Z.of_nat (length (jsSlice0 stop l)) = Z.min stop (Z.of_nat (length l)))
  /\ (stop < 0 ->
     Z.of_nat (length (jsSlice0 stop l)) = Z.max (Z.of_nat (length l) + stop) 0).
Proof.
  unfold jsSlice0. rewrite length_take.
  split; intros H; destruct (stop <? 0) eqn:Hneg; lia.
Qed.

(** An element that the slice of the sorted list leaves out is not ahead of
    any element that it keeps. *)
Lemma jsSlice0_sort_top (stop : Z) (l : list A) (x : A) :
  x ∈ l ->
  x ∈ jsSlice0 stop (jsSort le0 l)
  \/ forall y, y ∈ jsSlice0 stop (jsSort le0 l) -> le0 y x = true.
Proof.
  intros Hx. rewrite <- (jsSort_perm le0 l) in Hx.
  pose proof (jsSort_sorted le0 le0_total le0_trans l) as Hsorted.
  destruct (jsSlice0_prefix stop (jsSort le0 l)) as [rest Hrest].
  rewrite Hrest in Hx, Hsorted.
  apply elem_of_app in Hx as [Hx|Hx]; [by left|].
  right. intros y Hy.
  exact (StronglySorted_app_1_elem_of _ _ _ _ _ Hsorted Hy Hx).
Qed.

Lemma jsSlice0_nonempty (stop : Z) (l : list A) :
  1 <= stop -> l <> [] -> jsSlice0 stop l <> [].
Proof.
  intros Hstop Hl Hnil. apply (f_equal length) in Hnil.
  destruct (jsSlice0_count stop l) as [Hcount _].
  destruct l; [done|]. simpl in Hcount, Hnil. rewrite Hnil in Hcount.
  specialize (Hcount ltac:(lia)). simpl in Hcount. lia.
Qed.

End TopSlice.

Lemma leafPaths_nonempty t : leafPaths t <> [].
Proof.
  induction t as [n u l sT tT sP tP kids IH] using callTree_ind'. simpl.
  destruct kids as [|k ks]; [done|].
  apply Forall_cons in IH as [Hk _]. simpl.
  destruct (leafPaths k) as [|seq seqs]; [done|]. done.
Qed.

(** X11.  The critical paths that are returned are the highest-scored
    root-to-leaf paths of the call tree: a path that is left out scores no
    more than any path that is returned.  For a count [maxPaths] that is not
    negative the list has [maxPaths] paths, or all of them when there are
    fewer, and it is not empty when [maxPaths] is at least one; a negative
    count [-k] leaves out the [k] lowest-scored paths. *)
Theorem critical_paths_are_the_top (callTree : CallTreeNode.t) (maxPaths : Z) :
  let leaves := Z.of_nat (length (leafPaths callTree)) in
  let paths := findCriticalPaths callTree maxPaths in
  (forall seq, rootToLeaf callTree seq ->
     criticalPathOf seq ∈ paths
     \/ forall cp, cp ∈ paths -> (pathScore seq <= CriticalPath.cumulativePercent cp)%Q)
  /\ (0 <= maxPaths -> Z.of_nat (length paths) = Z.min maxPaths leaves)
  /\ (maxPaths < 0 -> Z.of_nat (length paths) = Z.max (leaves + maxPaths) 0)
  /\ (1 <= maxPaths -> paths <> []).
Proof.
  intros leaves paths. subst leaves paths. unfold findCriticalPaths.
  rewrite traverse_all.
  split; [|split; [|split]].
  - intros seq Hseq%leafPaths_rootToLeaf.
    destruct (jsSlice0_sort_top byCumulativePercent byCumulativePercent_total
                byCumulativePercent_trans maxPaths
                (criticalPathOf <$> leafPaths callTree) (criticalPathOf seq))
      as [Hin|Htop]; [by apply list_elem_of_fmap_2|by left|].
    right. intros cp Hcp. by apply (byCumulativePercent_spec cp (criticalPathOf seq)), Htop.
  - intros Hpos.
    rewrite (proj1 (jsSlice0_count maxPaths _) Hpos), jsSort_length, length_fmap. done.
  - intros Hneg.
    rewrite (proj2 (jsSlice0_count maxPaths _) Hneg), jsSort_length, length_fmap. done.
  - intros Hone. apply jsSlice0_nonempty; [done|].
    intros Hnil. apply (f_equal length) in Hnil.
    rewrite jsSort_length, length_fmap in Hnil.
    by destruct (leafPaths callTree) eqn:Hl; [apply leafPaths_nonempty in Hl|].
Qed.

(** X12.  The hotspots are the functions of highest self time among those
    at or above the threshold: such a function that is left out has a self
    time no greater than that of any hotspot.  For a count [maxHotspots]
    that is not negative the list has [maxHotspots] entries, or all the
    functions at or above the threshold when there are fewer; a negative
    count [-k] leaves out the [k] of lowest self time. *)
Theorem hotspots_are_the_top (functionStats : list FunctionStats.t)
    (threshold : Q) (maxCount : Z) :
  let passing := List.filter (passesThreshold threshold) functionStats in
  let hotspots := extractHotspots functionStats threshold maxCount in
  (forall s, s ∈ functionStats -> (threshold <= FunctionStats.selfPercent s)%Q ->
     toHotspot s ∈ hotspots
     \/ forall h, h ∈ hotspots -> FunctionStats.selfTime s <= Hotspot.selfTime h)
  /\ (0 <= maxCount ->
      Z.of_nat (length hotspots) = Z.min maxCount (Z.of_nat (length passing)))
  /\ (maxCount < 0 ->
      Z.of_nat (length hotspots) = Z.max (Z.of_nat (length passing) + maxCount) 0).
Proof.
  intros passing hotspots. subst passing hotspots. unfold extractHotspots.
  split; [|split].
  - intros s Hs Hpass.
    assert (s ∈ List.filter (passesThreshold threshold) functionStats) as Hin.
    { apply list_elem_of_In, filter_In. rewrite <- list_elem_of_In.
      split; [done|]. by apply passesThreshold_spec. }
    destruct (jsSlice0_sort_top bySelfTime bySelfTime_total bySelfTime_trans
                maxCount _ s Hin) as [Hkept|Htop].
    + left. by apply list_elem_of_fmap_2.
    + right. intros h (s' & -> & Hs')%list_elem_of_fmap.
      by apply (bySelfTime_spec s' s), Htop.
  - intros Hpos.
    by rewrite length_fmap, (proj1 (jsSlice0_count maxCount _) Hpos), jsSort_length.
  - intros Hneg.
    by rewrite length_fmap, (proj2 (jsSlice0_count maxCount _) Hneg), jsSort_length.
Qed.
(** ** Total time on a table without cycles *)

Lemma acyclic_increasing (G : gmap Z Node.t) :
  (forall p c, edge G p c -> p < c) -> acyclic G.
Proof.
  intros Hinc x Hcycle.
  assert (Hlt : forall a b, tc (edge G) a b -> a < b).
  { induction 1 as [a b Hab|a b c Hab _ IH]; [by apply Hinc|].
    apply Hinc in Hab. lia. }
  apply Hlt in Hcycle. lia.
Qed.

Lemma diamond_acyclic : acyclic (buildNodeMap Diamond.nodes).
Proof.
  apply acyclic_increasing. intros p c (node & Hnode & Hc).
  apply buildNodeMap_lookup in Hnode as [Hin <-].
  unfold Diamond.nodes in Hin.
  repeat (apply elem_of_cons in Hin as [->|Hin]); simpl in Hc |- *;
    try (by apply elem_of_nil in Hin);
    repeat (apply elem_of_cons in Hc as [->|Hc]); try lia;
    by apply elem_of_nil in Hc.
Qed.

(** X13.  On every node table with distinct ids whose children pointers
    have no cycle (a child may be shared by several parents, and a child id
    may be missing from the table), the total-time map has for every node
    its self time plus the totals of the ids in its children array, an id
    that is not in the table counting as zero. *)
Theorem total_time_without_cycle (ns : list Node.t) (selfTimeMap : gmap Z Z) :
  NoDup (Node.id <$> ns) ->
  acyclic (buildNodeMap ns) ->
  exists totalTimeMap,
    computeTotalTime (buildNodeMap ns) selfTimeMap ns = Some totalTimeMap
    /\ (forall node, node ∈ ns ->
          getOr0 totalTimeMap (Node.id node)
          = getOr0 selfTimeMap (Node.id node)
            + sumTotals totalTimeMap (default [] (Node.children node)))
    /\ (forall x, x ∉ (Node.id <$> ns) -> getOr0 totalTimeMap x = 0).
Proof.
  intros Hnd Hacyc.
  destruct (computeTotalTimeState_run ns selfTimeMap) as (st & Hrun & _).
  exists (TotalTime.totalTimeMap st).
  split; [unfold computeTotalTime; by rewrite Hrun|]. split.
  - intros node Hnode.
    by apply (computeTotalTimeState_sums ns selfTimeMap st Hacyc Hrun node Hnode).
  - intros x Hx. unfold getOr0.
    rewrite (proj1 (not_elem_of_dom (TotalTime.totalTimeMap st) x)); [done|].
    by rewrite (computeTotalTimeState_entries ns selfTimeMap st Hrun x).
Qed.

Lemma total_time_without_cycle_witness :
  exists totalTimeMap,
    computeTotalTime (buildNodeMap Diamond.nodes) Diamond.selfTimeMap Diamond.nodes
    = Some totalTimeMap
    /\ getOr0 totalTimeMap 1
       = getOr0 Diamond.selfTimeMap 1 + sumTotals totalTimeMap [2; 3].
Proof.
  destruct (total_time_without_cycle Diamond.nodes Diamond.selfTimeMap)
    as (totalTimeMap & Hrun & Hsum & _).
  - simpl. repeat (apply NoDup_cons; split; [set_solver|]). apply NoDup_nil_2.
  - apply diamond_acyclic.
  - exists totalTimeMap. split; [exact Hrun|].
    apply (Hsum (Diamond.node 1 [2; 3])). apply list_elem_of_here.
Defined.
(** ** The records that [linearizeHeadBasedTree] makes *)

Section Linearize.

Lemma preOrdered_widen hi hi' r : hi <= hi' -> preOrdered hi r -> preOrdered hi' r.
Proof.
  intros Hhi [Hkids Hp]. split; [|done].
  eapply Forall_impl; [exact Hkids|]. intros k Hk. simpl in Hk. lia.
Qed.

Lemma listedByParent_mono recs recs' r q :
  (forall x, x ∈ recs -> x ∈ recs') ->
  listedByParent recs r q -> listedByParent recs' r q.
Proof. intros Hsub (rq & Hrq & Hid & Hk). exists rq. auto. Qed.

Lemma linearizedKids_nil next pid : linearizedKids next next pid [] [].
Proof.
  split; [simpl; lia|]. split; [done|]. split; [constructor|].
  split; [by intros r q ?%elem_of_nil|]. split; [constructor|]. done.
Qed.

(** The calls for the children of one record, one after the other. *)
Lemma traverseChildren_linearized
    (rec : jsval -> Z * list jsval -> outcome (Z * (Z * list jsval))) (pid : Z) kids :
  (forall child next acc i next' acc',
     pid < next ->
     rec child (next, acc) = Ok (i, (next', acc')) ->
     i = next
     /\ exists recs, acc' = acc ++ (recordJson <$> recs)
          /\ linearized next next' child (Some pid) recs) ->
  forall next acc ids next' acc',
    pid < next ->
    traverseChildren rec kids (next, acc) = Ok (ids, (next', acc')) ->
    exists recs, acc' = acc ++ (recordJson <$> recs)
      /\ linearizedKids next next' pid ids recs.
Proof.
  intros Hrec. induction kids as [|child rest IH]; intros next acc ids next' acc'; simpl.
  - intros _ [= <- <- <-]. exists []. split; [by rewrite app_nil_r|].
    apply linearizedKids_nil.
  - intros Hlo ([i [mid accm]] & Hchild & H)%bind_Ok_inv.
    apply bind_Ok_inv in H as ([ids' [next'' acc'']] & Hrest & [= <- <- <-]).
    simpl in Hrest.
    destruct (Hrec _ _ _ _ _ _ Hlo Hchild)
      as (-> & recs0 & -> & Hnext0 & Hperm0 & Hpre0 & Hpar0 & Hhead0 & Hlast0).
    assert (recs0 <> []) as Hne0 by (destruct Hhead0 as (r0 & Hr0 & _); by destruct recs0).
    assert (next < mid) as Hlt by (destruct recs0; [done|simpl in Hnext0; lia]).
    assert (pid < mid) as Hmid by lia.
    destruct (IH _ _ _ _ _ Hmid Hrest)
      as (recs1 & -> & Hnext1 & Hperm1 & Hpre1 & Hpar1 & Hids1 & Hnil1 & Hhead1).
    exists (recs0 ++ recs1). split; [by rewrite fmap_app, app_assoc|].
    unfold linearizedKids. rewrite length_app, Nat2Z.inj_add.
    split; [lia|]. split; [|split; [|split; [|split; [|split]]]].
    + rewrite fmap_app, seqZ_app by lia. rewrite Hperm0, Hperm1. by rewrite <- Hnext0.
    + apply Forall_app. split; [|done].
      eapply Forall_impl; [exact Hpre0|]. intros r. apply preOrdered_widen. lia.
    + intros r q [Hr|Hr]%elem_of_app Hq.
      * destruct (Hpar0 r q Hr Hq) as [[[= <-] Hid]|Hlisted].
        -- left. split; [done|]. rewrite Hid. apply list_elem_of_here.
        -- right. eapply listedByParent_mono; [|exact Hlisted].
           intros x Hx. apply elem_of_app. by left.
      * destruct (Hpar1 r q Hr Hq) as [[-> Hid]|Hlisted].
        -- left. split; [done|]. by apply list_elem_of_further.
        -- right. eapply listedByParent_mono; [|exact Hlisted].
           intros x Hx. apply elem_of_app. by right.
    + constructor; [lia|]. eapply Forall_impl; [exact Hids1|].
      intros k Hk. simpl in Hk. lia.
    + intros Hnil. destruct recs0; [done|]. done.
    + intros _. destruct Hhead0 as (r0 & Hr0 & Hk0). exists r0. split; [|done].
      destruct recs0; [done|]. done.
Qed.

Lemma traverseHead_linearized fuel : forall parentId node next acc i next' acc',
  (forall q, parentId = Some q -> q < next) ->
  traverseHead fuel parentId node (next, acc) = Ok (i, (next', acc')) ->
  i = next
  /\ exists recs, acc' = acc ++ (recordJson <$> recs)
       /\ linearized next next' node parentId recs.
Proof.
  induction fuel as [|fuel IH]; intros parentId node next acc i next' acc' Hparent;
    [done|].
  simpl. intros (cf & _ & H)%bind_Ok_inv.
  apply bind_Ok_inv in H as ([ids [mid accm]] & Hkids & [= <- <- <-]). simpl.
  split; [done|].
  assert (exists recs, accm = acc ++ (recordJson <$> recs)
            /\ linearizedKids (next + 1) mid next ids recs) as (recs & -> & Hlin).
  { assert (Hnone : Ok (@nil Z, (next + 1, acc)) = Ok (ids, (mid, accm)) ->
              exists recs, accm = acc ++ (recordJson <$> recs)
                /\ linearizedKids (next + 1) mid next ids recs).
    { intros [= <- <- <-]. exists []. split; [by rewrite app_nil_r|].
      apply linearizedKids_nil. }
    destruct (truthy (getOptional node "children") && isArray (getOptional node "children"));
      [|by apply Hnone].
    destruct (getOptional node "children") as [| | | | |xs|]; try (by apply Hnone).
    apply (traverseChildren_linearized _ next xs) in Hkids; [done| |lia].
    intros child n a i' n' a' Hn Hchild.
    apply (IH (Some next) child n a i' n' a'); [|done].
    intros q [= <-]. done. }
  destruct Hlin as (Hnext & Hperm & Hpre & Hpar & Hids & Hnil & Hhead).
  set (top := LinearRecord.mk next node parentId ids).
  exists (recs ++ [top]). split; [by rewrite fmap_app, app_assoc|].
  unfold linearized. rewrite length_app, Nat2Z.inj_add.
  change (Z.of_nat (length [top])) with 1.
  split; [lia|]. split; [|split; [|split; [|split]]].
  - rewrite fmap_app, Hperm.
    replace (Z.of_nat (length recs) + 1) with (1 + Z.of_nat (length recs)) by lia.
    rewrite seqZ_app by lia. change (seqZ next 1) with [next].
    change (LinearRecord.id <$> [top]) with [next].
    apply Permutation_app_comm.
  - apply Forall_app. split.
    + eapply Forall_impl; [exact Hpre|]. intros r. apply preOrdered_widen. lia.
    + apply Forall_singleton. split; [|exact Hparent].
      eapply Forall_impl; [exact Hids|]. intros k Hk. simpl in Hk |- *. lia.
  - intros r q [Hr | ->%list_elem_of_singleton]%elem_of_app Hq.
    + right. destruct (Hpar r q Hr Hq) as [[-> Hid]|Hlisted].
      * exists top. split; [|done]. apply elem_of_app. right. apply list_elem_of_here.
      * eapply listedByParent_mono; [|exact Hlisted].
        intros x Hx. apply elem_of_app. by left.
    + left. done.
  - destruct recs as [|r recs'].
    + exists top. split; [done|]. simpl.
      by rewrite (Hnil eq_refl).
    + destruct Hhead as (r0 & Hr0 & Hk0); [done|]. by exists r0.
  - exists ids. apply last_snoc.
Qed.

Lemma linearizeHeadBasedTree_records head ns :
  linearizeHeadBasedTree head = Ok ns ->
  exists recs, ns = recordJson <$> recs
    /\ linearized 1 (1 + Z.of_nat (length recs)) head None recs.
Proof.
  unfold linearizeHeadBasedTree.
  intros ([i [next acc]] & Hrun & [= <-])%bind_Ok_inv. simpl.
  assert (forall q : Z, @None Z = Some q -> q < 1) as Hroot by done.
  destruct (traverseHead_linearized _ _ _ _ _ _ _ _ Hroot Hrun)
    as (_ & recs & Hacc & Hlin).
  exists recs. split; [done|]. pose proof Hlin as (Hn & _). by rewrite <- Hn.
Qed.

End Linearize.

(** X14.  When the linearization of a [head] tree returns, its records
    have the ids 1, 2, ..., one for each record; the record of the root (id
    1, made from [head], no parent) is the last of the array, and the first
    record has no children; every record lists children with greater ids
    and has a parent, if any, with a smaller id, whose record lists it as a
    child. *)
Theorem linearized_ids (tree : jsval) (ns : list jsval) :
  linearizeHeadBasedTree tree = Ok ns ->
  exists recs,
    ns = recordJson <$> recs
    /\ LinearRecord.id <$> recs ≡ₚ seqZ 1 (Z.of_nat (length recs))
    /\ (exists kids, last recs = Some (LinearRecord.mk 1 tree None kids))
    /\ (exists r0, head recs = Some r0 /\ LinearRecord.kids r0 = [])
    /\ (forall r, r ∈ recs ->
          Forall (fun k => LinearRecord.id r < k <= Z.of_nat (length recs))
                 (LinearRecord.kids r)
          /\ forall q, LinearRecord.parent r = Some q ->
               q < LinearRecord.id r /\ listedByParent recs r q).
Proof.
  intros (recs & -> & _ & Hperm & Hpre & Hpar & Hhead & Hlast)%linearizeHeadBasedTree_records.
  exists recs. split; [done|]. split; [done|]. split; [done|]. split; [done|].
  intros r Hr. rewrite Forall_forall in Hpre. destruct (Hpre r Hr) as [Hkids Hp].
  split.
  - eapply Forall_impl; [exact Hkids|]. intros k Hk. simpl in Hk. lia.
  - intros q Hq. split; [by apply Hp|].
    by destruct (Hpar r q Hr Hq) as [[[=] _]|Hlisted].
Qed.

Lemma linearized_ids_witness :
  exists ns recs, linearizeHeadBasedTree Legacy.head = Ok ns
    /\ ns = recordJson <$> recs
    /\ LinearRecord.id <$> recs ≡ₚ seqZ 1 (Z.of_nat (length recs)).
Proof.
  destruct (linearizeHeadBasedTree Legacy.head) as [ns|e] eqn:Hrun;
    [|vm_compute in Hrun; discriminate].
  destruct (linearized_ids Legacy.head ns Hrun) as (recs & Hns & Hperm & _).
  by exists ns, recs.
Defined.
(** ** Trace-event containers *)

Section TraceEvents.

Lemma findCpuProfileEvent_found pre event post :
  Forall plainEvent pre -> profileEvent event ->
  findCpuProfileEvent (pre ++ event :: post) = Ok (Some event).
Proof.
  intros Hpre (name & Hname & Hmatch).
  induction Hpre as [|e pre (n & Hn & Hneq & Hnone) _ IH]; simpl.
  - rewrite Hname. simpl. by rewrite Hmatch.
  - rewrite Hn. simpl. by rewrite Hneq, Hnone.
Qed.

Lemma unwrapTraceEvents_found container pre event post :
  holdsEvents container (pre ++ event :: post) ->
  Forall plainEvent pre -> profileEvent event ->
  unwrapTraceEvents container = Ok (eventPayload event).
Proof.
  intros [->|(fields & -> & Hevents)] Hpre Hevent; simpl.
  - by rewrite findCpuProfileEvent_found.
  - rewrite Hevents. simpl. by rewrite findCpuProfileEvent_found.
Qed.

Lemma unwrapTraceEvents_plain fields :
  truthy (assoc "traceEvents" fields) = false ->
  unwrapTraceEvents (JObj fields) = Ok (JObj fields).
Proof. intros H. simpl. by rewrite H. Qed.

End TraceEvents.

(** X15.  A trace-event container is transparent: when the first event of
    the list that is named [CpuProfile] or embeds a profile carries a
    profile object (one that is not itself a container), parsing the
    container gives what parsing that profile object gives, be it a profile
    or an error. *)
Theorem trace_container_transparent (container : jsval) (pre post : list jsval)
    (event : jsval) (fields : list (string * jsval)) :
  holdsEvents container (pre ++ event :: post) ->
  Forall plainEvent pre -> profileEvent event ->
  eventPayload event = JObj fields ->
  truthy (assoc "traceEvents" fields) = false ->
  parseProfile (Some container) = parseProfile (Some (JObj fields)).
Proof.
  intros Hholds Hpre Hevent Hpayload Hplain.
  unfold parseProfile, unwrapProfile.
  rewrite (unwrapTraceEvents_found container pre event post Hholds Hpre Hevent).
  by rewrite (unwrapTraceEvents_plain fields Hplain), Hpayload.
Qed.

Lemma trace_container_transparent_witness :
  parseProfile (Some Trace.container) = parseProfile (Some Legacy.flat).
Proof.
  apply (trace_container_transparent Trace.container [Trace.metadata] [] Trace.event).
  - right. by eexists.
  - apply Forall_singleton. by exists (JStr "TracingStartedInBrowser").
  - by exists (JStr "CpuProfile").
  - reflexivity.
  - reflexivity.
Defined.

(** ** The name shown for a caller *)

Lemma firstPart_append sep a b :
  firstPart sep (a +:+ String sep b) = firstPart sep a.
Proof.
  induction a as [|c a IH]; simpl; [by rewrite decide_True|].
  destruct (decide (c = sep)); [done|]. by rewrite IH.
Qed.

Lemma firstPart_id sep s :
  firstPart sep s = s <-> includes s (String sep EmptyString) = false.
Proof.
  induction s as [|c s IH]; simpl; [done|].
  destruct (ascii_dec sep c) as [<-|Hne].
  - rewrite decide_True by done. destruct s; simpl; split; done.
  - rewrite decide_False by done. simpl. rewrite <- IH. split; [by intros [= ->]|by intros ->].
Qed.

(** X16.  The name the adaptive report shows for a caller or a callee is
    the part of its function key before the first [@]: the function name
    up to its first [@].  It is the function name exactly when the name has
    no [@]. *)
Theorem caller_name_of_key (cf : CallFrame.t) :
  callerName (functionKey cf) = callerName (CallFrame.functionName cf)
  /\ (callerName (functionKey cf) = CallFrame.functionName cf
      <-> includes (CallFrame.functionName cf) "@" = false).
Proof.
  assert (callerName (functionKey cf) = callerName (CallFrame.functionName cf)) as Heq.
  { unfold callerName, functionKey. apply firstPart_append. }
  split; [exact Heq|]. rewrite Heq. apply firstPart_id.
Qed.
(** ** A legacy profile, parsed and analyzed *)

Section LegacyParse.

Lemma assoc_setAssoc k v fields : assoc k (setAssoc k v fields) = v.
Proof.
  induction fields as [|[k' v'] fields IH]; simpl.
  - by rewrite decide_True.
  - destruct (decide (k' = k)) as [->|Hne]; simpl.
    + by rewrite decide_True.
    + by rewrite decide_False.
Qed.

Lemma unwrapProfile_legacy fields :
  truthy (assoc "traceEvents" fields) = false ->
  truthy (assoc "head" fields) = true ->
  truthy (assoc "nodes" fields) = false ->
  unwrapProfile (JObj fields)
  = ns ← linearizeHeadBasedTree (assoc "head" fields);
    Ok (JObj (setAssoc "nodes" (JArr ns) fields)).
Proof.
  intros Htrace Hhead Hnodes. unfold unwrapProfile.
  rewrite unwrapTraceEvents_plain by done.
  unfold mbind at 1, outcome_bind. unfold linearizeIfHead. simpl.
  by rewrite Hhead, Hnodes.
Qed.

Lemma mapM_asNumber (ks : list Z) : mapM asNumber (JNum <$> ks) = Some ks.
Proof. induction ks as [|k ks IH]; [done|]. rewrite fmap_cons. simpl. by rewrite IH. Qed.

Lemma asNode_record r n :
  asNode (recordJson r) = Some n ->
  Node.id n = LinearRecord.id r
  /\ Node.children n = Some (LinearRecord.kids r)
  /\ Node.parent n = LinearRecord.parent r.
Proof.
  destruct r as [i v p ks]. unfold recordJson, asNode, cpuNodeOf. simpl.
  destruct (asCallFrame _) as [cf|]; [|done]. simpl.
  destruct (asOptional asNumber (jsOr (getOptional v "hitCount") (JNum 0)))
    as [hc|]; [|done]. simpl.
  rewrite mapM_asNumber. simpl.
  destruct p as [q|]; simpl; by intros [= <-].
Qed.

Lemma asNode_records recs nodes :
  mapM asNode (recordJson <$> recs) = Some nodes ->
  Node.id <$> nodes = LinearRecord.id <$> recs
  /\ Forall2 (fun r n => Node.id n = LinearRecord.id r
                /\ Node.children n = Some (LinearRecord.kids r)
                /\ Node.parent n = LinearRecord.parent r) recs nodes.
Proof.
  intros H%mapM_Some. apply Forall2_fmap_l in H.
  induction H as [|r n recs nodes Hn _ [IHids IH]]; [by split; [|constructor]|].
  apply asNode_record in Hn. rewrite !fmap_cons.
  split; [by f_equal; [apply Hn|]|]. by constructor.
Qed.

(** The first node of the table that results from a legacy profile has no
    children, and the ids are distinct. *)
Lemma legacy_table head ns nodes :
  linearizeHeadBasedTree head = Ok ns ->
  mapM asNode ns = Some nodes ->
  NoDup (Node.id <$> rebuildChildrenFromParent nodes)
  /\ exists n0, hd_error (rebuildChildrenFromParent nodes) = Some n0
       /\ Node.children n0 = Some [].
Proof.
  intros (recs & -> & _ & Hperm & _ & Hpar & (r0 & Hr0 & Hk0) & _)%linearizeHeadBasedTree_records
    Hnodes.
  destruct (asNode_records _ _ Hnodes) as [Hids Hall].
  assert (NoDup (Node.id <$> nodes)) as Hnd.
  { rewrite Hids, Hperm. apply NoDup_seqZ. }
  rewrite (rebuildChildrenFromParent_table nodes Hnd).
  assert (Node.id <$> (reconciled nodes <$> nodes) = Node.id <$> nodes) as Hkeep.
  { rewrite <- list_fmap_compose. by apply list_fmap_ext. }
  split; [by rewrite Hkeep|].
  destruct recs as [|r recs]; [done|]. injection Hr0 as ->.
  apply Forall2_cons_inv_l in Hall as (n0 & nodes' & (Hid0 & Hc0 & Hp0) & Hall' & ->).
  exists (reconciled (n0 :: nodes') n0). split; [done|].
  unfold reconciled. simpl. f_equal. rewrite Hc0, Hk0. simpl. rewrite app_nil_r.
  assert (declaredChildren (n0 :: nodes') (Node.id n0) = []) as ->; [|done].
  unfold declaredChildren.
  assert (Hall : Forall2 (fun r n => Node.id n = LinearRecord.id r
                   /\ Node.children n = Some (LinearRecord.kids r)
                   /\ Node.parent n = LinearRecord.parent r) (r0 :: recs) (n0 :: nodes'))
    by (by constructor).
  assert (filter (fun node => Node.parent node = Some (Node.id n0)) (n0 :: nodes') = [])
    as ->; [|done].
  apply elem_of_nil_inv. intros m [Hp Hm]%list_elem_of_filter.
  apply list_elem_of_lookup in Hm as [j Hj].
  destruct (Forall2_lookup_r _ _ _ _ _ Hall Hj) as (rm & Hrm & _ & _ & Hpm).
  apply list_elem_of_lookup_2 in Hrm.
  rewrite Hp, Hid0 in Hpm.
  destruct (Hpar rm (LinearRecord.id r0) Hrm (eq_sym Hpm)) as [[[=] _]|(rq & Hrq & Hq & Hlisted)].
  assert (rq = r0) as ->.
  { apply list_elem_of_lookup in Hrq as [a Ha].
    assert (NoDup (LinearRecord.id <$> r0 :: recs)) as Hnd' by (rewrite Hperm; apply NoDup_seqZ).
    assert (a = 0%nat) as ->; [|by injection Ha].
    eapply NoDup_lookup; [exact Hnd'| |]; rewrite list_lookup_fmap.
    - by rewrite Ha.
    - simpl. by rewrite Hq. }
  rewrite Hk0 in Hlisted. by apply elem_of_nil in Hlisted.
Qed.

Lemma parseProfile_legacy fields p :
  truthy (assoc "traceEvents" fields) = false ->
  truthy (assoc "head" fields) = true ->
  truthy (assoc "nodes" fields) = false ->
  parseProfile (Some (JObj fields)) = Ok p ->
  exists ns nodes,
    linearizeHeadBasedTree (assoc "head" fields) = Ok ns
    /\ mapM asNode ns = Some nodes
    /\ Profile.nodes p = rebuildChildrenFromParent nodes.
Proof.
  intros Htrace Hhead Hnodes. unfold parseProfile.
  rewrite unwrapProfile_legacy by done.
  intros (parsed1 & (ns & Hns & [= <-])%bind_Ok_inv & H)%bind_Ok_inv.
  apply bind_Ok_inv in H as ([[vs ss] ds] & Hvalid & H).
  unfold validateProfile in Hvalid.
  apply bind_Ok_inv in Hvalid as (vs' & Hvs & Hvalid).
  apply bind_Ok_inv in Hvalid as (ss' & _ & Hvalid).
  apply bind_Ok_inv in Hvalid as (ds' & _ & [= <- <- <-]).
  unfold requireArray in Hvs. simpl in Hvs. rewrite assoc_setAssoc in Hvs.
  simpl in Hvs. injection Hvs as <-.
  apply bind_Ok_inv in H as (nodes & Htyped & H). simpl in Htyped.
  destruct (mapM asNode ns) as [nodes'|] eqn:Hdec; [|done]. injection Htyped as ->.
  apply bind_Ok_inv in H as (ss0 & _ & H).
  apply bind_Ok_inv in H as (ds0 & _ & H).
  apply bind_Ok_inv in H as (start & _ & H).
  apply bind_Ok_inv in H as (stop & _ & [= <-]).
  by exists ns, nodes.
Qed.

Lemma analyzeProfile_leaf_root p o r n0 :
  NoDup (Node.id <$> Profile.nodes p) ->
  hd_error (Profile.nodes p) = Some n0 -> Node.children n0 = Some [] ->
  analyzeProfile p o = Ok r ->
  CallTreeNode.children (AnalysisResult.callTree r) = [].
Proof.
  intros Hnd Hhead Hleaf
    (sm & hm & tm & _ & _ & _ & _ & _ & Htree & _)%analyzeProfile_inv.
  change (hd_error (Profile.nodes p)) with (head (Profile.nodes p)) in Hhead.
  rewrite Hhead in Htree. unfold buildCallTree in Htree.
  apply buildNode_inv in Htree as (fuel & node & kids & _ & Hnode & Hkids & ->).
  rewrite buildNodeMap_lookup_NoDup in Hnode;
    [|done|by apply head_Some_elem_of].
  injection Hnode as <-. rewrite Hleaf in Hkids. simpl in Hkids.
  by apply Forall2_nil_inv_l in Hkids as ->.
Qed.

End LegacyParse.

(** X17.  For every profile in the legacy format (a [head] record and no
    node table), whatever the tree under [head]: when the parser and the
    analysis return, the call tree of the result is a single node without
    children, and every critical path has one node.  The parser puts the
    first leaf of the tree first in the node table, and the analysis builds
    the call tree from the first node. *)
Theorem legacy_call_tree_is_a_leaf (fields : list (string * jsval))
    (o : AnalyzeOptions.t) (r : AnalysisResult.t) :
  truthy (assoc "traceEvents" fields) = false ->
  truthy (assoc "head" fields) = true ->
  truthy (assoc "nodes" fields) = false ->
  parseAndAnalyze (Some (JObj fields)) o = Ok r ->
  CallTreeNode.children (AnalysisResult.callTree r) = []
  /\ forall cp, cp ∈ AnalysisResult.criticalPaths r ->
       CriticalPath.path cp = [toPathNode (AnalysisResult.callTree r)].
Proof.
  intros Htrace Hhead Hnodes (p & Hparse & Hrun)%bind_Ok_inv.
  destruct (parseProfile_legacy fields p Htrace Hhead Hnodes Hparse)
    as (ns & nodes & Hns & Hdec & Hp).
  destruct (legacy_table _ _ _ Hns Hdec) as (Hnd & n0 & Hn0 & Hleaf).
  rewrite <- Hp in Hnd, Hn0.
  pose proof (analyzeProfile_leaf_root p o r n0 Hnd Hn0 Hleaf Hrun) as Hkids.
  split; [exact Hkids|].
  apply analyzeProfile_inv in Hrun as (_ & _ & _ & _ & _ & _ & _ & _ & _ & _ & ->).
  unfold findCriticalPaths. rewrite traverse_all.
  destruct (AnalysisResult.callTree r) as [n u l sT tT sP tP kids]. simpl in Hkids.
  subst kids. simpl. intros cp Hcp.
  destruct (jsSlice0_prefix (optMaxPaths o)
              [criticalPathOf [CallTreeNode.mk n u l sT tT sP tP []]]) as [rest Hrest].
  assert (cp ∈ [criticalPathOf [CallTreeNode.mk n u l sT tT sP tP []]]) as Hin.
  { rewrite Hrest. apply elem_of_app. by left. }
  by apply list_elem_of_singleton in Hin as ->.
Qed.

Lemma legacy_call_tree_is_a_leaf_witness :
  exists r, parseAndAnalyze (Some Legacy.nested) defaultOptions = Ok r
    /\ CallTreeNode.children (AnalysisResult.callTree r) = [].
Proof.
  destruct (parseAndAnalyze (Some Legacy.nested) defaultOptions) as [r|e] eqn:Hr;
    [|vm_compute in Hr; discriminate].
  exists r. split; [done|].
  apply (legacy_call_tree_is_a_leaf
           [("head", Legacy.head); ("samples", JArr [JNum 2]);
            ("timeDeltas", JArr [JNum 100])] defaultOptions r);
    [reflexivity|reflexivity|reflexivity|exact Hr].
Defined.
(** ** Parsing a profile of the flat format *)

Section FlatProfile.

Lemma asCallFrame_json cf : asCallFrame (callFrameJson cf) = Some cf.
Proof. by destruct cf. Qed.

Lemma asNode_json node : asNode (nodeJson node) = Some node.
Proof.
  destruct node as [i [fn sid u ln cn] hc cs p]. unfold asNode, nodeJson.
  destruct hc as [h|], cs as [ks|], p as [q|]; simpl;
    rewrite ?mapM_asNumber; reflexivity.
Qed.

Lemma mapM_asNode_json ns : mapM asNode (nodeJson <$> ns) = Some ns.
Proof.
  induction ns as [|n ns IH]; [done|]. rewrite fmap_cons. simpl.
  by rewrite asNode_json, IH.
Qed.

Lemma jsOr_number n : asNumber (jsOr (JNum n) (JNum 0)) = Some n.
Proof.
  unfold jsOr. simpl. destruct (n =? 0) eqn:Hn; simpl; [|done].
  apply Z.eqb_eq in Hn. by subst.
Qed.

End FlatProfile.

(** X18.  Parsing the JSON of a profile in the flat format gives the
    profile back, with the children arrays of its node table reconciled
    with the parent fields by [rebuildChildrenFromParent]; a start or end
    time that is absent or zero reads as zero.  When the table has distinct
    ids and every node already lists exactly the children that the parent
    fields give it, the profile comes back unchanged. *)
Theorem flat_profile_round_trip (p : Profile.t) :
  parseProfile (Some (profileJson p))
  = Ok (Profile.mk (Profile.startTime p) (Profile.endTime p)
          (rebuildChildrenFromParent (Profile.nodes p))
          (Profile.samples p) (Profile.timeDeltas p))
  /\ (NoDup (Node.id <$> Profile.nodes p) ->
      (forall node, node ∈ Profile.nodes p -> reconciled (Profile.nodes p) node = node) ->
      parseProfile (Some (profileJson p)) = Ok p).
Proof.
  assert (parseProfile (Some (profileJson p))
          = Ok (Profile.mk (Profile.startTime p) (Profile.endTime p)
                  (rebuildChildrenFromParent (Profile.nodes p))
                  (Profile.samples p) (Profile.timeDeltas p))) as Hparse.
  { unfold parseProfile, profileJson.
    rewrite unwrapProfile_plain by done.
    unfold mbind at 1, outcome_bind.
    unfold validateProfile, requireArray. simpl.
    rewrite mapM_asNode_json, !mapM_asNumber. simpl.
    by rewrite !jsOr_number. }
  split; [exact Hparse|]. intros Hnd Hsame. rewrite Hparse.
  rewrite (rebuildChildrenFromParent_table _ Hnd).
  destruct p as [start stop ns ss ds]. simpl in *. do 2 f_equal.
  induction ns as [|n ns IH]; [done|].
  assert (reconciled (n :: ns) <$> n :: ns = id <$> n :: ns) as ->;
    [|by rewrite list_fmap_id].
  apply list_fmap_ext. intros i x Hx. apply Hsame. by apply list_elem_of_lookup_2 in Hx.
Qed.
(** ** What the analysis does not read *)

Section Essentials.
Context (nm : gmap Z Node.t) (sm tm hm : gmap Z Z) (totalTime : Z).

Lemma buildNodeMap_essentials ns :
  buildNodeMap (essentials <$> ns) = essentials <$> buildNodeMap ns.
Proof.
  unfold buildNodeMap.
  assert (forall m : gmap Z Node.t,
            fold_left (fun m node => <[Node.id node := node]> m) (essentials <$> ns)
              (essentials <$> m)
            = essentials <$> fold_left (fun m node => <[Node.id node := node]> m) ns m)
    as H.
  { induction ns as [|n ns IH]; intros m; [done|].
    rewrite fmap_cons. simpl. rewrite <- IH. by rewrite fmap_insert. }
  rewrite <- H. by rewrite fmap_empty.
Qed.

Lemma sumChildren_ext rec rec' cs :
  (forall c st, rec c st = rec' c st) ->
  forall total st, sumChildren rec cs total st = sumChildren rec' cs total st.
Proof.
  intros Hext. induction cs as [|c cs IH]; intros total st; simpl; [done|].
  rewrite Hext. destruct (rec' c st) as [[t st']|]; [apply IH|done].
Qed.

Lemma computeNodeTotalTime_essentials fuel : forall nodeId st,
  computeNodeTotalTime (essentials <$> nm) sm fuel nodeId st
  = computeNodeTotalTime nm sm fuel nodeId st.
Proof.
  induction fuel as [|fuel IH]; intros nodeId st; simpl; [done|].
  destruct (decide (nodeId ∈ TotalTime.visited st)); [done|].
  rewrite lookup_fmap. destruct (nm !! nodeId) as [node|]; simpl; [|done].
  by rewrite (sumChildren_ext _ _ _ IH).
Qed.

Lemma totalTimeLoop_essentials fuel ns : forall st,
  totalTimeLoop (essentials <$> nm) sm fuel (essentials <$> ns) st
  = totalTimeLoop nm sm fuel ns st.
Proof.
  induction ns as [|n ns IH]; intros st; [done|].
  rewrite fmap_cons. simpl. rewrite computeNodeTotalTime_essentials.
  destruct (computeNodeTotalTime nm sm fuel (Node.id n) st) as [[t st']|]; [apply IH|done].
Qed.

Lemma computeTotalTime_essentials ns :
  computeTotalTime (essentials <$> nm) sm (essentials <$> ns)
  = computeTotalTime nm sm ns.
Proof.
  unfold computeTotalTime, computeTotalTimeState.
  by rewrite map_size_fmap, totalTimeLoop_essentials.
Qed.

Lemma functionKey_essentials node :
  functionKey (Node.callFrame (essentials node)) = functionKey (Node.callFrame node).
Proof. reflexivity. Qed.

Lemma omap_ext_all {A B} (f g : A -> option B) (l : list A) :
  (forall x, f x = g x) -> omap f l = omap g l.
Proof.
  intros H. induction l as [|x l IH]; [done|]. csimpl. by rewrite H, IH.
Qed.

Lemma addNode_essentials node s :
  addNode sm tm hm (essentials <$> nm) (essentials node) s = addNode sm tm hm nm node s.
Proof.
  unfold addNode. f_equal.
  - f_equal. unfold callerKeys. simpl.
    destruct (Node.parent node) as [p|]; [|done].
    rewrite lookup_fmap. by destruct (nm !! p).
  - f_equal. unfold calleeKeys. simpl. apply omap_ext_all.
    intros c. rewrite lookup_fmap. by destruct (nm !! c).
Qed.

Lemma aggregateStep_essentials m node :
  aggregateStep sm tm hm (essentials <$> nm) m (essentials node)
  = aggregateStep sm tm hm nm m node.
Proof.
  unfold aggregateStep. rewrite functionKey_essentials.
  unfold updateStats. apply list_fmap_ext. intros i s _. simpl.
  destruct (decide _); [apply addNode_essentials|done].
Qed.

Lemma aggregateFunctionStats_essentials ns :
  aggregateFunctionStats sm tm hm totalTime (essentials <$> nm) (essentials <$> ns)
  = aggregateFunctionStats sm tm hm totalTime nm ns.
Proof.
  unfold aggregateFunctionStats. f_equal. generalize (@nil FunctionStats.t).
  induction ns as [|n ns IH]; intros m; [done|].
  rewrite fmap_cons. simpl. by rewrite aggregateStep_essentials, IH.
Qed.

Lemma mapM_outcome_ext {A B} (f g : A -> outcome B) l :
  (forall x, f x = g x) -> mapM f l = mapM g l.
Proof. intros H. induction l as [|x l IH]; simpl; [done|]. by rewrite H, IH. Qed.

Lemma buildNode_essentials fuel : forall nodeId,
  buildNode (essentials <$> nm) sm tm totalTime fuel nodeId
  = buildNode nm sm tm totalTime fuel nodeId.
Proof.
  induction fuel as [|fuel IH]; intros nodeId; simpl; [done|].
  rewrite lookup_fmap. destruct (nm !! nodeId) as [node|]; simpl; [|done].
  by rewrite (mapM_outcome_ext _ _ _ IH).
Qed.

Lemma buildCallTree_essentials ns :
  buildCallTree (essentials <$> nm) sm tm totalTime (head (essentials <$> ns))
  = buildCallTree nm sm tm totalTime (head ns).
Proof.
  destruct ns as [|n ns]; [done|].
  change (head (essentials <$> n :: ns)) with (Some (essentials n)).
  change (head (n :: ns)) with (Some n).
  unfold buildCallTree. rewrite map_size_fmap. apply buildNode_essentials.
Qed.

End Essentials.

(** X19.  The analysis reads neither the [hitCount] of a node record nor
    the [scriptId] of its call frame: the result for a profile is the
    result for the profile without them.  (The hit counts of the result
    are counted from the samples.) *)
Theorem analysis_ignores_recorded_hits (p : Profile.t) (o : AnalyzeOptions.t) :
  analyzeProfile (essentialProfile p) o = analyzeProfile p o.
Proof.
  unfold analyzeProfile, essentialProfile. simpl.
  change (computeSelfTime (Profile.mk (Profile.startTime p) (Profile.endTime p)
            (essentials <$> Profile.nodes p) (Profile.samples p) (Profile.timeDeltas p)))
    with (computeSelfTime p).
  destruct (computeSelfTime p) as [[sm hm]|e]; [|done]. simpl.
  rewrite buildNodeMap_essentials, computeTotalTime_essentials.
  destruct (computeTotalTime _ _ _) as [tm|]; [|done].
  by rewrite aggregateFunctionStats_essentials, buildCallTree_essentials.
Qed.
(** ** The score of a critical path *)

Section PathScore.

Lemma pathScore_acc seq : forall a : Q,
  (fold_left (fun sum n => sum + CallTreeNode.selfPercent n) seq a
   == a + sumSelfPercents seq)%Q.
Proof.
  induction seq as [|u seq IH]; intros a; simpl; [ring|]. rewrite IH. ring.
Qed.

Lemma pathScore_sum seq : (pathScore seq == sumSelfPercents seq)%Q.
Proof. unfold pathScore. rewrite pathScore_acc. ring. Qed.

Lemma treeNodes_kid t k :
  k ∈ CallTreeNode.children t -> treeNodes k `sublist_of` flat_map treeNodes (CallTreeNode.children t).
Proof.
  induction (CallTreeNode.children t) as [|k' ks IH]; intros Hk;
    [by apply elem_of_nil in Hk|].
  simpl. apply elem_of_cons in Hk as [->|Hk].
  - by apply sublist_inserts_r.
  - by apply sublist_inserts_l, IH.
Qed.

Lemma rootToLeaf_sublist t seq : rootToLeaf t seq -> seq `sublist_of` treeNodes t.
Proof.
  induction 1 as [t Hleaf|t k seq Hk Hseq IH]; rewrite treeNodes_unfold.
  - apply sublist_skip, sublist_nil_l.
  - apply sublist_skip. etrans; [exact IH|]. by apply treeNodes_kid.
Qed.

Lemma sumSelfPercents_sublist l l' :
  l `sublist_of` l' ->
  (forall u, u ∈ l' -> (0 <= CallTreeNode.selfPercent u)%Q) ->
  (0 <= sumSelfPercents l)%Q /\ (sumSelfPercents l <= sumSelfPercents l')%Q.
Proof.
  induction 1 as [|u l l' Hsub IH|u l l' Hsub IH]; intros Hpos; simpl.
  - split; apply Qle_refl.
  - destruct IH as [IH0 IH1]; [intros; apply Hpos; by right|].
    pose proof (Hpos u ltac:(by left)). split; lra.
  - destruct IH as [IH0 IH1]; [intros; apply Hpos; by right|].
    pose proof (Hpos u ltac:(by left)). split; lra.
Qed.

Lemma percentOf_nonneg totalTime x : 0 <= x -> (0 <= percentOf totalTime x)%Q.
Proof.
  intros Hx. pose proof (percentOf_mono totalTime 0 x Hx) as Hle.
  assert (percentOf totalTime 0 == 0)%Q as H0.
  { unfold percentOf. destruct (0 <? totalTime); [|done]. unfold Qeq. simpl. lia. }
  by rewrite H0 in Hle.
Qed.

Lemma percentOf_sum totalTime (xs : list Z) :
  0 < totalTime ->
  (foldr (fun x acc => percentOf totalTime x + acc) 0 xs
   == inject_Z (foldr Z.add 0%Z xs) / inject_Z totalTime * 100)%Q.
Proof.
  intros Hpos.
  assert (Hnz : ~ (inject_Z totalTime == 0)%Q) by (unfold Qeq; simpl; lia).
  induction xs as [|x xs IH]; simpl.
  - unfold Qeq. simpl. lia.
  - rewrite IH. unfold percentOf. apply Z.ltb_lt in Hpos. rewrite Hpos.
    rewrite inject_Z_plus. field. exact Hnz.
Qed.

End PathScore.


(** ** Hotspots of a profile without time, and the shares of the summary *)

Lemma filter_none_bool {A} (P : A -> bool) (l : list A) :
  (forall x, x ∈ l -> P x = false) -> List.filter P l = [].
Proof.
  induction l as [|x l IH]; intros H; simpl; [done|].
  rewrite (H x) by apply list_elem_of_here.
  apply IH. intros y Hy. by apply H, list_elem_of_further.
Qed.

(** X21.  When the total time of the profile is not positive (no samples,
    say) and the threshold is positive, as the default 1.0 is, the result
    has no hotspots. *)
Theorem no_time_no_hotspots (p : Profile.t) (o : AnalyzeOptions.t)
    (r : AnalysisResult.t) :
  analyzeProfile p o = Ok r ->
  AnalysisResult.totalTime r <= 0 -> (0 < optThreshold o)%Q ->
  AnalysisResult.hotspots r = [].
Proof.
  intros (sm & hm & tm & _ & _ & HT & _ & Hstats & _ & -> & _)%analyzeProfile_inv
    Hzero Hth.
  unfold extractHotspots. rewrite filter_none_bool; [unfold jsSlice0; simpl; by rewrite take_nil|].
  intros s Hs. rewrite Hstats in Hs.
  apply aggregateFunctionStats_percent in Hs.
  unfold passesThreshold. rewrite Hs. unfold percentOf.
  rewrite <- HT, (proj2 (Z.ltb_ge 0 _) Hzero).
  destruct (Qle_bool (optThreshold o) 0) eqn:Hle; [|done].
  apply Qle_bool_iff in Hle. lra.
Qed.

Lemma no_time_no_hotspots_witness :
  exists r, analyzeProfile Idle.profile defaultOptions = Ok r
    /\ AnalysisResult.hotspots r = [].
Proof.
  destruct (analyzeProfile Idle.profile defaultOptions) as [r|e] eqn:Hr;
    [|vm_compute in Hr; discriminate].
  exists r. split; [done|].
  apply (no_time_no_hotspots Idle.profile defaultOptions r Hr).
  - apply analyzeProfile_inv in Hr as (? & ? & ? & _ & _ & -> & _).
    vm_compute. discriminate.
  - reflexivity.
Defined.

Section Shares.

Lemma sum_acc {A} (f : A -> Z) (l : list A) : forall a,
  fold_left (fun sum x => sum + f x) l a = a + foldr Z.add 0 (f <$> l).
Proof.
  induction l as [|x l IH]; intros a; [simpl; lia|].
  rewrite fmap_cons. cbn [fold_left foldr]. rewrite IH. lia.
Qed.

Lemma sum_submseteq {A} (f : A -> Z) (l l' : list A) :
  l ⊆+ l' -> (forall x, x ∈ l' -> 0 <= f x) ->
  foldr Z.add 0 (f <$> l) <= foldr Z.add 0 (f <$> l').
Proof.
  induction 1 as [|x l1 l2 _ IH|x y l|x l1 l2 _ IH|l1 l2 l3 H12 IH12 H23 IH23];
    intros Hpos; rewrite ?fmap_cons; cbn [foldr].
  - done.
  - specialize (IH ltac:(intros; apply Hpos; by right)). lia.
  - lia.
  - specialize (IH ltac:(intros; apply Hpos; by right)).
    pose proof (Hpos x ltac:(by left)). lia.
  - specialize (IH23 Hpos).
    assert (forall x, x ∈ l2 -> 0 <= f x) as Hpos2.
    { intros x Hx. apply Hpos. by apply (elem_of_submseteq l2 l3). }
    specialize (IH12 Hpos2). lia.
Qed.

Lemma sumQ_acc {A} (f : A -> Q) (l : list A) : forall a,
  (fold_left (fun sum x => sum + f x) l a == a + foldr Qplus 0 (f <$> l))%Q.
Proof.
  induction l as [|x l IH]; intros a; [simpl; ring|].
  rewrite fmap_cons. cbn [fold_left foldr]. rewrite IH. ring.
Qed.

Lemma sumQ_submseteq {A} (f : A -> Q) (l l' : list A) :
  l ⊆+ l' -> (forall x, x ∈ l' -> (0 <= f x)%Q) ->
  (foldr Qplus 0 (f <$> l) <= foldr Qplus 0 (f <$> l'))%Q.
Proof.
  induction 1 as [|x l1 l2 _ IH|x y l|x l1 l2 _ IH|l1 l2 l3 H12 IH12 H23 IH23];
    intros Hpos; rewrite ?fmap_cons; cbn [foldr].
  - apply Qle_refl.
  - specialize (IH ltac:(intros; apply Hpos; by right)). lra.
  - lra.
  - specialize (IH ltac:(intros; apply Hpos; by right)).
    pose proof (Hpos x ltac:(by left)). lra.
  - specialize (IH23 Hpos).
    assert (forall x, x ∈ l2 -> (0 <= f x)%Q) as Hpos2.
    { intros x Hx. apply Hpos. by apply (elem_of_submseteq l2 l3). }
    specialize (IH12 Hpos2). lra.
Qed.

Lemma sumQ_nonneg {A} (f : A -> Q) (l : list A) :
  (forall x, x ∈ l -> (0 <= f x)%Q) -> (0 <= foldr Qplus 0 (f <$> l))%Q.
Proof.
  induction l as [|x l IH]; intros Hpos; [apply Qle_refl|].
  rewrite fmap_cons. cbn [foldr].
  specialize (IH ltac:(intros; apply Hpos; by right)).
  pose proof (Hpos x ltac:(by left)). lra.
Qed.

Lemma filter_bool_sublist {A} (P : A -> bool) (l : list A) :
  List.filter P l `sublist_of` l.
Proof.
  induction l as [|x l IH]; simpl; [done|].
  destruct (P x); [by apply sublist_skip|by apply sublist_cons].
Qed.

(** The hotspots are some of the function statistics. *)
Lemma extractHotspots_submseteq fs threshold maxCount :
  exists kept, extractHotspots fs threshold maxCount = toHotspot <$> kept /\ kept ⊆+ fs.
Proof.
  unfold extractHotspots. eexists. split; [reflexivity|].
  etrans; [apply sublist_submseteq; unfold jsSlice0; apply sublist_take|].
  rewrite jsSort_perm. apply sublist_submseteq, filter_bool_sublist.
Qed.

Lemma typeTime_split (hs : list Hotspot.t) :
  (forall h, h ∈ hs -> 0 <= Hotspot.selfTime h) ->
  0 <= nativeTime hs /\ 0 <= appTime hs
  /\ nativeTime hs + appTime hs <= foldr Z.add 0 (Hotspot.selfTime <$> hs).
Proof.
  unfold nativeTime, appTime, typeTime. rewrite !sum_acc.
  induction hs as [|h hs IH]; intros Hpos; [simpl; lia|].
  specialize (IH ltac:(intros; apply Hpos; by right)).
  pose proof (Hpos h ltac:(by left)).
  rewrite fmap_cons. cbn [List.filter foldr].
  destruct (isType native h) eqn:Hn, (isType app h) eqn:Ha;
    rewrite ?fmap_cons; cbn [foldr]; [|lia|lia|lia].
  unfold isType in Hn, Ha. by destruct (Hotspot.type h).
Qed.

Lemma sumStatsSelfTime_fmap (l : list FunctionStats.t) :
  sumStatsSelfTime l = foldr Z.add 0 (FunctionStats.selfTime <$> l).
Proof.
  induction l as [|s l IH]; [done|]. rewrite fmap_cons. simpl. by rewrite IH.
Qed.

End Shares.


(** ** [escapeMarkdown] *)

Section Escape.

Lemma escapeChar_escapeWhere (special : ascii -> bool) (c : ascii) s :
  c <> "\"%char -> special c = false ->
  escapeChar c (escapeWhere special s)
  = escapeWhere (fun x => special x || Ascii.eqb x c) s.
Proof.
  intros Hc Hsp. induction s as [|x s IH]; [done|].
  cbn [escapeWhere]. destruct (special x) eqn:Hx; cbn [escapeChar orb].
  - assert (Ascii.eqb "\" c = false) as -> by (apply Ascii.eqb_neq; congruence).
    assert (Ascii.eqb x c = false) as -> by (apply Ascii.eqb_neq; congruence).
    by rewrite IH.
  - destruct (Ascii.eqb x c) eqn:Hxc.
    + apply Ascii.eqb_eq in Hxc as ->. by rewrite IH.
    + by rewrite IH.
Qed.

Lemma escapeWhere_ext (f g : ascii -> bool) s :
  (forall x, f x = g x) -> escapeWhere f s = escapeWhere g s.
Proof. intros H. induction s as [|x s IH]; simpl; [done|]. by rewrite H, IH. Qed.

Lemma escapeWhere_none s : escapeWhere (fun _ => false) s = s.
Proof. induction s as [|x s IH]; simpl; [done|]. by rewrite IH. Qed.

Lemma escapeMarkdown_escapeWhere s :
  escapeMarkdown s = escapeWhere markdownSpecial s.
Proof.
  unfold escapeMarkdown. rewrite <- (escapeWhere_none s) at 1.
  rewrite !escapeChar_escapeWhere by done. by apply escapeWhere_ext.
Qed.

Lemma escapeWhere_app special a b :
  escapeWhere special (a +:+ b) = escapeWhere special a +:+ escapeWhere special b.
Proof.
  induction a as [|x a IH]; simpl; [done|]. rewrite IH. by destruct (special x).
Qed.

Lemma unescape_escapeWhere special s :
  special "\"%char = false ->
  unescapeWhere special (escapeWhere special s) = s.
Proof.
  intros Hbs. induction s as [|x s IH]; [done|].
  cbn [escapeWhere]. destruct (special x) eqn:Hx.
  - cbn [unescapeWhere]. rewrite Hx. simpl. by rewrite IH.
  - destruct s as [|y s]; [done|].
    cbn [escapeWhere] in IH |- *. destruct (special y) eqn:Hy.
    + cbn [unescapeWhere] in IH |- *. rewrite Hbs, andb_false_r. by rewrite IH.
    + cbn [unescapeWhere] in IH |- *.
      rewrite Hy, andb_false_r. by rewrite IH.
Qed.

End Escape.

(** X23.  The six replacements of [escapeMarkdown] amount to one pass over
    the string: every [|], backquote, [*], [_], [[] and []] gets one
    backslash before it and nothing else changes (a backslash that an
    earlier replacement put in is not touched by a later one).  So the
    function distributes over concatenation, and taking the backslashes
    before those characters away gives the string back: no two strings
    have the same escaped form. *)
Theorem escape_markdown_one_pass (s : string) :
  escapeMarkdown s = escapeWhere markdownSpecial s
  /\ (forall t, escapeMarkdown (s +:+ t) = escapeMarkdown s +:+ escapeMarkdown t)
  /\ unescapeWhere markdownSpecial (escapeMarkdown s) = s
  /\ (forall t, escapeMarkdown s = escapeMarkdown t -> s = t).
Proof.
  split; [apply escapeMarkdown_escapeWhere|]. split; [|split].
  - intros t. rewrite !escapeMarkdown_escapeWhere. apply escapeWhere_app.
  - rewrite escapeMarkdown_escapeWhere. by apply unescape_escapeWhere.
  - intros t Heq. rewrite !escapeMarkdown_escapeWhere in Heq.
    apply (f_equal (unescapeWhere markdownSpecial)) in Heq.
    by rewrite !unescape_escapeWhere in Heq.
Qed.
(** ** Total time as the time of a subtree *)

Lemma subtrees_kid_sublist s k :
  k ∈ shapeKids s -> subtrees k `sublist_of` subtrees s.
Proof.
  destruct s as [r ks]. simpl. intros Hk. apply sublist_cons.
  induction ks as [|k' ks IH]; [by apply elem_of_nil in Hk|].
  simpl. apply elem_of_cons in Hk as [->|Hk].
  - by apply sublist_inserts_r.
  - by apply sublist_inserts_l, IH.
Qed.

(** X24.  When the node table describes a rooted tree, the total time of
    every node is the sum of the self times of the nodes of its subtree;
    and when no self time is negative, the total time of a child is not
    greater than that of its parent. *)
Theorem total_time_is_subtree_sum (ns : list Node.t) (T : shape)
    (selfTimeMap : gmap Z Z) :
  tree_table T ns ->
  exists totalTimeMap,
    computeTotalTime (buildNodeMap ns) selfTimeMap ns = Some totalTimeMap
    /\ (forall s, s ∈ subtrees T ->
          getOr0 totalTimeMap (shapeRoot s)
          = sumTotals selfTimeMap (shapeRoot <$> subtrees s))
    /\ ((forall x, 0 <= getOr0 selfTimeMap x) ->
        forall s k, s ∈ subtrees T -> k ∈ shapeKids s ->
          getOr0 totalTimeMap (shapeRoot k) <= getOr0 totalTimeMap (shapeRoot s)).
Proof.
  intros Htable.
  destruct (computeTotalTimeState_run ns selfTimeMap) as (st & Hrun & _).
  exists (TotalTime.totalTimeMap st).
  split; [unfold computeTotalTime; by rewrite Hrun|]. split.
  - intros s Hs. by apply (subtree_total T ns selfTimeMap st Htable Hrun).
  - intros Hpos s k Hs Hk.
    assert (k ∈ subtrees T) as Hks.
    { apply (subtrees_trans T s k Hs). apply (subtrees_kid s k Hk), subtrees_self. }
    rewrite (subtree_total T ns selfTimeMap st Htable Hrun s Hs).
    rewrite (subtree_total T ns selfTimeMap st Htable Hrun k Hks).
    rewrite !sumTotals_fmap, <- !list_fmap_compose.
    apply sum_submseteq; [|intros x _; apply Hpos].
    by apply sublist_submseteq, subtrees_kid_sublist.
Qed.

Lemma total_time_is_subtree_sum_witness :
  exists totalTimeMap,
    computeTotalTime (buildNodeMap (Profile.nodes Sample.profile))
      {[2 := 30; 3 := 20; 4 := 3]} (Profile.nodes Sample.profile) = Some totalTimeMap
    /\ getOr0 totalTimeMap 2 = 50.
Proof.
  destruct (total_time_is_subtree_sum (Profile.nodes Sample.profile) Sample.tree
              {[2 := 30; 3 := 20; 4 := 3]} sample_tree_table)
    as (totalTimeMap & Hrun & Hsum & _).
  exists totalTimeMap. split; [exact Hrun|].
  change (getOr0 totalTimeMap 2)
    with (getOr0 totalTimeMap (shapeRoot (Shape 2 [Shape 3 []]))).
  rewrite Hsum; [reflexivity|]. simpl. set_solver.
Defined.

(** ** When the analysis returns *)

Section AnalysisReturnsClosed.
Context (nm : gmap Z Node.t) (sm tm : gmap Z Z) (totalTime : Z).

Lemma sampleLoop_total_le ss : forall i deltas st,
  (i + length ss <= length deltas)%nat ->
  exists st', sampleLoop ss i deltas st = Ok st'.
Proof.
  induction ss as [|s ss IH]; intros i deltas st Hlen; simpl; [by eexists|].
  simpl in Hlen.
  destruct (lookup_lt_is_Some_2 deltas i) as [d Hd]; [lia|].
  rewrite Hd. apply IH. lia.
Qed.

Lemma buildNode_closed fuel : forall nodeId,
  (forall n y, nsteps (edge nm) n nodeId y -> (n < fuel)%nat /\ is_Some (nm !! y)) ->
  exists t, buildNode nm sm tm totalTime fuel nodeId = Ok t.
Proof.
  induction fuel as [|fuel IH]; intros nodeId Hpaths.
  - destruct (Hpaths 0%nat nodeId) as [Hlt _]; [constructor|lia].
  - destruct (Hpaths 0%nat nodeId) as [_ [node Hnode]]; [constructor|].
    simpl. rewrite Hnode.
    destruct (mapM_outcome_Ok (buildNode nm sm tm totalTime fuel)
                (default [] (Node.children node))) as [kids Hkids].
    { intros c Hc. apply IH. intros n y Hsteps.
      destruct (Hpaths (S n) y) as [Hlt Hy]; [|split; [lia|done]].
      apply (nsteps_l _ _ _ c); [|done]. by exists node. }
    rewrite Hkids. simpl. by eexists.
Qed.

(** A path that starts in a part of the table without cycles has fewer
    steps than that part has nodes. *)
Lemma acyclic_path_length n : forall (reach : gset Z) x y,
  (forall z, rtc (edge nm) x z -> z ∈ reach /\ ~ tc (edge nm) z z) ->
  nsteps (edge nm) n x y -> (n < size reach)%nat.
Proof.
  induction n as [|n IH]; intros reach x y Hreach Hsteps.
  - destruct (Hreach x) as [Hx _]; [done|].
    assert (size reach <> 0%nat); [|lia].
    intros Hzero%size_empty_inv. apply Hzero in Hx. by apply elem_of_empty in Hx.
  - inversion Hsteps as [|? ? c ? Hedge Hrest]; subst.
    destruct (Hreach x) as [Hx Hnocycle]; [done|].
    assert (n < size (reach ∖ {[x]}))%nat as Hlt.
    { apply (IH _ c y); [|done]. intros z Hz.
      destruct (Hreach z) as [HzS Hzc]; [by apply (rtc_l _ _ c)|].
      split; [|done]. apply elem_of_difference. split; [done|].
      intros ->%elem_of_singleton. apply Hnocycle.
      apply (tc_rtc_r _ c); [by apply tc_once|done]. }
    rewrite size_difference in Hlt by (by apply singleton_subseteq_l).
    rewrite size_singleton in Hlt. lia.
Qed.

End AnalysisReturnsClosed.

(** X25.  When there are at least as many time deltas as samples, the
    node table is not empty, and every node id that is reached from the
    first node through children arrays is the id of a node of the table
    and lies on no cycle of children pointers, the analysis returns. *)
Theorem analysis_returns_on_closed_table (p : Profile.t) (o : AnalyzeOptions.t)
    (rootNode : Node.t) :
  (length (Profile.samples p) <= length (Profile.timeDeltas p))%nat ->
  head (Profile.nodes p) = Some rootNode ->
  (forall y, rtc (edge (buildNodeMap (Profile.nodes p))) (Node.id rootNode) y ->
     y ∈ (Node.id <$> Profile.nodes p)
     /\ ~ tc (edge (buildNodeMap (Profile.nodes p))) y y) ->
  exists r, analyzeProfile p o = Ok r.
Proof.
  intros Hlen Hhead Hclosed.
  destruct (sampleLoop_total_le (Profile.samples p) 0 (Profile.timeDeltas p) (∅, ∅))
    as [[sm hm] Hself]; [done|].
  destruct (computeTotalTimeState_run (Profile.nodes p) sm) as (st & Hrun & _).
  set (G := buildNodeMap (Profile.nodes p)) in *.
  destruct (buildNode_closed G sm (TotalTime.totalTimeMap st)
              (sumDeltas (Profile.timeDeltas p)) (S (size G)) (Node.id rootNode))
    as [t Ht].
  { intros n y Hsteps.
    assert (rtc (edge G) (Node.id rootNode) y) as Hy by (apply rtc_nsteps; by exists n).
    split; [|by apply elem_of_dom, buildNodeMap_dom, Hclosed].
    assert (n < size (dom G))%nat as Hlt; [|by rewrite size_dom in Hlt; lia].
    apply (acyclic_path_length G n (dom G) (Node.id rootNode) y); [|done].
    intros z Hz. destruct (Hclosed z Hz) as [Hin Hcycle].
    split; [by apply buildNodeMap_dom|done]. }
  unfold analyzeProfile, computeSelfTime. rewrite Hself. simpl.
  unfold computeTotalTime. fold G. rewrite Hrun. simpl.
  rewrite Hhead. unfold buildCallTree. rewrite Ht. simpl. by eexists.
Qed.

Lemma analysis_returns_on_closed_table_witness :
  exists r, analyzeProfile (Profile.mk 0 0 Diamond.nodes [4; 2] [5; 1; 9]) defaultOptions
            = Ok r.
Proof.
  apply (analysis_returns_on_closed_table _ defaultOptions (Diamond.node 1 [2; 3])).
  - simpl. lia.
  - reflexivity.
  - intros y Hy. split; [|apply diamond_acyclic].
    assert (Hstep : forall a b, edge (buildNodeMap Diamond.nodes) a b ->
              a ∈ [1; 2; 3; 4] -> b ∈ [1; 2; 3; 4]).
    { intros a b (node & Hnode & Hb) _.
      apply buildNodeMap_lookup in Hnode as [Hin _].
      unfold Diamond.nodes in Hin.
      repeat (apply elem_of_cons in Hin as [->|Hin]); simpl in Hb;
        try (by apply elem_of_nil in Hin); set_solver. }
    assert (Hall : forall a b, rtc (edge (buildNodeMap Diamond.nodes)) a b ->
              a ∈ [1; 2; 3; 4] -> b ∈ [1; 2; 3; 4]).
    { induction 1 as [|a b c Hab _ IH]; [done|].
      intros Ha. apply IH. by apply (Hstep a b). }
    assert (y ∈ [1; 2; 3; 4]); [|done].
    apply (Hall _ _ Hy). simpl. set_solver.
Defined.

(** ** The hotspots are distinct functions *)

Lemma submseteq_NoDup_keys {A} (l k : list A) : l ⊆+ k -> NoDup k -> NoDup l.
Proof.
  intros (l' & Hperm & Hsub)%submseteq_sublist_r Hnd.
  rewrite Hperm. by apply (sublist_NoDup l' k).
Qed.

(** X26.  Every hotspot of the result is the record of one function of
    the function statistics, with the type its url gives it, and no
    function is listed twice. *)
Theorem hotspots_are_distinct_functions (p : Profile.t) (o : AnalyzeOptions.t)
    (r : AnalysisResult.t) :
  analyzeProfile p o = Ok r ->
  NoDup (Hotspot.key <$> AnalysisResult.hotspots r)
  /\ forall h, h ∈ AnalysisResult.hotspots r ->
       exists s, s ∈ AnalysisResult.functionStats r /\ h = toHotspot s
         /\ Hotspot.type h = determineHotspotType (Hotspot.url h) (Hotspot.name h).
Proof.
  intros (sm & hm & tm & _ & _ & _ & _ & Hstats & _ & -> & _)%analyzeProfile_inv.
  destruct (extractHotspots_submseteq (AnalysisResult.functionStats r)
              (optThreshold o) (optMaxHotspots o)) as (kept & -> & Hsub).
  split.
  - assert (Hotspot.key <$> (toHotspot <$> kept) = FunctionStats.key <$> kept) as ->.
    { rewrite <- list_fmap_compose. by apply list_fmap_ext. }
    apply (submseteq_NoDup_keys _ (FunctionStats.key <$> AnalysisResult.functionStats r)).
    + by apply fmap_submseteq.
    + rewrite Hstats, aggregateFunctionStats_keys. apply firstSeen_NoDup.
  - intros h (s & -> & Hs)%list_elem_of_fmap. exists s.
    split; [by apply (elem_of_submseteq kept)|]. done.
Qed.

Lemma hotspots_are_distinct_functions_witness :
  exists r, analyzeProfile Sample.profile SampleOptions.loose = Ok r
    /\ NoDup (Hotspot.key <$> AnalysisResult.hotspots r).
Proof.
  destruct (analyzeProfile Sample.profile SampleOptions.loose) as [r|e] eqn:Hr;
    [|vm_compute in Hr; discriminate].
  exists r. split; [done|]. exact (proj1 (hotspots_are_distinct_functions _ _ _ Hr)).
Defined.
(** ** The hotspot marker of the call tree *)

Section Marker.

Lemma hasColon_app a b : hasColon (a +:+ b) = hasColon a || hasColon b.
Proof. induction a as [|c a IH]; simpl; [done|]. by rewrite IH, orb_assoc. Qed.

Lemma lastPart_app a b : hasColon b = true -> lastPart (a +:+ b) = lastPart b.
Proof.
  intros Hb. induction a as [|c a IH]; simpl; [done|].
  by rewrite hasColon_app, Hb, orb_true_r.
Qed.

Lemma lastPart_colon d : hasColon d = false -> lastPart (":" +:+ d) = d.
Proof.
  intros Hd. change (":" +:+ d) with (String ":" d). cbn [lastPart]. by rewrite Hd.
Qed.

Lemma pretty_N_go_no_colon x : forall s,
  hasColon s = false -> hasColon (pretty_N_go x s) = false.
Proof.
  induction (N.lt_wf_0 x) as [x _ IH]; intros s Hs.
  assert (x = 0 \/ 0 < x)%N as [->|Hpos] by lia.
  - by rewrite pretty_N_go_0.
  - rewrite pretty_N_go_step by done. apply IH; [by apply N.div_lt|].
    simpl. rewrite Hs. unfold pretty_N_char. by repeat case_match.
Qed.

Lemma showZ_no_colon z : hasColon (showZ z) = false.
Proof.
  assert (forall x : positive, hasColon (pretty x) = false) as Hpos.
  { intros x. unfold pretty, pretty_positive, pretty, pretty_N.
    destruct (decide (N.pos x = 0%N)); [done|]. by apply pretty_N_go_no_colon. }
  unfold showZ, pretty, pretty_Z. destruct z as [|x|x]; [done|apply Hpos|].
  rewrite hasColon_app. by rewrite Hpos.
Qed.

Lemma lastPart_functionKey cf :
  lastPart (functionKey cf) = showZ (CallFrame.columnNumber cf).
Proof.
  unfold functionKey.
  assert (Hlast : hasColon (":" +:+ showZ (CallFrame.columnNumber cf)) = true) by done.
  do 5 (rewrite lastPart_app
          by (rewrite ?hasColon_app; simpl; rewrite ?orb_true_r; reflexivity)).
  apply lastPart_colon, showZ_no_colon.
Qed.

Lemma lastPart_renderKey node : lastPart (renderKey node) = "0".
Proof.
  unfold renderKey.
  assert (Hlast : hasColon ":0" = true) by done.
  do 5 (rewrite lastPart_app
          by (rewrite ?hasColon_app; simpl; rewrite ?orb_true_r; reflexivity)).
  reflexivity.
Qed.

Lemma hotspot_keys_of_nodes p o r k :
  analyzeProfile p o = Ok r ->
  k ∈ (Hotspot.key <$> AnalysisResult.hotspots r) ->
  exists node, node ∈ Profile.nodes p /\ k = functionKey (Node.callFrame node).
Proof.
  intros (sm & hm & tm & _ & _ & _ & _ & Hstats & _ & -> & _)%analyzeProfile_inv Hk.
  destruct (extractHotspots_submseteq (AnalysisResult.functionStats r)
              (optThreshold o) (optMaxHotspots o)) as (kept & Hkept & Hsub).
  rewrite Hkept in Hk. apply list_elem_of_fmap in Hk as (h & -> & Hh).
  apply list_elem_of_fmap in Hh as (s & -> & Hs).
  apply (elem_of_submseteq kept _ s Hs) in Hsub.
  apply (list_elem_of_fmap_2 FunctionStats.key) in Hsub.
  rewrite Hstats, aggregateFunctionStats_keys in Hsub.
  apply firstSeen_elem, list_elem_of_fmap in Hsub as (node & Hkey & Hnode).
  by exists node.
Qed.

End Marker.

(** X27.  The detailed report marks a node of the call tree as a hotspot
    when the key made of its name, url and line with column 0 is the key of
    a hotspot; the keys of the hotspots carry the column of the call frame.
    So when no call frame of the profile is at column 0, no node is marked,
    whatever the hotspots are. *)
Theorem hotspot_marker_needs_column_zero (p : Profile.t) (o : AnalyzeOptions.t)
    (r : AnalysisResult.t) :
  analyzeProfile p o = Ok r ->
  (forall node, node ∈ Profile.nodes p ->
     CallFrame.columnNumber (Node.callFrame node) <> 0) ->
  forall u, isHotspotNode (AnalysisResult.hotspots r) u = false.
Proof.
  intros Hrun Hcol u. apply bool_decide_eq_false. intros Hin.
  destruct (hotspot_keys_of_nodes p o r (renderKey u) Hrun Hin)
    as (node & Hnode & Hkey).
  apply (f_equal lastPart) in Hkey.
  rewrite lastPart_renderKey, lastPart_functionKey in Hkey.
  apply (Hcol node Hnode). apply pretty_Z_inj. unfold showZ in Hkey. by rewrite <- Hkey.
Qed.

Lemma hotspot_marker_needs_column_zero_witness :
  exists r, analyzeProfile Columns.profile defaultOptions = Ok r
    /\ AnalysisResult.hotspots r <> []
    /\ forall u, isHotspotNode (AnalysisResult.hotspots r) u = false.
Proof.
  destruct (analyzeProfile Columns.profile defaultOptions) as [r|e] eqn:Hr;
    [|vm_compute in Hr; discriminate].
  exists r. split; [done|]. split.
  - vm_compute in Hr. by injection Hr as <-.
  - apply (hotspot_marker_needs_column_zero Columns.profile defaultOptions r Hr).
    intros node Hnode. unfold Columns.profile, Columns.nodes in Hnode. simpl in Hnode.
    repeat (apply elem_of_cons in Hnode as [->|Hnode]); simpl;
      [done|done|by apply elem_of_nil in Hnode].
Defined.
(** ** Asking for more entries, and the order of the samples *)

Lemma jsSlice0_prefix_mono {A} (m1 m2 : Z) (l : list A) :
  0 <= m1 <= m2 -> jsSlice0 m1 l `prefix_of` jsSlice0 m2 l.
Proof.
  intros Hm. rewrite !jsSlice0_nonneg by lia.
  exists (take (Z.to_nat m2 - Z.to_nat m1) (drop (Z.to_nat m1) l)).
  rewrite take_take_drop. f_equal. lia.
Qed.

(** X28.  Asking for more entries keeps the ones there are: for maxima that
    are not negative, the hotspots under a smaller [maxHotspots] (and the
    same threshold) are the first of the hotspots under a greater one, and
    likewise the critical paths under [maxPaths]. *)
Theorem more_entries_extend_the_list (p : Profile.t) (o1 o2 : AnalyzeOptions.t)
    (r1 r2 : AnalysisResult.t) :
  analyzeProfile p o1 = Ok r1 ->
  analyzeProfile p o2 = Ok r2 ->
  (optThreshold o1 = optThreshold o2 ->
   0 <= optMaxHotspots o1 <= optMaxHotspots o2 ->
   AnalysisResult.hotspots r1 `prefix_of` AnalysisResult.hotspots r2)
  /\ (0 <= optMaxPaths o1 <= optMaxPaths o2 ->
      AnalysisResult.criticalPaths r1 `prefix_of` AnalysisResult.criticalPaths r2).
Proof.
  intros (sm & hm & tm & Hs1 & Ht1 & _ & _ & Hf1 & Hc1 & -> & ->)%analyzeProfile_inv
    (sm' & hm' & tm' & Hs2 & Ht2 & _ & _ & Hf2 & Hc2 & -> & ->)%analyzeProfile_inv.
  rewrite Hs1 in Hs2. injection Hs2 as <- <-.
  rewrite Ht1 in Ht2. injection Ht2 as <-.
  rewrite Hc1 in Hc2. injection Hc2 as <-. rewrite Hf2, <- Hf1.
  split.
  - intros <- Hmax. unfold extractHotspots.
    by apply fmap_prefix_bool, jsSlice0_prefix_mono.
  - intros Hmax. unfold findCriticalPaths. by apply jsSlice0_prefix_mono.
Qed.

Lemma more_entries_extend_the_list_witness :
  exists r1 r2,
    analyzeProfile Sample.profile (AnalyzeOptions.mk None (Some 1) (Some 1)) = Ok r1
    /\ analyzeProfile Sample.profile defaultOptions = Ok r2
    /\ AnalysisResult.hotspots r1 `prefix_of` AnalysisResult.hotspots r2
    /\ AnalysisResult.criticalPaths r1 `prefix_of` AnalysisResult.criticalPaths r2.
Proof.
  destruct (analyzeProfile Sample.profile (AnalyzeOptions.mk None (Some 1) (Some 1)))
    as [r1|e] eqn:Hr1; [|vm_compute in Hr1; discriminate].
  destruct (analyzeProfile Sample.profile defaultOptions) as [r2|e] eqn:Hr2;
    [|vm_compute in Hr2; discriminate].
  exists r1, r2. split; [done|]. split; [done|].
  destruct (more_entries_extend_the_list Sample.profile _ _ r1 r2 Hr1 Hr2) as [Hh Hp].
  split; [apply Hh; [reflexivity|]|apply Hp];
    unfold optMaxHotspots, optMaxPaths, defaultOptions; simpl; lia.
Defined.

Lemma sumDeltas_perm l l' : l ≡ₚ l' -> sumDeltas l = sumDeltas l'.
Proof.
  intros Hperm. unfold sumDeltas.
  rewrite (sum_acc (fun x => x) l 0), (sum_acc (fun x => x) l' 0), !list_fmap_id.
  f_equal. by apply sum_perm.
Qed.

(** The two maps of the sample loop, entry by entry. *)
Lemma computeSelfTime_lookup p sm hm k :
  computeSelfTime p = Ok (sm, hm) ->
  sm !! k
  = (if decide (k ∈ Profile.samples p)
     then Some (sumDeltas (sampledDeltas k (Profile.samples p) (Profile.timeDeltas p)))
     else None)
  /\ hm !! k
     = (if decide (k ∈ Profile.samples p)
        then Some (occurrences k (Profile.samples p)) else None).
Proof.
  intros Hrun.
  destruct (sampleLoop_node k _ _ _ _ _ Hrun) as (Hself & Hhit & Hdom1 & Hdom2).
  simpl in *. rewrite drop_0 in Hself.
  unfold getOr0 in Hself, Hhit. rewrite lookup_empty in Hself, Hhit, Hdom1, Hdom2.
  simpl in Hself, Hhit.
  destruct (decide (k ∈ Profile.samples p)) as [Hin|Hout].
  - destruct (proj2 Hdom1 (or_intror Hin)) as [v Hv].
    destruct (proj2 Hdom2 (or_intror Hin)) as [w Hw].
    rewrite Hv in Hself |- *. rewrite Hw in Hhit |- *. simpl in *.
    split; f_equal; lia.
  - split; apply eq_None_not_Some.
    + rewrite Hdom1. intros [[? ?]|?]; done.
    + rewrite Hdom2. intros [[? ?]|?]; done.
Qed.

Lemma computeSelfTime_perm start stop ns ss ds ss' ds' sm hm sm' hm' :
  zip ss ds ≡ₚ zip ss' ds' ->
  length ss = length ds -> length ss' = length ds' ->
  computeSelfTime (Profile.mk start stop ns ss ds) = Ok (sm, hm) ->
  computeSelfTime (Profile.mk start stop ns ss' ds') = Ok (sm', hm') ->
  sm = sm' /\ hm = hm'.
Proof.
  intros Hperm Hlen Hlen' Hrun Hrun'.
  assert (ss ≡ₚ ss') as Hss.
  { rewrite <- (fst_zip ss ds), <- (fst_zip ss' ds') by lia. by rewrite Hperm. }
  split; apply map_eq; intros k;
    destruct (computeSelfTime_lookup _ _ _ k Hrun) as [Hs Hh];
    destruct (computeSelfTime_lookup _ _ _ k Hrun') as [Hs' Hh'];
    simpl in Hs, Hh, Hs', Hh'.
  - rewrite Hs, Hs'.
    destruct (decide (k ∈ ss)) as [Hin|Hout], (decide (k ∈ ss')) as [Hin'|Hout'].
    + f_equal. apply sumDeltas_perm. unfold sampledDeltas. by rewrite Hperm.
    + exfalso. apply Hout'. by rewrite <- Hss.
    + exfalso. apply Hout. by rewrite Hss.
    + done.
  - rewrite Hh, Hh'.
    destruct (decide (k ∈ ss)) as [Hin|Hout], (decide (k ∈ ss')) as [Hin'|Hout'].
    + f_equal. unfold occurrences. by rewrite Hss.
    + exfalso. apply Hout'. by rewrite <- Hss.
    + exfalso. apply Hout. by rewrite Hss.
    + done.
Qed.


